(** * Linked containers of the "dsa code" programs

    A shallow embedding of the C programs [menu_linked.c], [linked_delete.c],
    [menu_DLL.c], [csll.c], [CDLL.c], [linked_stack_menu.c] and
    [linked_queue_menu.c], and the properties of their list, stack and queue
    operations.

    Modelling conventions.
    - A pointer is [option nat]: [None] is [NULL], [Some a] the address of a
      block.  The heap is a finite map from addresses to node records; a
      freed or never allocated address is absent from it.
    - An operation is a function on a [world] (heap and console) that either
      finishes with a value, crashes on a dereference C leaves undefined, or
      runs out of fuel.  Every [while]/[for] loop that walks the heap takes a
      fuel argument; running out of fuel for every fuel is divergence.
    - What [malloc] returned and what [scanf] read are arguments of the
      operation ([new] and [item]); [new = None] is a failed allocation.
    - A local variable that the C code reads before assigning it is an
      argument too ([junk]): its value is whatever the stack held.  So is
      the value of a call to a non-void function that ends without a
      [return].
    - [int] payloads are compared and copied only, never computed with, so
      they are modelled as [Z]. *)

From Stdlib Require Import ZArith String.
From stdpp Require Import base option list gmap sorting.

Local Open Scope string_scope.

(** ** Pointers, faults, console *)

Definition pointer : Type := option nat.

Definition NULL : pointer := None.

Definition ptr_eqb (p q : pointer) : bool := bool_decide (p = q).

Inductive fault : Type :=
| NullDeref     (* p->f with p == NULL *)
| BadDeref.     (* p->f or free(p) with p freed or never allocated *)

Inductive outcome (A : Type) : Type :=
| Done (a : A)
| Crash (f : fault)
| OutOfFuel.

Arguments Done {A} a.
Arguments Crash {A} f.
Arguments OutOfFuel {A}.

(** One call of [printf]: the format string as it is written in the source
    (escapes kept as written) and the integer arguments. *)
Inductive event : Type :=
| Printf (fmt : string) (args : list Z).

(** ** The memory monad *)

Section Memory.
Context {node : Type}.

Record world : Type := World { heap : gmap nat node; console : list event }.

Definition M (A : Type) : Type := world -> outcome (A * world).

Definition ret {A} (a : A) : M A := fun w => Done (a, w).

Definition bind {A B} (m : M A) (k : A -> M B) : M B :=
  fun w =>
    match m w with
    | Done (a, w') => k a w'
    | Crash f => Crash f
    | OutOfFuel => OutOfFuel
    end.

Definition out_of_fuel {A} : M A := fun _ => OutOfFuel.

(** [*p] *)
Definition load (p : pointer) : M node :=
  fun w =>
    match p with
    | None => Crash NullDeref
    | Some a =>
        match heap w !! a with
        | Some n => Done (n, w)
        | None => Crash BadDeref
        end
    end.

(** [*p = f ( *p )], used for the field assignments [p->f = v] *)
Definition update (p : pointer) (f : node -> node) : M unit :=
  fun w =>
    match p with
    | None => Crash NullDeref
    | Some a =>
        match heap w !! a with
        | Some n => Done (tt, World (<[a := f n]> (heap w)) (console w))
        | None => Crash BadDeref
        end
    end.

(** [new = malloc(sizeof(struct Node))], where [new] is the value the
    allocator returned.  The block starts with the contents [blank]; every
    caller in these programs assigns all fields before reading any. *)
Definition malloc (blank : node) (new : pointer) : M unit :=
  fun w =>
    match new with
    | None => Done (tt, w)
    | Some a => Done (tt, World (<[a := blank]> (heap w)) (console w))
    end.

(** [free(p)]; [free(NULL)] does nothing. *)
Definition free (p : pointer) : M unit :=
  fun w =>
    match p with
    | None => Done (tt, w)
    | Some a =>
        match heap w !! a with
        | Some _ => Done (tt, World (delete a (heap w)) (console w))
        | None => Crash BadDeref
        end
    end.

Definition printf (fmt : string) (args : list Z) : M unit :=
  fun w => Done (tt, World (heap w) (console w ++ [Printf fmt args])).

End Memory.

Arguments world : clear implicits.
Arguments M : clear implicits.

Notation "x <- m ;; k" := (bind m (fun x => k))
  (at level 100, m at next level, right associativity).
Notation "m ;;; k" := (bind m (fun _ => k))
  (at level 100, right associativity).

(** ** Nodes *)

(** [struct node { int info; struct node *link; }] of [menu_linked.c],
    [csll.c], [linked_stack_menu.c] and [linked_queue_menu.c];
    [linked_delete.c] and [linked_insert.c] name the fields [data] and
    [next]. *)
Record snode : Type := SNode { info : Z; link : pointer }.

(** [struct Node { int info; struct Node *prev; struct Node *next; }] of
    [menu_DLL.c] and [CDLL.c]. *)
Record dnode : Type := DNode { dinfo : Z; prev : pointer; next : pointer }.

Definition sblank : snode := SNode 0 NULL.
Definition dblank : dnode := DNode 0 NULL NULL.

Definition get_info (p : pointer) : M snode Z := n <- load p ;; ret (info n).
Definition get_link (p : pointer) : M snode pointer :=
  n <- load p ;; ret (link n).
Definition set_info (p : pointer) (v : Z) : M snode unit :=
  update p (fun n => SNode v (link n)).
Definition set_link (p : pointer) (q : pointer) : M snode unit :=
  update p (fun n => SNode (info n) q).

Definition get_dinfo (p : pointer) : M dnode Z := n <- load p ;; ret (dinfo n).
Definition get_prev (p : pointer) : M dnode pointer :=
  n <- load p ;; ret (prev n).
Definition get_next (p : pointer) : M dnode pointer :=
  n <- load p ;; ret (next n).
Definition set_dinfo (p : pointer) (v : Z) : M dnode unit :=
  update p (fun n => DNode v (prev n) (next n)).
Definition set_prev (p : pointer) (q : pointer) : M dnode unit :=
  update p (fun n => DNode (dinfo n) q (next n)).
Definition set_next (p : pointer) (q : pointer) : M dnode unit :=
  update p (fun n => DNode (dinfo n) (prev n) q).

(** ** linked_stack_menu.c *)

Module Stack.

Definition push (new : pointer) (item : Z) (top : pointer) : M snode pointer :=
  malloc sblank new ;;;
  if ptr_eqb new NULL then
    printf "OVERFLOW" [] ;;; ret top
  else
    printf "enter item to be inserted" [] ;;;
    set_info new item ;;;
    set_link new NULL ;;;
    if ptr_eqb top NULL then
      ret new
    else
      set_link new top ;;;
      ret new.

Definition pop (top : pointer) : M snode pointer :=
  if ptr_eqb top NULL then
    printf "UNDERFLOW" [] ;;; ret top
  else
    let ptr := top in
    v <- get_info ptr ;;
    printf "deleted item is:%d\n" [v] ;;;
    top <- get_link ptr ;;
    free ptr ;;;
    ret top.

Fixpoint peep_loop (fuel : nat) (ptr : pointer) : M snode unit :=
  match fuel with
  | O => out_of_fuel
  | S fuel =>
      if ptr_eqb ptr NULL then ret tt
      else
        v <- get_info ptr ;;
        printf "%d\t" [v] ;;;
        ptr <- get_link ptr ;;
        peep_loop fuel ptr
  end.

Definition peep (fuel : nat) (top : pointer) : M snode unit :=
  if ptr_eqb top NULL then
    printf "stack is empty" []
  else
    let ptr := top in
    printf "list of the stack are:" [] ;;;
    peep_loop fuel ptr ;;;
    printf "\n" [].

End Stack.

(** ** linked_queue_menu.c *)

Module Queue.

(** [enqueue] and [dequeue] receive [&front] and [&rear]; the two cells
    are passed in and handed back as a pair. *)
Definition enqueue (new : pointer) (item : Z) (fr : pointer * pointer)
  : M snode (pointer * pointer) :=
  let '(front, rear) := fr in
  malloc sblank new ;;;
  if ptr_eqb new NULL then
    printf "OVERFLOW" [] ;;; ret (front, rear)
  else
    printf "enter item to be inserted" [] ;;;
    set_info new item ;;;
    set_link new NULL ;;;
    if ptr_eqb front NULL && ptr_eqb rear NULL then
      ret (new, new)
    else
      set_link rear new ;;;
      ret (front, new).

Definition dequeue (fr : pointer * pointer) : M snode (pointer * pointer) :=
  let '(front, rear) := fr in
  if ptr_eqb front NULL && ptr_eqb rear NULL then
    printf "UNDERFLOW" [] ;;; ret (front, rear)
  else
    let ptr := front in
    if ptr_eqb front rear then
      ret (NULL, NULL)
    else
      front <- get_link front ;;
      free ptr ;;;
      ret (front, rear).

Fixpoint traverse_loop (fuel : nat) (ptr : pointer) : M snode unit :=
  match fuel with
  | O => out_of_fuel
  | S fuel =>
      if ptr_eqb ptr NULL then ret tt
      else
        v <- get_info ptr ;;
        printf "%d\t" [v] ;;;
        ptr <- get_link ptr ;;
        traverse_loop fuel ptr
  end.

Definition traverse (fuel : nat) (front : pointer) : M snode unit :=
  let ptr := front in
  printf "elements in the queue are:" [] ;;;
  traverse_loop fuel ptr ;;;
  printf "\n" [].

End Queue.

(** ** menu_linked.c *)

Module SLL.

Definition create_sll (new : pointer) (item : Z) (start : pointer)
  : M snode pointer :=
  malloc sblank new ;;;
  if ptr_eqb new NULL then
    printf "\nOVERFLOW\n" [] ;;; ret start
  else
    printf "\nEnter Item:\n" [] ;;;
    set_info new item ;;;
    set_link new NULL ;;;
    if ptr_eqb start NULL then ret new else ret start.

Fixpoint traversal_loop (fuel : nat) (ptr : pointer) : M snode unit :=
  match fuel with
  | O => out_of_fuel
  | S fuel =>
      if ptr_eqb ptr NULL then ret tt
      else
        v <- get_info ptr ;;
        printf "%d\t" [v] ;;;
        ptr <- get_link ptr ;;
        traversal_loop fuel ptr
  end.

Definition traversal (fuel : nat) (start : pointer) : M snode unit :=
  let ptr := start in
  printf "\nContent of the SLL:\n" [] ;;;
  traversal_loop fuel ptr.

Definition insert_beg (new : pointer) (item : Z) (start : pointer)
  : M snode pointer :=
  malloc sblank new ;;;
  if ptr_eqb new NULL then
    printf "\nOVERFLOW\n" [] ;;; ret start
  else
    printf "\nEnter Item:\n" [] ;;;
    set_info new item ;;;
    set_link new NULL ;;;
    if ptr_eqb start NULL then ret new
    else
      set_link new start ;;;
      ret new.

(** [while(ptr->link!=NULL) ptr=ptr->link;] *)
Fixpoint last_loop (fuel : nat) (ptr : pointer) : M snode pointer :=
  match fuel with
  | O => out_of_fuel
  | S fuel =>
      l <- get_link ptr ;;
      if ptr_eqb l NULL then ret ptr
      else last_loop fuel l
  end.

Definition insert_end (fuel : nat) (new : pointer) (item : Z) (start : pointer)
  : M snode pointer :=
  let ptr := start in
  malloc sblank new ;;;
  if ptr_eqb new NULL then
    printf "\nOVERFLOW\n" [] ;;; ret start
  else
    printf "\nEnter Item:\n" [] ;;;
    set_info new item ;;;
    set_link new NULL ;;;
    if ptr_eqb start NULL then ret new
    else
      ptr <- last_loop fuel ptr ;;
      set_link ptr new ;;;
      ret start.

Definition delete_beg (start : pointer) : M snode pointer :=
  let ptr := start in
  if ptr_eqb start NULL then
    printf "\nUNDERFLOW\n" [] ;;; ret start
  else
    v <- get_info ptr ;;
    printf "\nItem Deleted=%d\n" [v] ;;;
    start <- get_link ptr ;;
    free ptr ;;;
    ret start.

(** [while(ptr->link!=NULL){ prev=ptr; ptr=ptr->link; }], giving back
    [(ptr, prev)]. *)
Fixpoint end_loop (fuel : nat) (ptr prev : pointer)
  : M snode (pointer * pointer) :=
  match fuel with
  | O => out_of_fuel
  | S fuel =>
      l <- get_link ptr ;;
      if ptr_eqb l NULL then ret (ptr, prev)
      else end_loop fuel l ptr
  end.

Definition delete_end (fuel : nat) (start : pointer) : M snode pointer :=
  let ptr := start in
  let prev := start in
  if ptr_eqb start NULL then
    printf "\nUNDERFLOW\n" [] ;;; ret start
  else
    pp <- end_loop fuel ptr prev ;;
    let '(ptr, prev) := pp in
    v <- get_info ptr ;;
    printf "\nItem Deleted=%d\n" [v] ;;;
    set_link prev NULL ;;;
    free ptr ;;;
    ret start.

(** [while(ptr!=NULL){ temp=ptr->link; ptr->link=prev; prev=ptr;
    ptr=temp; }], giving back [prev]. *)
Fixpoint reversal_loop (fuel : nat) (ptr prev : pointer) : M snode pointer :=
  match fuel with
  | O => out_of_fuel
  | S fuel =>
      if ptr_eqb ptr NULL then ret prev
      else
        temp <- get_link ptr ;;
        set_link ptr prev ;;;
        reversal_loop fuel temp ptr
  end.

Definition reversal (fuel : nat) (start : pointer) : M snode pointer :=
  let ptr := start in
  let prev := NULL in
  prev <- reversal_loop fuel ptr prev ;;
  ret prev.

(** [while(ptr!=NULL && ptr->info!=item){ ptr=ptr->link; loc++; }], giving
    back [(ptr, loc)].  [&&] reads [ptr->info] only when [ptr] is not
    [NULL]. *)
Fixpoint searching_loop (fuel : nat) (item : Z) (ptr : pointer) (loc : Z)
  : M snode (pointer * Z) :=
  match fuel with
  | O => out_of_fuel
  | S fuel =>
      if ptr_eqb ptr NULL then ret (ptr, loc)
      else
        v <- get_info ptr ;;
        if bool_decide (v = item) then ret (ptr, loc)
        else
          ptr <- get_link ptr ;;
          searching_loop fuel item ptr (loc + 1)%Z
  end.

Definition searching_sll (fuel : nat) (start : pointer) (item : Z)
  : M snode unit :=
  let ptr := start in
  let loc := 1%Z in
  pl <- searching_loop fuel item ptr loc ;;
  let '(ptr, loc) := pl in
  if ptr_eqb ptr NULL then
    printf "\nUnsuccsful Search.\n" []
  else
    printf "\n%d found at %d Node.\n" [item; loc].

(** The inner loop of [sorting_sll]:
    [while(ptr2!=NULL){ if(ptr1->info>ptr2->info){ temp=ptr1->info;
    ptr1->info=ptr2->info; ptr2->info=temp; } ptr2=ptr2->link; }] *)
Fixpoint sorting_inner (fuel : nat) (ptr1 ptr2 : pointer) : M snode unit :=
  match fuel with
  | O => out_of_fuel
  | S fuel =>
      if ptr_eqb ptr2 NULL then ret tt
      else
        x <- get_info ptr1 ;;
        y <- get_info ptr2 ;;
        (if bool_decide (x > y)%Z then
           temp <- get_info ptr1 ;;
           v <- get_info ptr2 ;;
           set_info ptr1 v ;;;
           set_info ptr2 temp
         else ret tt) ;;;
        ptr2 <- get_link ptr2 ;;
        sorting_inner fuel ptr1 ptr2
  end.

(** The outer loop: [while(ptr1->link!=NULL){ ptr2=ptr1->link; ...
    ptr1=ptr1->link; }].  The inner loop runs on the fuel that is left. *)
Fixpoint sorting_outer (fuel : nat) (ptr1 : pointer) : M snode unit :=
  match fuel with
  | O => out_of_fuel
  | S fuel =>
      l <- get_link ptr1 ;;
      if ptr_eqb l NULL then ret tt
      else
        ptr2 <- get_link ptr1 ;;
        sorting_inner fuel ptr1 ptr2 ;;;
        ptr1 <- get_link ptr1 ;;
        sorting_outer fuel ptr1
  end.

Definition sorting_sll (fuel : nat) (start : pointer) : M snode unit :=
  let ptr1 := start in
  sorting_outer fuel ptr1.

End SLL.

(** ** linked_delete.c *)

Module LinkedDelete.

(** The fields [data] and [next] of this file's [struct Node]. *)
Definition get_data := get_info.
Definition get_next := get_link.
Definition set_next := set_link.

Definition deleteAtFirst (head : pointer) : M snode pointer :=
  let ptr := head in
  head <- get_next head ;;
  free ptr ;;;
  ret head.

(** [while(q->next!=NULL){ p=p->next; q=q->next; }], giving back
    [(p, q)]. *)
Fixpoint deleteAtEnd_loop (fuel : nat) (p q : pointer)
  : M snode (pointer * pointer) :=
  match fuel with
  | O => out_of_fuel
  | S fuel =>
      qn <- get_next q ;;
      if ptr_eqb qn NULL then ret (p, q)
      else
        p <- get_next p ;;
        q <- get_next q ;;
        deleteAtEnd_loop fuel p q
  end.

Definition deleteAtEnd (fuel : nat) (head : pointer) : M snode pointer :=
  let p := head in
  q <- get_next head ;;
  pq <- deleteAtEnd_loop fuel p q ;;
  let '(p, q) := pq in
  set_next p NULL ;;;
  free q ;;;
  ret head.

(** [while(q->data!=value && q->next!=NULL){ p=p->next; q=q->next; }],
    giving back [(p, q)].  [&&] reads [q->next] only when the first test
    holds. *)
Fixpoint deleteAtvalue_loop (fuel : nat) (value : Z) (p q : pointer)
  : M snode (pointer * pointer) :=
  match fuel with
  | O => out_of_fuel
  | S fuel =>
      d <- get_data q ;;
      if bool_decide (d = value) then ret (p, q)
      else
        qn <- get_next q ;;
        if ptr_eqb qn NULL then ret (p, q)
        else
          p <- get_next p ;;
          q <- get_next q ;;
          deleteAtvalue_loop fuel value p q
  end.

Definition deleteAtvalue (fuel : nat) (head : pointer) (value : Z)
  : M snode pointer :=
  let p := head in
  q <- get_next head ;;
  pq <- deleteAtvalue_loop fuel value p q ;;
  let '(p, q) := pq in
  d <- get_data q ;;
  (if bool_decide (d = value) then
     qn <- get_next q ;;
     set_next p qn ;;;
     free q
   else ret tt) ;;;
  ret head.

(** [while(ptr!=NULL){ printf("element is %d\n", ptr->data);
    ptr=ptr->next; }], giving back [ptr]. *)
Fixpoint linkedTraversal (fuel : nat) (ptr : pointer) : M snode pointer :=
  match fuel with
  | O => out_of_fuel
  | S fuel =>
      if ptr_eqb ptr NULL then ret ptr
      else
        d <- get_data ptr ;;
        printf "element is %d\n" [d] ;;;
        ptr <- get_next ptr ;;
        linkedTraversal fuel ptr
  end.

(** [while(i!=index-1){ p=p->next; q=q->next; }], giving back [(p, q)].
    The body assigns neither [i] nor [index]. *)
Fixpoint deleteAtIndex_loop (fuel : nat) (index i : Z) (p q : pointer)
  : M snode (pointer * pointer) :=
  match fuel with
  | O => out_of_fuel
  | S fuel =>
      if bool_decide (i ≠ index - 1)%Z then
        p <- get_next p ;;
        q <- get_next q ;;
        deleteAtIndex_loop fuel index i p q
      else ret (p, q)
  end.

Definition deleteAtIndex (fuel : nat) (head : pointer) (index : Z)
  : M snode pointer :=
  let p := head in
  q <- get_next head ;;
  let i := 0%Z in
  pq <- deleteAtIndex_loop fuel index i p q ;;
  let '(p, q) := pq in
  qn <- get_next q ;;
  set_next p qn ;;;
  free q ;;;
  ret head.

End LinkedDelete.

(** ** linked_insert.c *)

Module LinkedInsert.

(** The fields [data] and [next] of this file's [struct Node].  No function
    of this file tests what [malloc] returned. *)
Definition get_data := get_info.
Definition set_data := set_info.
Definition get_next := get_link.
Definition set_next := set_link.

Fixpoint linkedlisttraversal (fuel : nat) (ptr : pointer)
  : M snode pointer :=
  match fuel with
  | O => out_of_fuel
  | S fuel =>
      if ptr_eqb ptr NULL then ret ptr
      else
        d <- get_data ptr ;;
        printf " Element is %d\n" [d] ;;;
        ptr <- get_next ptr ;;
        linkedlisttraversal fuel ptr
  end.

Definition insertAtFirst (new : pointer) (head : pointer) (data : Z)
  : M snode pointer :=
  malloc sblank new ;;;
  let ptr := new in
  set_data ptr data ;;;
  set_next ptr head ;;;
  ret ptr.

(** [while(i!=index-1){ p=p->next; i++; }], giving back [p].  [i] counts
    the nodes walked, so it stays below the length of the list. *)
Fixpoint insertAtIndex_loop (fuel : nat) (index i : Z) (p : pointer)
  : M snode pointer :=
  match fuel with
  | O => out_of_fuel
  | S fuel =>
      if bool_decide (i ≠ index - 1)%Z then
        p <- get_next p ;;
        insertAtIndex_loop fuel index (i + 1)%Z p
      else ret p
  end.

Definition insertAtIndex (fuel : nat) (new : pointer) (head : pointer)
  (data index : Z) : M snode pointer :=
  malloc sblank new ;;;
  let ptr := new in
  set_data ptr data ;;;
  let p := head in
  let i := 0%Z in
  p <- insertAtIndex_loop fuel index i p ;;
  pn <- get_next p ;;
  set_next ptr pn ;;;
  set_next p ptr ;;;
  ret head.

(** [while(p->next!=NULL){ p=p->next; }] *)
Fixpoint insertAtEnd_loop (fuel : nat) (p : pointer) : M snode pointer :=
  match fuel with
  | O => out_of_fuel
  | S fuel =>
      pn <- get_next p ;;
      if ptr_eqb pn NULL then ret p
      else insertAtEnd_loop fuel pn
  end.

Definition insertAtEnd (fuel : nat) (new : pointer) (head : pointer)
  (data : Z) : M snode pointer :=
  malloc sblank new ;;;
  let ptr := new in
  set_data ptr data ;;;
  let p := head in
  p <- insertAtEnd_loop fuel p ;;
  set_next p ptr ;;;
  set_next ptr NULL ;;;
  ret head.

End LinkedInsert.

(** ** menu_DLL.c *)

Module DLL.

Definition create_dll (new : pointer) (item : Z) (start : pointer)
  : M dnode pointer :=
  malloc dblank new ;;;
  if ptr_eqb new NULL then
    printf "OVERFLOW" [] ;;; ret start
  else
    printf "enter item:" [] ;;;
    set_dinfo new item ;;;
    set_prev new NULL ;;;
    set_next new NULL ;;;
    if ptr_eqb start NULL then ret new else ret start.

Fixpoint traversal_loop (fuel : nat) (ptr : pointer) : M dnode unit :=
  match fuel with
  | O => out_of_fuel
  | S fuel =>
      if ptr_eqb ptr NULL then ret tt
      else
        v <- get_dinfo ptr ;;
        printf "%d\t" [v] ;;;
        ptr <- get_next ptr ;;
        traversal_loop fuel ptr
  end.



Definition insert_beg (new : pointer) (item : Z) (start : pointer)
  : M dnode pointer :=
  malloc dblank new ;;;
  if ptr_eqb new NULL then
    printf "OVERFLOW" [] ;;; ret start
  else
    printf "enter item to be inserted:" [] ;;;
    set_dinfo new item ;;;
    set_next new NULL ;;;
    set_prev new NULL ;;;
    if ptr_eqb start NULL then ret new
    else
      set_next new start ;;;
      set_prev start new ;;;
      ret new.

(** [while(ptr->next!=NULL){ ptr=ptr->next; i++; }] *)
Fixpoint last_loop (fuel : nat) (ptr : pointer) : M dnode pointer :=
  match fuel with
  | O => out_of_fuel
  | S fuel =>
      n <- get_next ptr ;;
      if ptr_eqb n NULL then ret ptr
      else last_loop fuel n
  end.

Definition insert_end (fuel : nat) (new : pointer) (item : Z)
  (start : pointer) : M dnode pointer :=
  let ptr := start in
  malloc dblank new ;;;
  if ptr_eqb new NULL then
    printf "OVERFLOW" [] ;;; ret start
  else
    printf "enter item to be insert:" [] ;;;
    set_dinfo new item ;;;
    set_prev new NULL ;;;
    set_next new NULL ;;;
    if ptr_eqb start NULL then ret new
    else
      let start := ptr in
      ptr <- last_loop fuel ptr ;;
      set_next ptr new ;;;
      set_prev new ptr ;;;
      ret start.

(** [while(i<loc && ptr!=NULL){ ptr=ptr1; ptr=ptr->next; i++; }], giving
    back [ptr].  [ptr1] is not assigned in the loop. *)
Fixpoint insert_LOC_loop (fuel : nat) (loc : Z) (ptr1 : pointer) (i : Z)
  (ptr : pointer) : M dnode pointer :=
  match fuel with
  | O => out_of_fuel
  | S fuel =>
      if bool_decide (i < loc)%Z && negb (ptr_eqb ptr NULL) then
        let ptr := ptr1 in
        ptr <- get_next ptr ;;
        insert_LOC_loop fuel loc ptr1 (i + 1)%Z ptr
      else ret ptr
  end.

(** [ptr] is declared without a value and first read by the loop test;
    [junk] is that value. *)
Definition insert_LOC (fuel : nat) (junk : pointer) (new : pointer)
  (item loc : Z) (start : pointer) : M dnode pointer :=
  let ptr := junk in
  let i := 1%Z in
  malloc dblank new ;;;
  if ptr_eqb new NULL then
    printf "OVERFLOW" [] ;;; ret start
  else
    printf "enter item and loc to be inserted..." [] ;;;
    set_dinfo new item ;;;
    set_next new NULL ;;;
    set_prev new NULL ;;;
    if ptr_eqb start NULL then ret new
    else
      let ptr1 := start in
      ptr <- insert_LOC_loop fuel loc ptr1 i ptr ;;
      if ptr_eqb ptr1 NULL then
        printf "location not found" [] ;;; ret start
      else if ptr_eqb ptr1 start then
        set_next new start ;;;
        set_prev start new ;;;
        ret new
      else
        set_next ptr new ;;;
        set_prev new ptr ;;;
        set_next new ptr1 ;;;
        set_prev ptr1 new ;;;
        ret start.

Definition delete_beg (start : pointer) : M dnode pointer :=
  if ptr_eqb start NULL then
    printf "UNDERFLOW" [] ;;; ret start
  else
    let ptr := start in
    v <- get_dinfo ptr ;;
    printf "Deleted item is %d" [v] ;;;
    start <- get_next start ;;
    set_prev start NULL ;;;
    free ptr ;;;
    ret start.

(** [while(ptr->next!=NULL){ prev=ptr; ptr=ptr->next; }], giving back
    [(ptr, prev)]. *)
Fixpoint end_loop (fuel : nat) (ptr prev : pointer)
  : M dnode (pointer * pointer) :=
  match fuel with
  | O => out_of_fuel
  | S fuel =>
      n <- get_next ptr ;;
      if ptr_eqb n NULL then ret (ptr, prev)
      else end_loop fuel n ptr
  end.

(** The local [prev] has no value before the loop; [junk] is what it holds
    when the loop body never runs. *)
Definition delete_end (fuel : nat) (junk : pointer) (start : pointer)
  : M dnode pointer :=
  let prev := junk in
  if ptr_eqb start NULL then
    printf "UNDERFLOW" [] ;;; ret start
  else
    let ptr := start in
    pp <- end_loop fuel ptr prev ;;
    let '(ptr, prev) := pp in
    v <- get_dinfo ptr ;;
    printf "deleted item is %d" [v] ;;;
    set_next prev NULL ;;;
    free ptr ;;;
    ret start.

End DLL.

(** ** csll.c *)

Module CSLL.

(** [scanf] runs before the test of [new]; the prompt is printed either
    way. *)
Definition create_csll (new : pointer) (item : Z) (start : pointer)
  : M snode pointer :=
  malloc sblank new ;;;
  printf "enter item to start ..." [] ;;;
  if ptr_eqb new NULL then
    printf "OVERFLOW" [] ;;; ret start
  else
    set_info new item ;;;
    set_link new start ;;;
    ret new.

(** [for(ptr=start;ptr->link!=start;ptr=ptr->link){ ptr->link=new;
    new->link=start; start=new; }], giving back [start]. *)
Fixpoint insert_beg_loop (fuel : nat) (new : pointer) (ptr start : pointer)
  : M snode pointer :=
  match fuel with
  | O => out_of_fuel
  | S fuel =>
      l <- get_link ptr ;;
      if ptr_eqb l start then ret start
      else
        set_link ptr new ;;;
        set_link new start ;;;
        let start := new in
        ptr <- get_link ptr ;;
        insert_beg_loop fuel new ptr start
  end.

Definition insert_beg (fuel : nat) (new : pointer) (item : Z)
  (start : pointer) : M snode pointer :=
  malloc sblank new ;;;
  if ptr_eqb new NULL then
    printf "OVERFLOW" [] ;;; ret start
  else
    printf "enter item to be inserted" [] ;;;
    set_info new item ;;;
    set_link new NULL ;;;
    if ptr_eqb start NULL then
      let start := new in
      set_link new start ;;;
      ret start
    else
      insert_beg_loop fuel new start start.

(** [while(ptr->link!=start){ ptr=ptr->link; }] *)
Fixpoint insert_end_loop (fuel : nat) (start : pointer) (ptr : pointer)
  : M snode pointer :=
  match fuel with
  | O => out_of_fuel
  | S fuel =>
      l <- get_link ptr ;;
      if ptr_eqb l start then ret ptr
      else insert_end_loop fuel start l
  end.

(** [ptr] is never assigned before the loop reads [ptr->link]; [junk] is
    its value. *)
Definition insert_end (fuel : nat) (junk : pointer) (new : pointer)
  (item : Z) (start : pointer) : M snode pointer :=
  let ptr := junk in
  malloc sblank new ;;;
  if ptr_eqb new NULL then
    printf "OVERFLOW" [] ;;; ret start
  else
    printf "enter item to be inserted" [] ;;;
    set_info new item ;;;
    set_link new NULL ;;;
    if ptr_eqb start NULL then
      let start := new in
      set_link new start ;;;
      ret start
    else
      ptr <- insert_end_loop fuel start ptr ;;
      set_link ptr new ;;;
      set_link new start ;;;
      ret start.

(** [while(ptr->link!=NULL){ ptr=ptr->link; }] *)
Fixpoint delete_beg_loop (fuel : nat) (ptr : pointer) : M snode pointer :=
  match fuel with
  | O => out_of_fuel
  | S fuel =>
      l <- get_link ptr ;;
      if ptr_eqb l NULL then ret ptr
      else delete_beg_loop fuel l
  end.

Definition delete_beg (fuel : nat) (start : pointer) : M snode pointer :=
  if ptr_eqb start NULL then
    printf "UNDERflow" [] ;;; ret start
  else
    let ptr := start in
    ptr <- delete_beg_loop fuel ptr ;;
    l <- get_link start ;;
    set_link ptr l ;;;
    let ptr := start in
    v <- get_info ptr ;;
    printf "deleted item is %d" [v] ;;;
    ret start.

(** [while(ptr->link!=start){ prev=ptr; ptr=ptr->link; }], giving back
    [(ptr, prev)]. *)
Fixpoint delete_end_loop (fuel : nat) (start : pointer) (ptr prev : pointer)
  : M snode (pointer * pointer) :=
  match fuel with
  | O => out_of_fuel
  | S fuel =>
      l <- get_link ptr ;;
      if ptr_eqb l start then ret (ptr, prev)
      else delete_end_loop fuel start l ptr
  end.

(** [prev] has no value before the loop; [junk] is what it holds when the
    loop body never runs. *)
Definition delete_end (fuel : nat) (junk : pointer) (start : pointer)
  : M snode pointer :=
  let prev := junk in
  if ptr_eqb start NULL then
    printf "UNDERFLOW" [] ;;; ret start
  else
    let ptr := start in
    pp <- delete_end_loop fuel start ptr prev ;;
    let '(ptr, prev) := pp in
    set_link prev start ;;;
    v <- get_info ptr ;;
    printf "deleted items are %d" [v] ;;;
    free ptr ;;;
    ret start.

(** [while(ptr!=start){ printf("%d\t",ptr->info); ptr=ptr->link; }] *)
Fixpoint traverse_loop (fuel : nat) (start : pointer) (ptr : pointer)
  : M snode unit :=
  match fuel with
  | O => out_of_fuel
  | S fuel =>
      if ptr_eqb ptr start then ret tt
      else
        v <- get_info ptr ;;
        printf "%d\t" [v] ;;;
        ptr <- get_link ptr ;;
        traverse_loop fuel start ptr
  end.

Definition traverse (fuel : nat) (start : pointer) : M snode unit :=
  let ptr := start in
  if ptr_eqb start NULL then
    printf "\nEmpty CSLL.\n" []
  else
    printf "\nContent of CSLL:\n" [] ;;;
    v <- get_info ptr ;;
    printf "%d\t" [v] ;;;
    ptr <- get_link ptr ;;
    traverse_loop fuel start ptr.

End CSLL.

(** ** CDLL.c *)

Module CDLL.

Definition create_cdll (new : pointer) (item : Z) (start : pointer)
  : M dnode pointer :=
  malloc dblank new ;;;
  if ptr_eqb new NULL then
    printf "OVERFLOW" [] ;;; ret start
  else
    printf "enter item to create the node .." [] ;;;
    set_dinfo new item ;;;
    let start := new in
    set_prev new start ;;;
    set_next new start ;;;
    ret start.

Fixpoint traverse_loop (fuel : nat) (start : pointer) (ptr : pointer)
  : M dnode unit :=
  match fuel with
  | O => out_of_fuel
  | S fuel =>
      if ptr_eqb ptr start then ret tt
      else
        v <- get_dinfo ptr ;;
        printf "%d\t" [v] ;;;
        ptr <- get_next ptr ;;
        traverse_loop fuel start ptr
  end.

Definition traverse (fuel : nat) (start : pointer) : M dnode unit :=
  if ptr_eqb start NULL then
    printf "OVERFLOW" []
  else
    let ptr := start in
    printf "CDLL contains ..." [] ;;;
    v <- get_dinfo ptr ;;
    printf "%d\t" [v] ;;;
    ptr <- get_next ptr ;;
    traverse_loop fuel start ptr.

Definition insert_beg (new : pointer) (item : Z) (start : pointer)
  : M dnode pointer :=
  malloc dblank new ;;;
  if ptr_eqb new NULL then
    printf "OVERFLOW" [] ;;; ret start
  else
    printf "enter item to be inserted" [] ;;;
    set_dinfo new item ;;;
    set_next new NULL ;;;
    set_prev new NULL ;;;
    if ptr_eqb start NULL then ret new
    else
      ptr <- get_prev start ;;
      set_next ptr new ;;;
      set_prev new ptr ;;;
      set_next new start ;;;
      set_prev start new ;;;
      ret new.

Definition insert_end (new : pointer) (item : Z) (start : pointer)
  : M dnode pointer :=
  malloc dblank new ;;;
  if ptr_eqb new NULL then
    printf "OVERFLOW" [] ;;; ret start
  else
    printf "enter item to be inserted" [] ;;;
    set_dinfo new item ;;;
    set_next new NULL ;;;
    set_prev new NULL ;;;
    if ptr_eqb start NULL then ret new
    else
      ptr <- get_prev start ;;
      set_next ptr new ;;;
      set_prev new ptr ;;;
      set_next new start ;;;
      set_prev start new ;;;
      ret start.

Definition delete_beg (start : pointer) : M dnode pointer :=
  if ptr_eqb start NULL then
    printf "UNDERFLOW" [] ;;; ret start
  else
    let ptr := start in
    v <- get_dinfo ptr ;;
    printf "deleted item is: %d" [v] ;;;
    start <- get_next ptr ;;
    pp <- get_prev ptr ;;
    pn <- get_next ptr ;;
    set_next pp pn ;;;
    pn <- get_next ptr ;;
    pp <- get_prev ptr ;;
    set_prev pn pp ;;;
    free ptr ;;;
    ret start.

Definition delete_end (start : pointer) : M dnode pointer :=
  if ptr_eqb start NULL then
    printf "OVERFLOW" [] ;;; ret start
  else
    ptr <- get_prev start ;;
    v <- get_dinfo ptr ;;
    printf "deleted item is:%d" [v] ;;;
    pp <- get_prev ptr ;;
    set_next pp start ;;;
    pp <- get_prev ptr ;;
    set_prev start pp ;;;
    free ptr ;;;
    ret start.

End CDLL.

(** * Shapes of the linked structures

    The predicates below describe what a heap holds; they are what the
    properties of the operations are stated with. *)

(** A cell of a singly linked structure: the address of a node and its
    payload. *)
Definition addrs (cells : list (nat * Z)) : list nat := cells.*1.
Definition values (cells : list (nat * Z)) : list Z := cells.*2.

(** [chain h p cells q]: starting at [p] and following [link], the heap [h]
    holds the nodes [cells] in this order, and the last of them links to
    [q]. *)
Fixpoint chain (h : gmap nat snode) (p : pointer) (cells : list (nat * Z))
  (q : pointer) : Prop :=
  match cells with
  | [] => p = q
  | (a, v) :: rest =>
      p = Some a ∧
      match h !! a with
      | Some n => info n = v ∧ chain h (link n) rest q
      | None => False
      end
  end.

(** A linear list: the chain from the entry reference ends at [NULL]. *)
Definition is_list (h : gmap nat snode) (p : pointer) (cells : list (nat * Z))
  : Prop :=
  chain h p cells NULL.

(** A ring: a non-empty chain of distinct nodes from [start] back to
    [start]. *)
Definition is_ring (h : gmap nat snode) (start : pointer)
  (cells : list (nat * Z)) : Prop :=
  cells ≠ [] ∧ NoDup (addrs cells) ∧ chain h start cells start.

(** Following [link] ([next] for the doubly linked nodes) [n] times from
    [p]; a step from [NULL] or from an address that is not allocated has no
    result. *)
Fixpoint follow (h : gmap nat snode) (n : nat) (p : pointer)
  : option pointer :=
  match n with
  | O => Some p
  | S n =>
      match p with
      | Some a =>
          match h !! a with
          | Some nd => follow h n (link nd)
          | None => None
          end
      | None => None
      end
  end.

Fixpoint dfollow (h : gmap nat dnode) (n : nat) (p : pointer)
  : option pointer :=
  match n with
  | O => Some p
  | S n =>
      match p with
      | Some a =>
          match h !! a with
          | Some nd => dfollow h n (next nd)
          | None => None
          end
      | None => None
      end
  end.

(** The ring invariant of the circular containers: [size] steps from [head]
    lead back to [head]. *)
Definition ring_invariant (h : gmap nat snode) (head : pointer) (size : nat)
  : Prop :=
  follow h size head = Some head.

Definition dring_invariant (h : gmap nat dnode) (head : pointer) (size : nat)
  : Prop :=
  dfollow h size head = Some head.

(** A one-node self-ring of the circular doubly linked list: the node at
    [head] has [next] and [prev] equal to [head]. *)
Definition self_ring (h : gmap nat dnode) (head : pointer) : Prop :=
  match head with
  | Some a =>
      match h !! a with
      | Some nd => next nd = head ∧ prev nd = head
      | None => False
      end
  | None => False
  end.

(** A linear doubly linked list: the nodes [cells] in [next] order from
    [p], each with [prev] the node before it ([before] for the first). *)
Fixpoint dchain (h : gmap nat dnode) (before p : pointer)
  (cells : list (nat * Z)) : Prop :=
  match cells with
  | [] => p = NULL
  | (a, v) :: rest =>
      p = Some a ∧
      match h !! a with
      | Some n => dinfo n = v ∧ prev n = before ∧ dchain h p (next n) rest
      | None => False
      end
  end.

Definition is_dlist (h : gmap nat dnode) (start : pointer)
  (cells : list (nat * Z)) : Prop :=
  dchain h NULL start cells.

(** The queue: a linear list from [front] whose last node is [rear]; both
    are [NULL] when there is no node. *)
Definition is_queue (h : gmap nat snode) (fr : pointer * pointer)
  (cells : list (nat * Z)) : Prop :=
  is_list h fr.1 cells ∧ fr.2 = last (addrs cells).

(** The bracket invariant of the queue, for a queue of [n] elements:
    [front] and [rear] are the same node iff [n = 1], and both are [NULL]
    iff [n = 0]. *)
Definition bracket (fr : pointer * pointer) (n : nat) : Prop :=
  (fr.1 = fr.2 ∧ fr.1 ≠ NULL ↔ n = 1) ∧ (fr.1 = NULL ∧ fr.2 = NULL ↔ n = 0).

(** The cells left when the first one holding [value] is taken out. *)
Fixpoint drop_first (value : Z) (cells : list (nat * Z)) : list (nat * Z) :=
  match cells with
  | [] => []
  | (a, v) :: rest =>
      if bool_decide (v = value) then rest
      else (a, v) :: drop_first value rest
  end.

(** The heap after the link reversal of [cells]: the first cell links to
    [prev], every later one to the cell before it. *)
Fixpoint relink (prev : pointer) (cells : list (nat * Z))
  (h : gmap nat snode) : gmap nat snode :=
  match cells with
  | [] => h
  | (a, v) :: rest => relink (Some a) rest (<[a := SNode v prev]> h)
  end.

(** What a traversal prints for the payloads [vs]. *)
Definition printed (vs : list Z) : list event :=
  (λ v, Printf "%d\t" [v]) <$> vs.

(** The node a walk over [cells] ends at: the last cell, or [prev] when
    there is none. *)
Definition end_ptr (prev : pointer) (cells : list (nat * Z)) : pointer :=
  match last (addrs cells) with
  | Some a => Some a
  | None => prev
  end.

(** What [deleteAtvalue] of [linked_delete.c] does once [p] and [q] are set
    up: the walk and the unlinking of [q]. *)
Definition deleteAtvalue_from (fuel : nat) (value : Z) (p q : pointer)
  : M snode unit :=
  pq <- LinkedDelete.deleteAtvalue_loop fuel value p q ;;
  let '(p, q) := pq in
  d <- LinkedDelete.get_data q ;;
  if bool_decide (d = value) then
    qn <- LinkedDelete.get_next q ;;
    LinkedDelete.set_next p qn ;;;
    free q
  else ret tt.

(** One pass of the inner loop of [sorting_sll] over payloads: [x] is the
    payload held at [ptr1], [ys] those from [ptr2] on; the result is the
    payload left at [ptr1] and those left in the nodes walked. *)
Fixpoint sift (x : Z) (ys : list Z) : Z * list Z :=
  match ys with
  | [] => (x, [])
  | y :: ys =>
      if bool_decide (x > y)%Z then
        let '(m, ys') := sift y ys in (m, x :: ys')
      else
        let '(m, ys') := sift x ys in (m, y :: ys')
  end.

(** A segment of a doubly linked structure: the nodes [cells] in [next]
    order from [p], the first with [prev] equal to [before], every later
    one with [prev] the node before it, and the last with [next] equal to
    [q]. *)
Fixpoint dseg (h : gmap nat dnode) (before p : pointer)
  (cells : list (nat * Z)) (q : pointer) : Prop :=
  match cells with
  | [] => p = q
  | (a, v) :: rest =>
      p = Some a ∧
      match h !! a with
      | Some n => dinfo n = v ∧ prev n = before ∧ dseg h p (next n) rest q
      | None => False
      end
  end.

(** A ring of doubly linked nodes: a non-empty segment of distinct nodes
    from [start] whose last node links on to [start] and whose first node
    links back to the last. *)
Definition is_dring (h : gmap nat dnode) (start : pointer)
  (cells : list (nat * Z)) : Prop :=
  cells ≠ [] ∧ NoDup (addrs cells) ∧
  dseg h (last (addrs cells)) start cells start.

(** * Example worlds *)

(** A two-node list, [10] then [20], at the addresses 1 and 2. *)
Definition two_nodes : world snode :=
  World (<[1 := SNode 10 (Some 2)]> (<[2 := SNode 20 NULL]> ∅)) [].

(** A queue of one element, [5], at address 1. *)
Definition one_in_queue : world snode :=
  World (<[1 := SNode 5 NULL]> ∅) [].

(** A ring of one node, [5], at address 1; a ring of two nodes, [1] then
    [2], at the addresses 1 and 2; and the node [create_csll] leaves when
    [main] calls it, whose [link] is [NULL]. *)
Definition ring_of_1 : world snode :=
  World (<[1 := SNode 5 (Some 1)]> ∅) [].

Definition ring_of_2 : world snode :=
  World (<[1 := SNode 1 (Some 2)]> (<[2 := SNode 2 (Some 1)]> ∅)) [].

Definition created_csll : world snode :=
  World (<[1 := SNode 5 NULL]> ∅) [].

(** The doubly linked list [10, 20, 30] at the addresses 1, 2 and 3. *)
Definition dll_of_3 : world dnode :=
  World (<[1 := DNode 10 NULL (Some 2)]>
           (<[2 := DNode 20 (Some 1) (Some 3)]>
              (<[3 := DNode 30 (Some 2) NULL]> ∅))) [].

(** A list of one node, [5], at address 1. *)
Definition one_node : world snode :=
  World (<[1 := SNode 5 NULL]> ∅) [].

(** The circular doubly linked list [10, 20] at the addresses 1 and 2. *)
Definition cdll_of_2 : world dnode :=
  World (<[1 := DNode 10 (Some 2) (Some 2)]>
           (<[2 := DNode 20 (Some 1) (Some 1)]> ∅)) [].

(** * Properties *)

(** ** Running the memory monad *)

Section MemoryFacts.
Context {node : Type}.

Lemma bind_Done {A B} (m : M node A) (k : A → M node B) w a w' :
  m w = Done (a, w') → bind m k w = k a w'.
Proof. unfold bind. by intros ->. Qed.

End MemoryFacts.

Lemma ptr_eqb_refl p : ptr_eqb p p = true.
Proof. unfold ptr_eqb. by rewrite bool_decide_eq_true. Qed.

Lemma ptr_eqb_Some_NULL a : ptr_eqb (Some a) NULL = false.
Proof. done. Qed.

Lemma ptr_eqb_ne p q : p ≠ q → ptr_eqb p q = false.
Proof. unfold ptr_eqb. by rewrite bool_decide_eq_false. Qed.

(** ** Chains *)

Section Chains.
Implicit Types (h : gmap nat snode) (p q : pointer)
  (cells : list (nat * Z)).

Lemma chain_cons h p a v rest q :
  chain h p ((a, v) :: rest) q ↔
  p = Some a ∧ ∃ nx, h !! a = Some (SNode v nx) ∧ chain h nx rest q.
Proof.
  simpl. split.
  - intros [-> H]. split; [done|].
    destruct (h !! a) as [[i l]|]; [|done].
    destruct H as [<- H]. by exists l.
  - intros [-> (nx & -> & H)]. done.
Qed.

Lemma chain_app h p l1 l2 q :
  chain h p (l1 ++ l2) q ↔ ∃ m, chain h p l1 m ∧ chain h m l2 q.
Proof.
  revert p. induction l1 as [|[a v] l1 IH]; intros p.
  - simpl. split; [intros H; by exists p|by intros (m & -> & H)].
  - rewrite <- app_comm_cons, chain_cons. split.
    + intros [-> (nx & Ha & H)]. apply IH in H as (m & H1 & H2).
      exists m. rewrite chain_cons. eauto.
    + intros (m & H1 & H2). apply chain_cons in H1 as [-> (nx & Ha & H1)].
      split; [done|]. exists nx. split; [done|]. apply IH. eauto.
Qed.

(** A chain only depends on the nodes it goes through. *)
Lemma chain_frame h h' p cells q :
  (∀ a, a ∈ addrs cells → h' !! a = h !! a) →
  chain h p cells q → chain h' p cells q.
Proof.
  revert p. induction cells as [|[a v] rest IH]; intros p Hsame; [done|].
  rewrite !chain_cons. intros [-> (nx & Ha & H)]. split; [done|].
  exists nx. split.
  - rewrite Hsame; [done|]. unfold addrs. rewrite fmap_cons.
    apply list_elem_of_here.
  - apply IH; [|done]. intros b Hb. apply Hsame. unfold addrs in *.
    rewrite fmap_cons. by apply list_elem_of_further.
Qed.

(** The heap determines the list that hangs off a reference. *)
Lemma is_list_functional h p l1 l2 :
  is_list h p l1 → is_list h p l2 → l1 = l2.
Proof.
  unfold is_list. revert p l2.
  induction l1 as [|[a v] l1 IH]; intros p [|[b u] l2].
  - done.
  - simpl. by intros -> [? _].
  - simpl. by intros [-> _] ?.
  - rewrite !chain_cons.
    intros [-> (nx & Ha & H1)] [[= <-] (nx' & Hb & H2)].
    rewrite Ha in Hb. injection Hb as <- <-.
    f_equal. by eapply IH.
Qed.

(** No node is visited twice on the way to [NULL]. *)
Lemma is_list_NoDup h p cells : is_list h p cells → NoDup (addrs cells).
Proof.
  unfold is_list. revert p.
  induction cells as [|[a v] rest IH]; intros p H; [constructor|].
  pose proof H as Hfull.
  apply chain_cons in H as [-> (nx & Ha & H)].
  unfold addrs. rewrite fmap_cons. apply NoDup_cons. split; [|by eapply IH].
  intros Hin. apply list_elem_of_fmap in Hin as ([a' v'] & Heq & Hin).
  simpl in Heq. subst a'.
  apply list_elem_of_split in Hin as (l1 & l2 & ->).
  apply chain_app in H as (m & H1 & H2).
  pose proof H2 as H2'. apply chain_cons in H2' as [-> _].
  pose proof (is_list_functional _ _ _ _ Hfull H2) as Heq.
  apply (f_equal length) in Heq. simpl in Heq.
  rewrite length_app in Heq. simpl in Heq. lia.
Qed.

Lemma is_list_NULL h cells : is_list h NULL cells → cells = [].
Proof. destruct cells as [|[a v] rest]; [done|]. by intros [? _]. Qed.

End Chains.

(** ** menu_linked.c: reversal *)

(** Unfold the monad far enough to show the next heap access. *)
Ltac run_step :=
  repeat (progress
    (unfold LinkedDelete.get_data, LinkedDelete.get_next,
       LinkedDelete.set_next,
       bind, ret, get_info, get_link, set_info, set_link,
       get_dinfo, get_prev, get_next, set_dinfo, set_prev, set_next,
       load, update, free, printf, malloc;
     rewrite ?ptr_eqb_Some_NULL, ?ptr_eqb_refl;
     cbn beta iota delta [heap console info link dinfo prev next andb negb])).

(** The same, reading the nodes from the lookup equation [H]. *)
Ltac run_using H := run_step; repeat (rewrite H; run_step).

Section Reversal.
Implicit Types (h : gmap nat snode) (p q prev : pointer)
  (cells : list (nat * Z)).

Lemma end_ptr_cons prev a v rest :
  end_ptr prev ((a, v) :: rest) = end_ptr (Some a) rest.
Proof.
  unfold end_ptr, addrs. rewrite fmap_cons. simpl.
  destruct (rest.*1) as [|b l] eqn:E; [done|].
  rewrite last_cons. by destruct (last (b :: l)).
Qed.

Lemma end_ptr_snoc prev cells a v :
  end_ptr prev (cells ++ [(a, v)]) = Some a.
Proof.
  unfold end_ptr, addrs. rewrite fmap_app. simpl. by rewrite last_snoc.
Qed.

(** The node a chain starts at is the one its reversal ends at. *)
Lemma end_ptr_reverse h p cells q :
  chain h p cells q → end_ptr q (reverse cells) = p.
Proof.
  destruct cells as [|[a v] rest]; simpl.
  - by intros ->.
  - intros [-> _]. by rewrite reverse_cons, end_ptr_snoc.
Qed.

Lemma relink_lookup_notin prev cells h a :
  a ∉ addrs cells → relink prev cells h !! a = h !! a.
Proof.
  revert prev h. induction cells as [|[b v] rest IH]; intros prev h Ha.
  - done.
  - unfold addrs in Ha. rewrite fmap_cons, not_elem_of_cons in Ha.
    destruct Ha as [Hne Ha]. simpl in Hne. simpl.
    rewrite IH by done. by rewrite lookup_insert_ne.
Qed.

Lemma relink_insert_in prev cells h a x :
  a ∈ addrs cells → relink prev cells (<[a := x]> h) = relink prev cells h.
Proof.
  revert prev h. induction cells as [|[b v] rest IH]; intros prev h Ha.
  - by apply elem_of_nil in Ha.
  - simpl. destruct (decide (a = b)) as [->|Hne].
    + by rewrite insert_insert_eq.
    + rewrite insert_insert_ne by done. apply IH.
      unfold addrs in Ha. rewrite fmap_cons, elem_of_cons in Ha.
      by destruct Ha as [?|?].
Qed.

Lemma relink_app prev l1 l2 h :
  relink prev (l1 ++ l2) h = relink (end_ptr prev l1) l2 (relink prev l1 h).
Proof.
  revert prev h. induction l1 as [|[a v] l1 IH]; intros prev h; [done|].
  simpl. by rewrite IH, end_ptr_cons.
Qed.

(** A second relinking overwrites the first on the same nodes. *)
Lemma relink_relink p q l1 l2 h :
  addrs l1 ⊆ addrs l2 → relink q l2 (relink p l1 h) = relink q l2 h.
Proof.
  revert p h. induction l1 as [|[a v] l1 IH]; intros p h Hsub; [done|].
  unfold addrs in Hsub. rewrite fmap_cons in Hsub. simpl.
  rewrite IH.
  - apply relink_insert_in, Hsub, list_elem_of_here.
  - intros x Hx. by apply Hsub, list_elem_of_further.
Qed.

(** Relinking a chain backwards, towards where it already points, changes
    nothing. *)
Lemma relink_reverse_id h p cells q :
  chain h p cells q → relink q (reverse cells) h = h.
Proof.
  revert p. induction cells as [|[a v] rest IH]; intros p; [done|].
  rewrite chain_cons. intros [-> (nx & Ha & H)].
  rewrite reverse_cons, relink_app. simpl.
  rewrite (IH _ H), (end_ptr_reverse _ _ _ _ H).
  by apply insert_id.
Qed.

Lemma relink_chain prev cells h :
  NoDup (addrs cells) →
  chain (relink prev cells h) (end_ptr prev cells) (reverse cells) prev.
Proof.
  revert prev h. induction cells as [|[a v] rest IH]; intros prev h Hnd.
  - done.
  - unfold addrs in Hnd. rewrite fmap_cons in Hnd.
    apply NoDup_cons in Hnd as [Ha Hnd]. simpl in Ha.
    rewrite reverse_cons, end_ptr_cons. simpl. apply chain_app.
    exists (Some a). split; [by apply IH|].
    apply chain_cons. split; [done|]. exists prev. split; [|done].
    rewrite relink_lookup_notin by done. apply lookup_insert_eq.
Qed.

Lemma reversal_loop_spec cells h c ptr prev fuel :
  is_list h ptr cells → length cells < fuel →
  SLL.reversal_loop fuel ptr prev (World h c)
  = Done (end_ptr prev cells, World (relink prev cells h) c).
Proof.
  revert h ptr prev fuel.
  induction cells as [|[a v] rest IH]; intros h ptr prev fuel Hl Hfuel.
  - destruct fuel as [|fuel]; [simpl in Hfuel; lia|].
    unfold is_list in Hl. simpl in Hl. subst ptr. done.
  - destruct fuel as [|fuel]; [simpl in Hfuel; lia|].
    pose proof (is_list_NoDup _ _ _ Hl) as Hnd.
    unfold addrs in Hnd. rewrite fmap_cons in Hnd.
    apply NoDup_cons in Hnd as [Ha Hnd]. simpl in Ha.
    apply chain_cons in Hl as [-> (nx & Hlk & Hl)].
    simpl. run_using Hlk.
    rewrite end_ptr_cons. apply IH; [|simpl in Hfuel; lia].
    eapply chain_frame; [|exact Hl].
    intros b Hb. apply lookup_insert_ne. intros ->. done.
Qed.

End Reversal.

Section Traversal.
Implicit Types (h : gmap nat snode) (cells : list (nat * Z)).

Lemma traversal_loop_spec cells h c ptr fuel :
  is_list h ptr cells → length cells < fuel →
  SLL.traversal_loop fuel ptr (World h c)
  = Done (tt, World h (c ++ printed (values cells))).
Proof.
  revert c ptr fuel.
  induction cells as [|[a v] rest IH]; intros c ptr fuel Hl Hfuel;
    (destruct fuel as [|fuel]; [simpl in Hfuel; lia|]).
  - unfold is_list in Hl. simpl in Hl. subst ptr. simpl.
    by rewrite app_nil_r.
  - apply chain_cons in Hl as [-> (nx & Hlk & Hl)].
    simpl. run_using Hlk.
    rewrite (IH _ _ _ Hl) by (simpl in Hfuel; lia).
    by rewrite <- app_assoc.
Qed.

Lemma traversal_spec cells h c start fuel :
  is_list h start cells → length cells < fuel →
  SLL.traversal fuel start (World h c)
  = Done (tt, World h (c ++ Printf "\nContent of the SLL:\n" []
                         :: printed (values cells))).
Proof.
  intros Hl Hfuel. unfold SLL.traversal. run_step.
  rewrite (traversal_loop_spec _ _ _ _ _ Hl Hfuel).
  by rewrite <- app_assoc.
Qed.

End Traversal.

(** C7.  In-place reversal of the singly linked list of [menu_linked.c] is
    an involution.  For a list [cells] hanging off [start], [reversal]
    finishes as soon as the fuel exceeds the length; the result is a list of
    the same nodes with the payloads in reversed order, which is also what
    [traversal] then prints; and a second [reversal] gives back the entry
    reference and the very world, link by link, it started from.  The
    statement covers the empty list as well as the non-empty ones. *)
Theorem reversal_involution (w : world snode) (start : pointer)
  (cells : list (nat * Z)) (fuel : nat) :
  is_list (heap w) start cells →
  length cells < fuel →
  ∃ start' w',
    SLL.reversal fuel start w = Done (start', w') ∧
    is_list (heap w') start' (reverse cells) ∧
    values (reverse cells) = reverse (values cells) ∧
    SLL.traversal fuel start' w'
    = Done (tt, World (heap w')
                  (console w' ++ Printf "\nContent of the SLL:\n" []
                     :: printed (reverse (values cells)))) ∧
    SLL.reversal fuel start' w' = Done (start, w).
Proof.
  destruct w as [h c]. simpl. intros Hl Hfuel.
  pose proof (is_list_NoDup _ _ _ Hl) as Hnd.
  assert (Hrev : is_list (relink NULL cells h) (end_ptr NULL cells)
                   (reverse cells)) by by apply relink_chain.
  assert (Hvals : values (reverse cells) = reverse (values cells))
    by (unfold values; by rewrite fmap_reverse).
  exists (end_ptr NULL cells), (World (relink NULL cells h) c).
  split; [|split; [done|split; [done|split]]].
  - unfold SLL.reversal. run_step.
    by rewrite (reversal_loop_spec _ _ _ _ _ _ Hl Hfuel).
  - simpl. rewrite <- Hvals. apply traversal_spec; [done|].
    by rewrite length_reverse.
  - unfold SLL.reversal. run_step.
    rewrite (reversal_loop_spec _ _ _ _ _ _ Hrev)
      by by rewrite length_reverse.
    rewrite relink_relink.
    + by rewrite (relink_reverse_id _ _ _ _ Hl), (end_ptr_reverse _ _ _ _ Hl).
    + unfold addrs. rewrite fmap_reverse. intros x Hx.
      by apply elem_of_reverse.
Qed.

Lemma reversal_involution_witness :
  ∃ start' w',
    SLL.reversal 3 (Some 1) two_nodes = Done (start', w') ∧
    is_list (heap w') start' (reverse [(1, 10%Z); (2, 20%Z)]) ∧
    values (reverse [(1, 10%Z); (2, 20%Z)])
    = reverse (values [(1, 10%Z); (2, 20%Z)]) ∧
    SLL.traversal 3 start' w'
    = Done (tt, World (heap w')
                  (console w' ++ Printf "\nContent of the SLL:\n" []
                     :: printed (reverse (values [(1, 10%Z); (2, 20%Z)])))) ∧
    SLL.reversal 3 start' w' = Done (Some 1, two_nodes).
Proof.
  apply (reversal_involution two_nodes (Some 1) [(1, 10%Z); (2, 20%Z)] 3).
  - vm_compute. tauto.
  - simpl. lia.
Defined.

(** ** linked_stack_menu.c: push and pop *)

Section StackFacts.
Implicit Types (h : gmap nat snode) (c : list event) (top : pointer).

Lemma push_spec h c a item top :
  Stack.push (Some a) item top (World h c)
  = Done (Some a,
          World (<[a := SNode item top]> h)
            (c ++ [Printf "enter item to be inserted" []])).
Proof.
  unfold Stack.push. run_step. rewrite !lookup_insert_eq. run_step.
  rewrite lookup_insert_eq. run_step. rewrite !insert_insert_eq.
  destruct top as [t|]; simpl; [|done].
  run_step. rewrite lookup_insert_eq. run_step.
  by rewrite insert_insert_eq.
Qed.

Lemma push_overflow h c item top :
  Stack.push NULL item top (World h c)
  = Done (top, World h (c ++ [Printf "OVERFLOW" []])).
Proof. done. Qed.

Lemma pop_spec h c a v nx :
  h !! a = Some (SNode v nx) →
  Stack.pop (Some a) (World h c)
  = Done (nx, World (delete a h)
                (c ++ [Printf "deleted item is:%d\n" [v]])).
Proof. intros Ha. unfold Stack.pop. simpl. by run_using Ha. Qed.

Lemma pop_underflow h c :
  Stack.pop NULL (World h c)
  = Done (NULL, World h (c ++ [Printf "UNDERFLOW" []])).
Proof. done. Qed.

End StackFacts.

(** C8.  The stack of [linked_stack_menu.c] is last in, first out.  From the
    empty stack ([top] is [NULL]), whatever else the heap holds, pushing 1,
    2 and 3 into three blocks the allocator had free and popping three times
    prints the deleted items 3, 2, 1 in this order and ends with [top]
    [NULL] and the heap as it was at the start; a fourth [pop] prints
    [UNDERFLOW] and changes neither [top] nor the heap. *)
Theorem stack_lifo_123 (w : world snode) (a1 a2 a3 : nat) :
  heap w !! a1 = None → heap w !! a2 = None → heap w !! a3 = None →
  a1 ≠ a2 → a1 ≠ a3 → a2 ≠ a3 →
  let prompt := Printf "enter item to be inserted" [] in
  let w' := World (heap w)
              (console w ++ [prompt; prompt; prompt;
                             Printf "deleted item is:%d\n" [3%Z];
                             Printf "deleted item is:%d\n" [2%Z];
                             Printf "deleted item is:%d\n" [1%Z]]) in
  (top <- Stack.push (Some a1) 1 NULL ;;
   top <- Stack.push (Some a2) 2 top ;;
   top <- Stack.push (Some a3) 3 top ;;
   top <- Stack.pop top ;;
   top <- Stack.pop top ;;
   Stack.pop top) w = Done (NULL, w') ∧
  Stack.pop NULL w'
  = Done (NULL, World (heap w') (console w' ++ [Printf "UNDERFLOW" []])).
Proof.
  destruct w as [h c]. simpl.
  intros H1 H2 H3 H12 H13 H23. split; [|apply pop_underflow].
  rewrite (bind_Done _ _ _ _ _ (push_spec _ _ _ _ _)).
  rewrite (bind_Done _ _ _ _ _ (push_spec _ _ _ _ _)).
  rewrite (bind_Done _ _ _ _ _ (push_spec _ _ _ _ _)).
  set (h3 := <[a3 := SNode 3 (Some a2)]>
              (<[a2 := SNode 2 (Some a1)]>
                 (<[a1 := SNode 1 NULL]> h))).
  assert (L3 : h3 !! a3 = Some (SNode 3 (Some a2)))
    by apply lookup_insert_eq.
  assert (L2 : delete a3 h3 !! a2 = Some (SNode 2 (Some a1))).
  { unfold h3. rewrite lookup_delete_ne, lookup_insert_ne by done.
    apply lookup_insert_eq. }
  assert (L1 : delete a2 (delete a3 h3) !! a1 = Some (SNode 1 NULL)).
  { unfold h3. rewrite !lookup_delete_ne, !lookup_insert_ne by done.
    apply lookup_insert_eq. }
  rewrite (bind_Done _ _ _ _ _ (pop_spec _ _ _ _ _ L3)).
  rewrite (bind_Done _ _ _ _ _ (pop_spec _ _ _ _ _ L2)).
  rewrite (pop_spec _ _ _ _ _ L1).
  f_equal. f_equal. f_equal.
  - apply map_eq. intros i.
    destruct (decide (i = a1)) as [->|?]; [by rewrite lookup_delete_eq|].
    rewrite lookup_delete_ne by done.
    destruct (decide (i = a2)) as [->|?]; [by rewrite lookup_delete_eq|].
    rewrite lookup_delete_ne by done.
    destruct (decide (i = a3)) as [->|?]; [by rewrite lookup_delete_eq|].
    rewrite lookup_delete_ne by done.
    unfold h3. by rewrite !lookup_insert_ne.
  - by rewrite <- !app_assoc.
Qed.

Lemma stack_lifo_123_witness :
  let w : world snode := World ∅ [] in
  let prompt := Printf "enter item to be inserted" [] in
  let w' := World (heap w)
              (console w ++ [prompt; prompt; prompt;
                             Printf "deleted item is:%d\n" [3%Z];
                             Printf "deleted item is:%d\n" [2%Z];
                             Printf "deleted item is:%d\n" [1%Z]]) in
  (top <- Stack.push (Some 1) 1 NULL ;;
   top <- Stack.push (Some 2) 2 top ;;
   top <- Stack.push (Some 3) 3 top ;;
   top <- Stack.pop top ;;
   top <- Stack.pop top ;;
   Stack.pop top) w = Done (NULL, w') ∧
  Stack.pop NULL w'
  = Done (NULL, World (heap w') (console w' ++ [Printf "UNDERFLOW" []])).
Proof.
  apply (stack_lifo_123 (World ∅ []) 1 2 3);
    first [reflexivity | lia].
Defined.

(** ** linked_delete.c: deleteAtvalue *)

Section DeleteAtValue.
Implicit Types (h : gmap nat snode) (c : list event)
  (cells rest : list (nat * Z)).

Lemma drop_first_absent value cells :
  value ∉ values cells → drop_first value cells = cells.
Proof.
  induction cells as [|[a v] rest IH]; [done|].
  unfold values. rewrite fmap_cons, not_elem_of_cons. simpl.
  intros [Hne Hrest]. rewrite bool_decide_eq_false_2 by done.
  f_equal. by apply IH.
Qed.

Lemma drop_first_present value cells :
  value ∈ values cells → S (length (drop_first value cells)) = length cells.
Proof.
  induction cells as [|[a v] rest IH].
  - intros H. by apply elem_of_nil in H.
  - unfold values. rewrite fmap_cons, elem_of_cons. simpl. intros H.
    case_bool_decide as Hv; [done|]. simpl. f_equal. apply IH.
    destruct H as [->|H]; done.
Qed.

Lemma deleteAtvalue_from_spec value rest :
  ∀ h c ap vp aq vq fuel,
    is_list h (Some ap) ((ap, vp) :: (aq, vq) :: rest) →
    length rest < fuel →
    ∃ h',
      deleteAtvalue_from fuel value (Some ap) (Some aq) (World h c)
      = Done (tt, World h' c) ∧
      is_list h' (Some ap) ((ap, vp) :: drop_first value ((aq, vq) :: rest)) ∧
      (∀ x, x ∉ addrs ((ap, vp) :: (aq, vq) :: rest) → h' !! x = h !! x) ∧
      (value ∉ values ((aq, vq) :: rest) → h' = h).
Proof.
  induction rest as [|[ar vr] rest IH];
    intros h c ap vp aq vq fuel Hl Hfuel;
    (destruct fuel as [|fuel]; [simpl in Hfuel; lia|]);
    pose proof (is_list_NoDup _ _ _ Hl) as Hnd;
    pose proof Hl as Hl0;
    apply chain_cons in Hl as [_ (nxp & Hp & Hl)];
    pose proof Hl as Hlq;
    apply chain_cons in Hl as [-> (nxq & Hq & Hl)];
    unfold addrs in Hnd; rewrite !fmap_cons in Hnd; simpl in Hnd;
    apply NoDup_cons in Hnd as [Hap Hnd];
    apply NoDup_cons in Hnd as [Haq Hnd];
    apply not_elem_of_cons in Hap as [Hpq Hap].
  - (* [q] is the last node *)
    simpl in Hl. subst nxq.
    destruct (decide (vq = value)) as [->|Hv].
    + exists (delete aq (<[ap := SNode vp NULL]> h)). split; [|split; [|split]].
      * unfold deleteAtvalue_from. simpl.
        run_using Hq. rewrite bool_decide_eq_true_2 by done.
        run_using Hq. rewrite bool_decide_eq_true_2 by done.
        run_using Hq. rewrite Hp. run_step.
        rewrite lookup_insert_ne by done. by run_using Hq.
      * simpl. rewrite bool_decide_eq_true_2 by done.
        apply chain_cons. split; [done|]. exists NULL. split; [|done].
        rewrite lookup_delete_ne by done. apply lookup_insert_eq.
      * intros x Hx. unfold addrs in Hx. rewrite !fmap_cons in Hx.
        apply not_elem_of_cons in Hx as [Hx1 Hx].
        apply not_elem_of_cons in Hx as [Hx2 _]. simpl in *.
        by rewrite lookup_delete_ne, lookup_insert_ne.
      * intros Hv. exfalso. apply Hv. unfold values. rewrite fmap_cons.
        apply list_elem_of_here.
    + exists h. split; [|split; [|split]]; [|idtac|done|done].
      * unfold deleteAtvalue_from. simpl.
        run_using Hq. rewrite bool_decide_eq_false_2 by done.
        run_using Hq. by rewrite bool_decide_eq_false_2 by done.
      * simpl drop_first. by rewrite bool_decide_eq_false_2 by done.
  - (* [q] has a successor *)
    pose proof Hl as Hlr.
    apply chain_cons in Hl as [-> (nxr & Hr & Hl)].
    apply not_elem_of_cons in Hap as [Hpr Hap].
    apply not_elem_of_cons in Haq as [Hqr Haq].
    destruct (decide (vq = value)) as [->|Hv].
    + exists (delete aq (<[ap := SNode vp (Some ar)]> h)).
      split; [|split; [|split]].
      * unfold deleteAtvalue_from. simpl.
        run_using Hq. rewrite bool_decide_eq_true_2 by done.
        run_using Hq. rewrite bool_decide_eq_true_2 by done.
        run_using Hq. rewrite Hp. run_step.
        rewrite lookup_insert_ne by done. by run_using Hq.
      * simpl drop_first. rewrite bool_decide_eq_true_2 by done.
        apply chain_cons. split; [done|]. exists (Some ar). split.
        -- rewrite lookup_delete_ne by done. apply lookup_insert_eq.
        -- eapply chain_frame; [|exact Hlr]. intros x Hx.
           assert (x ≠ ap ∧ x ≠ aq) as [? ?].
           { unfold addrs in Hx. rewrite fmap_cons in Hx. simpl in Hx.
             apply elem_of_cons in Hx as [->|Hx]; [done|].
             split; intros ->; done. }
           by rewrite lookup_delete_ne, lookup_insert_ne.
      * intros x Hx. unfold addrs in Hx. rewrite !fmap_cons in Hx.
        apply not_elem_of_cons in Hx as [Hx1 Hx].
        apply not_elem_of_cons in Hx as [Hx2 _]. simpl in *.
        by rewrite lookup_delete_ne, lookup_insert_ne.
      * intros Hv. exfalso. apply Hv. unfold values. rewrite fmap_cons.
        apply list_elem_of_here.
    + destruct (IH h c aq vq ar vr fuel Hlq) as (h' & Hrun & Hl' & Hout & Hsame);
        [simpl in Hfuel; lia|].
      exists h'. split; [|split; [|split]].
      * rewrite <- Hrun.
        unfold deleteAtvalue_from.
        simpl LinkedDelete.deleteAtvalue_loop.
        run_using Hq. rewrite bool_decide_eq_false_2 by done.
        run_using Hq. rewrite Hp. run_using Hq. done.
      * simpl drop_first. rewrite bool_decide_eq_false_2 by done.
        apply chain_cons. split; [done|]. exists (Some aq). split; [|done].
        rewrite Hout; [done|]. unfold addrs. rewrite !fmap_cons. simpl.
        intros Hx. apply elem_of_cons in Hx as [?|Hx]; [done|].
        apply elem_of_cons in Hx as [?|Hx]; done.
      * intros x Hx. apply Hout. unfold addrs in *.
        rewrite fmap_cons in Hx. by apply not_elem_of_cons in Hx as [_ Hx].
      * intros Hnot. apply Hsame. unfold values in *.
        rewrite fmap_cons in Hnot. by apply not_elem_of_cons in Hnot as [_ ?].
Qed.

(** [deleteAtvalue] is the set-up of [q], the walk and unlinking, and the
    return of [head]. *)
Lemma deleteAtvalue_unfold fuel value head q (w : world snode) :
  LinkedDelete.get_next head w = Done (q, w) →
  LinkedDelete.deleteAtvalue fuel head value w
  = match deleteAtvalue_from fuel value head q w with
    | Done (_, w') => Done (head, w')
    | Crash f => Crash f
    | OutOfFuel => OutOfFuel
    end.
Proof.
  intros Hq. unfold LinkedDelete.deleteAtvalue, deleteAtvalue_from.
  unfold bind at 1. rewrite Hq. unfold bind.
  repeat (match goal with
          | |- context [match ?x with _ => _ end] => destruct x
          end; try done).
Qed.

End DeleteAtValue.

(** C10.  [deleteAtvalue] of [linked_delete.c] never removes the first node.
    On a list of at least two nodes, with fuel for one loop test per node
    after the head, it finishes and returns [head] itself; the head node
    and its payload are still first in the result, also when the payload is
    [value]; of the nodes after the head exactly the first one holding
    [value] is gone ([drop_first]), so one node less when there is such a
    node; and when no node after the head holds [value] the world is
    unchanged.  Nothing is printed. *)
Theorem deleteAtvalue_keeps_head (w : world snode) (a0 : nat) (v0 : Z)
  (cells : list (nat * Z)) (value : Z) (fuel : nat) :
  cells ≠ [] →
  is_list (heap w) (Some a0) ((a0, v0) :: cells) →
  length cells ≤ fuel →
  ∃ w',
    LinkedDelete.deleteAtvalue fuel (Some a0) value w = Done (Some a0, w') ∧
    is_list (heap w') (Some a0) ((a0, v0) :: drop_first value cells) ∧
    console w' = console w ∧
    (value ∈ values cells →
     S (length (drop_first value cells)) = length cells) ∧
    (value ∉ values cells → w' = w).
Proof.
  destruct w as [h c]. destruct cells as [|[aq vq] rest]; [done|].
  simpl. intros _ Hl Hfuel.
  destruct (deleteAtvalue_from_spec value rest h c a0 v0 aq vq fuel Hl)
    as (h' & Hrun & Hl' & _ & Hsame); [lia|].
  exists (World h' c). split; [|split; [done|split; [done|split]]].
  - apply chain_cons in Hl as [_ (nx & Hp & Hl)].
    apply chain_cons in Hl as [-> _].
    rewrite (deleteAtvalue_unfold fuel value (Some a0) (Some aq)).
    + by rewrite Hrun.
    + by run_using Hp.
  - apply (drop_first_present value ((aq, vq) :: rest)).
  - intros Hnot. by rewrite Hsame.
Qed.

Lemma deleteAtvalue_keeps_head_witness :
  ∃ w',
    LinkedDelete.deleteAtvalue 1 (Some 1) 10 two_nodes = Done (Some 1, w') ∧
    is_list (heap w') (Some 1) ((1, 10%Z) :: drop_first 10 [(2, 20%Z)]) ∧
    console w' = console two_nodes ∧
    (10%Z ∈ values [(2, 20%Z)] →
     S (length (drop_first 10 [(2, 20%Z)])) = length [(2, 20%Z)]) ∧
    (10%Z ∉ values [(2, 20%Z)] → w' = two_nodes).
Proof.
  apply (deleteAtvalue_keeps_head two_nodes 1 10 [(2, 20%Z)] 10 1).
  - discriminate.
  - vm_compute. tauto.
  - simpl. lia.
Defined.

(** ** linked_queue_menu.c: enqueue and dequeue *)

Section QueueFacts.
Implicit Types (h : gmap nat snode) (c : list event)
  (fr : pointer * pointer) (cells : list (nat * Z)).

(** Every node of a chain is allocated. *)
Lemma chain_allocated h p cells q a :
  chain h p cells q → a ∈ addrs cells → is_Some (h !! a).
Proof.
  revert p. induction cells as [|[b v] rest IH]; intros p.
  - intros _ H. by apply elem_of_nil in H.
  - rewrite chain_cons. intros [-> (nx & Hb & H)].
    unfold addrs. rewrite fmap_cons, elem_of_cons. simpl.
    intros [->|Hin]; [by eexists|]. by eapply IH.
Qed.

Lemma is_queue_bracket h fr cells :
  is_queue h fr cells → bracket fr (length cells).
Proof.
  destruct fr as [front rear]. intros [Hl Hrear]. simpl in *.
  pose proof (is_list_NoDup _ _ _ Hl) as Hnd.
  destruct cells as [|[a v] [|[b u] rest]].
  - unfold is_list in Hl. simpl in *. subst. split; simpl; split; try done.
    by intros [_ ?].
  - apply chain_cons in Hl as [-> _]. simpl in *. subst.
    split; simpl; split; try done. by intros [? _].
  - apply chain_cons in Hl as [-> _]. subst rear.
    unfold addrs in *. rewrite !fmap_cons in *. simpl in *.
    split; simpl; split; try done; [|by intros [? _]].
    intros [Heq _]. exfalso.
    apply NoDup_cons in Hnd as [Ha _]. apply Ha.
    by apply last_Some_elem_of.
Qed.

Lemma enqueue_overflow h c fr item :
  Queue.enqueue NULL item fr (World h c)
  = Done (fr, World h (c ++ [Printf "OVERFLOW" []])).
Proof. by destruct fr. Qed.

Lemma enqueue_spec h c fr cells a item :
  is_queue h fr cells → h !! a = None →
  ∃ h',
    Queue.enqueue (Some a) item fr (World h c)
    = Done ((if decide (cells = []) then Some a else fr.1, Some a),
            World h' (c ++ [Printf "enter item to be inserted" []])) ∧
    is_queue h' (if decide (cells = []) then Some a else fr.1, Some a)
      (cells ++ [(a, item)]).
Proof.
  destruct fr as [front rear]. intros [Hl Hrear] Hfresh. simpl in *.
  pose proof (is_list_NoDup _ _ _ Hl) as Hnd.
  destruct cells as [|x pre _] using rev_ind.
  - unfold is_list in Hl. simpl in *. subst.
    exists (<[a := SNode item NULL]> h). split.
    + unfold Queue.enqueue. run_step. rewrite !lookup_insert_eq. run_step.
      rewrite lookup_insert_eq. run_step. by rewrite !insert_insert_eq.
    + split; [|done]. apply chain_cons. split; [done|].
      exists NULL. split; [apply lookup_insert_eq|done].
  - destruct x as [r vr].
    rewrite decide_False by (by destruct pre).
    unfold addrs in Hrear, Hnd. rewrite fmap_app in Hrear, Hnd.
    simpl in Hrear, Hnd. rewrite last_snoc in Hrear. subst rear.
    apply NoDup_app in Hnd as (_ & Hr & _).
    apply chain_app in Hl as (m & Hpre & Hlast).
    apply chain_cons in Hlast as [-> (nx & Hlk & ->)].
    assert (Hra : r ≠ a) by (intros ->; congruence).
    assert (Hfront : front ≠ NULL).
    { destruct pre as [|[b u] pre]; simpl in Hpre; [by subst|].
      by destruct Hpre as [-> _]. }
    exists (<[r := SNode vr (Some a)]> (<[a := SNode item NULL]> h)). split.
    + unfold Queue.enqueue. run_step. rewrite !lookup_insert_eq. run_step.
      rewrite lookup_insert_eq. run_step. rewrite !insert_insert_eq.
      rewrite (ptr_eqb_ne front NULL) by done. run_step.
      rewrite lookup_insert_ne by done. by run_using Hlk.
    + split; simpl.
      * unfold is_list. rewrite <- app_assoc. simpl.
        apply chain_app. exists (Some r). split.
        -- eapply chain_frame; [|exact Hpre]. intros x Hx.
           assert (x ≠ r) by (intros ->; by apply (Hr r), list_elem_of_here).
           assert (x ≠ a).
           { intros ->. destruct (chain_allocated _ _ _ _ _ Hpre Hx).
             congruence. }
           by rewrite !lookup_insert_ne.
        -- apply chain_cons. split; [done|]. exists (Some a).
           split; [apply lookup_insert_eq|].
           apply chain_cons. split; [done|]. exists NULL. split; [|done].
           rewrite lookup_insert_ne by done. apply lookup_insert_eq.
      * unfold addrs. rewrite !fmap_app. simpl. by rewrite last_snoc.
Qed.

Lemma dequeue_underflow h c :
  Queue.dequeue (NULL, NULL) (World h c)
  = Done ((NULL, NULL), World h (c ++ [Printf "UNDERFLOW" []])).
Proof. done. Qed.

Lemma dequeue_spec h c fr cells :
  is_queue h fr cells → cells ≠ [] →
  ∃ fr' h',
    Queue.dequeue fr (World h c) = Done (fr', World h' c) ∧
    is_queue h' fr' (tail cells) ∧
    (length cells = 1 → fr' = (NULL, NULL)).
Proof.
  destruct fr as [front rear]. intros [Hl Hrear] Hne. simpl in *.
  pose proof (is_list_NoDup _ _ _ Hl) as Hnd.
  destruct cells as [|[a v] [|[b u] rest]]; [done| |].
  - apply chain_cons in Hl as [-> _]. simpl in Hrear. subst rear.
    exists (NULL, NULL), h. split; [|done].
    unfold Queue.dequeue. run_step. done.
  - pose proof Hl as Hl0.
    apply chain_cons in Hl as [-> (nx & Ha & Hl)].
    pose proof Hl as Hl1. apply chain_cons in Hl1 as [-> _].
    unfold addrs in Hrear, Hnd. rewrite !fmap_cons in Hrear, Hnd.
    simpl in Hrear, Hnd. apply NoDup_cons in Hnd as [Hnotin _].
    rewrite ?last_cons_cons in Hrear.
    destruct (last (b :: rest.*1)) as [x|] eqn:E;
      [|by apply last_None in E].
    assert (Hxa : x ≠ a).
    { intros ->. by apply Hnotin, last_Some_elem_of. }
    subst rear.
    exists (Some b, Some x), (delete a h). split; [|split; [|done]].
    + unfold Queue.dequeue. run_step.
      rewrite (ptr_eqb_ne (Some a) (Some x)) by congruence.
      by run_using Ha.
    + split; simpl.
      * eapply chain_frame; [|exact Hl]. intros y Hy.
        apply lookup_delete_ne. intros ->. apply Hnotin.
        unfold addrs in Hy. by rewrite fmap_cons in Hy.
      * done.
Qed.

End QueueFacts.

(** C9.  The bracket invariant ([front] and [rear] are the same node iff
    the queue holds exactly one element, and both are [NULL] iff it holds
    none) holds of every queue and is kept by [enqueue] and [dequeue] of
    [linked_queue_menu.c]: both finish, the result is again a queue
    ([enqueue] appends the new node, or changes nothing when the allocation
    failed; [dequeue] drops the first node, or changes nothing on the empty
    queue), so the invariant holds of it with the new size.  [enqueue] into
    the empty queue sets [front] and [rear] to the new node; [dequeue] of
    the last element sets both to [NULL]. *)
Theorem queue_bracket_preserved (h : gmap nat snode) (c : list event)
  (fr : pointer * pointer) (cells : list (nat * Z)) (new : pointer)
  (item : Z) :
  is_queue h fr cells →
  (∀ a, new = Some a → h !! a = None) →
  bracket fr (length cells) ∧
  (∃ fr' w',
     let cells' : list (nat * Z) :=
       match new with
       | Some a => (cells ++ [(a, item)])%list
       | None => cells
       end in
     Queue.enqueue new item fr (World h c) = Done (fr', w') ∧
     is_queue (heap w') fr' cells' ∧
     bracket fr' (length cells') ∧
     (cells = [] → new ≠ NULL → fr' = (new, new))) ∧
  (∃ fr' w',
     Queue.dequeue fr (World h c) = Done (fr', w') ∧
     is_queue (heap w') fr' (tail cells) ∧
     bracket fr' (length (tail cells)) ∧
     (length cells = 1 → fr' = (NULL, NULL))).
Proof.
  intros Hq Hfresh. split; [by eapply is_queue_bracket|]. split.
  - destruct new as [a|].
    + destruct (enqueue_spec h c fr cells a item Hq) as (h' & Hrun & Hq');
        [by apply Hfresh|].
      eexists _, _. split; [exact Hrun|]. split; [exact Hq'|].
      split; [by eapply is_queue_bracket|].
      intros -> _. by rewrite decide_True.
    + eexists _, _. split; [apply enqueue_overflow|].
      split; [exact Hq|]. split; [by eapply is_queue_bracket|done].
  - destruct (decide (cells = [])) as [->|Hne].
    + destruct fr as [front rear]. destruct Hq as [Hl Hr]. simpl in *.
      unfold is_list in Hl. simpl in Hl. subst.
      eexists _, _. split; [apply dequeue_underflow|].
      split; [done|]. split; [|done].
      by apply (is_queue_bracket h _ []).
    + destruct (dequeue_spec h c fr cells Hq Hne) as (fr' & h' & Hrun & Hq' & H1).
      exists fr', (World h' c). split; [done|]. split; [done|].
      split; [by eapply is_queue_bracket|done].
Qed.

Lemma queue_bracket_preserved_witness :
  bracket (Some 1, Some 1) (length [(1, 5%Z)]) ∧
  (∃ fr' w',
     let cells' : list (nat * Z) := ([(1, 5%Z)] ++ [(2, 6%Z)])%list in
     Queue.enqueue (Some 2) 6 (Some 1, Some 1) one_in_queue = Done (fr', w') ∧
     is_queue (heap w') fr' cells' ∧
     bracket fr' (length cells') ∧
     ([(1, 5%Z)] = [] → Some 2 ≠ NULL → fr' = (Some 2, Some 2))) ∧
  (∃ fr' w',
     Queue.dequeue (Some 1, Some 1) one_in_queue = Done (fr', w') ∧
     is_queue (heap w') fr' (tail [(1, 5%Z)]) ∧
     bracket fr' (length (tail [(1, 5%Z)])) ∧
     (length [(1, 5%Z)] = 1 → fr' = (NULL, NULL))).
Proof.
  apply (queue_bracket_preserved (heap one_in_queue) [] (Some 1, Some 1)
           [(1, 5%Z)] (Some 2) 6).
  - vm_compute. tauto.
  - intros a [= <-]. reflexivity.
Defined.

(** ** CDLL.c and csll.c: the ring after an insertion into nothing *)

(** Run the monad through reads and writes of a block just written. *)
Ltac run_fresh :=
  repeat (progress (run_step; rewrite ?lookup_insert_eq, ?insert_insert_eq)).

(** The same, also reading blocks other than the one last written. *)
Ltac run_heap :=
  repeat (progress
    (run_step;
     repeat first
       [ rewrite lookup_insert_eq
       | rewrite lookup_insert_ne by congruence
       | rewrite insert_insert_eq ])).

Section EmptyInsert.
Implicit Types (h : gmap nat dnode) (c : list event).

Lemma cdll_create_spec h c a item start :
  CDLL.create_cdll (Some a) item start (World h c)
  = Done (Some a,
          World (<[a := DNode item (Some a) (Some a)]> h)
            (c ++ [Printf "enter item to create the node .." []])).
Proof. unfold CDLL.create_cdll. by run_fresh. Qed.

Lemma cdll_insert_beg_empty h c a item :
  CDLL.insert_beg (Some a) item NULL (World h c)
  = Done (Some a,
          World (<[a := DNode item NULL NULL]> h)
            (c ++ [Printf "enter item to be inserted" []])).
Proof. unfold CDLL.insert_beg. by run_fresh. Qed.

Lemma cdll_insert_end_empty h c a item :
  CDLL.insert_end (Some a) item NULL (World h c)
  = Done (Some a,
          World (<[a := DNode item NULL NULL]> h)
            (c ++ [Printf "enter item to be inserted" []])).
Proof. unfold CDLL.insert_end. by run_fresh. Qed.

Lemma csll_create_spec (h : gmap nat snode) c a item start :
  CSLL.create_csll (Some a) item start (World h c)
  = Done (Some a,
          World (<[a := SNode item start]> h)
            (c ++ [Printf "enter item to start ..." []])).
Proof. unfold CSLL.create_csll. by run_fresh. Qed.

End EmptyInsert.

(** C1, evaluated where the code breaks it.  In [CDLL.c], [insert_beg] and
    [insert_end] on the empty list ([start] is [NULL]) return the new node
    with [next] and [prev] both [NULL]: it is not a self-ring, one step
    from the head does not lead back to the head, and the [traverse] that
    [main] calls next dereferences [NULL].  [create_cdll] of the same file
    does build the self-ring.  In [csll.c], [create_csll] called as [main]
    calls it, with [start] [NULL], leaves the first node with [link]
    [NULL], so the ring invariant fails there from the first operation
    on. *)
Theorem circular_insert_into_empty_breaks_ring (a : nat) (item : Z)
  (fuel : nat) :
  let lone := <[a := DNode item NULL NULL]> (∅ : gmap nat dnode) in
  let prompt := Printf "enter item to be inserted" [] in
  CDLL.insert_beg (Some a) item NULL (World ∅ [])
  = Done (Some a, World lone [prompt]) ∧
  CDLL.insert_end (Some a) item NULL (World ∅ [])
  = Done (Some a, World lone [prompt]) ∧
  ¬ self_ring lone (Some a) ∧
  ¬ dring_invariant lone (Some a) 1 ∧
  CDLL.traverse (S fuel) (Some a) (World lone [prompt]) = Crash NullDeref ∧
  (∃ w, CDLL.create_cdll (Some a) item NULL (World ∅ []) = Done (Some a, w) ∧
        self_ring (heap w) (Some a) ∧ dring_invariant (heap w) (Some a) 1) ∧
  (∃ w, CSLL.create_csll (Some a) item NULL (World ∅ []) = Done (Some a, w) ∧
        ¬ ring_invariant (heap w) (Some a) 1).
Proof.
  intros lone prompt.
  split; [apply cdll_insert_beg_empty|].
  split; [apply cdll_insert_end_empty|].
  split; [|split; [|split; [|split]]].
  - unfold self_ring, lone. rewrite lookup_insert_eq. simpl. by intros [? _].
  - unfold dring_invariant, lone. simpl. by rewrite lookup_insert_eq.
  - unfold CDLL.traverse, lone. run_fresh. simpl CDLL.traverse_loop.
    by run_step.
  - eexists. split; [apply cdll_create_spec|]. simpl.
    unfold self_ring, dring_invariant. simpl. by rewrite lookup_insert_eq.
  - eexists. split; [apply csll_create_spec|]. simpl.
    unfold ring_invariant. simpl. by rewrite lookup_insert_eq.
Qed.

(** ** Deleting from the empty container *)

Section Underflow.

Lemma cdll_delete_beg_empty (h : gmap nat dnode) c :
  CDLL.delete_beg NULL (World h c)
  = Done (NULL, World h (c ++ [Printf "UNDERFLOW" []])).
Proof. done. Qed.

Lemma dll_delete_beg_empty (h : gmap nat dnode) c :
  DLL.delete_beg NULL (World h c)
  = Done (NULL, World h (c ++ [Printf "UNDERFLOW" []])).
Proof. done. Qed.

Lemma dll_delete_end_empty (h : gmap nat dnode) c fuel junk :
  DLL.delete_end fuel junk NULL (World h c)
  = Done (NULL, World h (c ++ [Printf "UNDERFLOW" []])).
Proof. done. Qed.

Lemma sll_delete_beg_empty (h : gmap nat snode) c :
  SLL.delete_beg NULL (World h c)
  = Done (NULL, World h (c ++ [Printf "\nUNDERFLOW\n" []])).
Proof. done. Qed.

Lemma sll_delete_end_empty (h : gmap nat snode) c fuel :
  SLL.delete_end fuel NULL (World h c)
  = Done (NULL, World h (c ++ [Printf "\nUNDERFLOW\n" []])).
Proof. done. Qed.

Lemma csll_delete_beg_empty (h : gmap nat snode) c fuel :
  CSLL.delete_beg fuel NULL (World h c)
  = Done (NULL, World h (c ++ [Printf "UNDERflow" []])).
Proof. done. Qed.

Lemma csll_delete_end_empty (h : gmap nat snode) c fuel junk :
  CSLL.delete_end fuel junk NULL (World h c)
  = Done (NULL, World h (c ++ [Printf "UNDERFLOW" []])).
Proof. done. Qed.

End Underflow.

(** C2, evaluated where the code breaks it.  [delete_end] of [CDLL.c] on
    the empty list finishes and changes neither [start] nor the heap, but
    what it prints is [OVERFLOW], the message of a failed allocation, not
    [UNDERFLOW]; [delete_beg] of the same file prints [UNDERFLOW], as do
    [pop] and [dequeue]. *)
Theorem cdll_delete_end_empty_says_overflow (h : gmap nat dnode)
  (hs : gmap nat snode) (c : list event) :
  CDLL.delete_end NULL (World h c)
  = Done (NULL, World h (c ++ [Printf "OVERFLOW" []])) ∧
  Printf "OVERFLOW" [] ≠ Printf "UNDERFLOW" [] ∧
  CDLL.delete_beg NULL (World h c)
  = Done (NULL, World h (c ++ [Printf "UNDERFLOW" []])) ∧
  Stack.pop NULL (World hs c)
  = Done (NULL, World hs (c ++ [Printf "UNDERFLOW" []])) ∧
  Queue.dequeue (NULL, NULL) (World hs c)
  = Done ((NULL, NULL), World hs (c ++ [Printf "UNDERFLOW" []])).
Proof. done. Qed.

(** ** Deleting the only node *)

(** C3, evaluated where the code breaks it.  On the one-node list that
    [create_dll] builds, [delete_beg] of [menu_DLL.c] moves [start] to
    [start->next], which is [NULL], and then assigns [start->prev]: the
    [NULL] dereference is reached, and no empty list is returned.  On the
    one-node ring of [CDLL.c], [delete_beg] frees the node and returns its
    address, not [NULL].  [delete_beg] of [menu_linked.c], [pop] and
    [dequeue] do return the empty container in this case. *)
Theorem delete_only_node (h : gmap nat dnode) (hs : gmap nat snode)
  (c : list event) (a : nat) (v : Z) :
  let one := <[a := DNode v NULL NULL]> h in
  let ring := <[a := DNode v (Some a) (Some a)]> h in
  let ones := <[a := SNode v NULL]> hs in
  DLL.create_dll (Some a) v NULL (World h c)
  = Done (Some a, World one (c ++ [Printf "enter item:" []])) ∧
  DLL.delete_beg (Some a) (World one c) = Crash NullDeref ∧
  CDLL.delete_beg (Some a) (World ring c)
  = Done (Some a, World (delete a ring)
                    (c ++ [Printf "deleted item is: %d" [v]])) ∧
  delete a ring !! a = None ∧
  SLL.delete_beg (Some a) (World ones c)
  = Done (NULL, World (delete a ones)
                  (c ++ [Printf "\nItem Deleted=%d\n" [v]])) ∧
  Stack.pop (Some a) (World ones c)
  = Done (NULL, World (delete a ones)
                  (c ++ [Printf "deleted item is:%d\n" [v]])) ∧
  Queue.dequeue (Some a, Some a) (World ones c)
  = Done ((NULL, NULL), World ones c).
Proof.
  intros one ring ones.
  split; [unfold DLL.create_dll; by run_fresh|].
  split; [unfold DLL.delete_beg, one; by run_fresh|].
  split.
  { unfold CDLL.delete_beg, ring. run_fresh. by rewrite !delete_insert_eq. }
  split; [apply lookup_delete_eq|].
  split; [unfold SLL.delete_beg, ones; by run_fresh|].
  split; [unfold Stack.pop, ones; by run_fresh|].
  unfold Queue.dequeue. by run_step.
Qed.

(** ** csll.c: insertion at the front and deletion of the front *)

Section InsertFront.
Implicit Types (h : gmap nat snode) (c : list event).

(** On a one-node ring the loop test of [insert_beg] fails at once: the
    ring is as before and the new node is left outside it. *)
Lemma csll_insert_beg_ring_of_one h c a v b item fuel :
  h !! a = Some (SNode v (Some a)) → b ≠ a →
  CSLL.insert_beg (S fuel) (Some b) item (Some a) (World h c)
  = Done (Some a,
          World (<[b := SNode item NULL]> h)
            (c ++ [Printf "enter item to be inserted" []])).
Proof.
  intros Ha Hne. unfold CSLL.insert_beg. run_fresh.
  simpl CSLL.insert_beg_loop. run_heap. by run_using Ha.
Qed.

(** On a ring of two or more nodes the loop runs twice: the head links to
    the new node, the new node to itself, and [start] is the new node. *)
Lemma csll_insert_beg_ring_of_more h c a v a2 b item fuel :
  h !! a = Some (SNode v (Some a2)) → a2 ≠ a → b ≠ a →
  CSLL.insert_beg (3 + fuel) (Some b) item (Some a) (World h c)
  = Done (Some b,
          World (<[b := SNode item (Some b)]> (<[a := SNode v (Some b)]> h))
            (c ++ [Printf "enter item to be inserted" []])).
Proof.
  intros Ha Hne2 Hne. unfold CSLL.insert_beg. run_fresh.
  (* first test: [start->link] is not [start] *)
  simpl CSLL.insert_beg_loop. run_heap. rewrite Ha. run_step.
  rewrite (ptr_eqb_ne (Some a2) (Some a)) by congruence.
  run_heap. rewrite Ha. run_heap.
  (* second test, at the new node: it links to the old head *)
  rewrite (ptr_eqb_ne (Some a) (Some b)) by congruence. run_heap.
  (* third test: the new node links to itself *)
  f_equal. f_equal. f_equal.
  apply map_eq. intros i. rewrite !lookup_insert.
  repeat case_decide; congruence.
Qed.

End InsertFront.

(** The one-node ring is what [csll.c] reaches when [create_csll] could
    not allocate and [insert_beg] then inserts into the empty list; after a
    successful [create_csll] the first [insert_beg] ends with a one-node
    ring as well, the created node left outside it. *)
Example ring_of_1_reached :
  (start <- CSLL.create_csll NULL 0 NULL ;;
   CSLL.insert_beg 1 (Some 1) 5 start) (World ∅ [])
  = Done (Some 1,
          World (heap ring_of_1)
            [Printf "enter item to start ..." []; Printf "OVERFLOW" [];
             Printf "enter item to be inserted" []]) ∧
  ∃ w,
    (start <- CSLL.create_csll (Some 2) 9 NULL ;;
     CSLL.insert_beg 3 (Some 1) 5 start) (World ∅ []) = Done (Some 1, w) ∧
    is_ring (heap w) (Some 1) [(1, 5%Z)].
Proof.
  split; [by vm_compute|].
  eexists. split; [vm_compute; reflexivity|].
  split; [done|]. split; [apply NoDup_singleton|by vm_compute].
Qed.

(** C4, evaluated where the code breaks it.  [insert_beg] of [csll.c] on
    the one-node ring [5] never enters its loop: the ring, its head and what
    [traverse] prints are as before, and the new node holding [7] is left
    outside the ring.  On the two-node ring [1, 2] the loop runs twice and
    ends with the new node as a ring of its own: [traverse] prints [7]
    alone, and the nodes [1] and [2] are no longer in the ring. *)
Theorem csll_insert_beg_loses_nodes (fuel : nat) :
  is_ring (heap ring_of_1) (Some 1) [(1, 5%Z)] ∧
  (∃ w,
     CSLL.insert_beg (S fuel) (Some 9) 7 (Some 1) ring_of_1
     = Done (Some 1, w) ∧
     is_ring (heap w) (Some 1) [(1, 5%Z)] ∧
     ¬ is_ring (heap w) (Some 1) [(9, 7%Z); (1, 5%Z)] ∧
     heap w !! 9 = Some (SNode 7 NULL) ∧
     CSLL.traverse 5 (Some 1) (World (heap w) [])
     = Done (tt, World (heap w)
                   (Printf "\nContent of CSLL:\n" [] :: printed [5%Z]))) ∧
  is_ring (heap ring_of_2) (Some 1) [(1, 1%Z); (2, 2%Z)] ∧
  (∃ w,
     CSLL.insert_beg (S (S (S fuel))) (Some 9) 7 (Some 1) ring_of_2
     = Done (Some 9, w) ∧
     is_ring (heap w) (Some 9) [(9, 7%Z)] ∧
     ¬ is_ring (heap w) (Some 9) [(9, 7%Z); (1, 1%Z); (2, 2%Z)] ∧
     CSLL.traverse 5 (Some 9) (World (heap w) [])
     = Done (tt, World (heap w)
                   (Printf "\nContent of CSLL:\n" [] :: printed [7%Z]))).
Proof.
  assert (Hnd1 : NoDup (addrs [(1, 5%Z)])) by (apply NoDup_singleton).
  assert (Hnd2 : NoDup (addrs [(1, 1%Z); (2, 2%Z)])).
  { apply NoDup_cons. split; [|apply NoDup_singleton].
    rewrite list_elem_of_singleton. discriminate. }
  split; [split; [done|split; [done|by vm_compute]]|].
  split.
  { eexists. split; [vm_compute; reflexivity|]. simpl.
    split; [split; [done|split; [done|by vm_compute]]|].
    split; [|split; [by vm_compute|by vm_compute]].
    intros (_ & _ & H). vm_compute in H. destruct H as [H _]. discriminate. }
  split; [split; [done|split; [done|by vm_compute]]|].
  eexists. split; [vm_compute; reflexivity|]. simpl.
  split; [split; [done|split; [apply NoDup_singleton|by vm_compute]]|].
  split; [|by vm_compute].
  intros (_ & _ & H). vm_compute in H. destruct H as (_ & _ & H & _).
  discriminate.
Qed.

Section DeleteFront.
Implicit Types (h : gmap nat snode) (cells : list (nat * Z)).

(** In a chain that ends at a node, every node links to a node. *)
Lemma chain_links_present h p cells e a :
  chain h p cells (Some e) → a ∈ addrs cells →
  ∃ v a', h !! a = Some (SNode v (Some a')) ∧ (a' = e ∨ a' ∈ addrs cells).
Proof.
  revert p. induction cells as [|[b u] rest IH]; intros p.
  - intros _ H. by apply elem_of_nil in H.
  - rewrite chain_cons. intros [-> (nx & Hb & H)].
    unfold addrs. rewrite fmap_cons, elem_of_cons. simpl.
    intros [->|Hin].
    + destruct rest as [|[b' u'] rest'].
      * simpl in H. subst nx. exists u, e. by split; [|left].
      * pose proof H as H'. apply chain_cons in H' as [-> _].
        exists u, b'. split; [done|]. right.
        rewrite fmap_cons. apply list_elem_of_further, list_elem_of_here.
    + destruct (IH _ H Hin) as (v & a' & Ha & Hor).
      exists v, a'. split; [done|].
      destruct Hor as [->|Hor]; [by left|right].
      by apply list_elem_of_further.
Qed.

(** The walk [while(ptr->link!=NULL)] never leaves a ring. *)
Lemma delete_beg_loop_diverges h c start cells fuel a :
  is_ring h start cells → a ∈ addrs cells →
  CSLL.delete_beg_loop fuel (Some a) (World h c) = OutOfFuel.
Proof.
  intros (Hne & _ & Hchain).
  assert (∃ e, start = Some e ∧ e ∈ addrs cells) as (e & -> & He).
  { destruct cells as [|[b u] rest]; [done|].
    apply chain_cons in Hchain as [-> _]. exists b. split; [done|].
    unfold addrs. rewrite fmap_cons. apply list_elem_of_here. }
  revert a. induction fuel as [|fuel IH]; intros a Ha; [done|].
  destruct (chain_links_present _ _ _ _ _ Hchain Ha) as (v & a' & Hlk & Hor).
  simpl. run_using Hlk. apply IH. by destruct Hor as [->|?].
Qed.

(** [delete_beg] of [csll.c] does not return on any ring. *)
Lemma delete_beg_diverges h c start cells fuel :
  is_ring h start cells →
  CSLL.delete_beg fuel start (World h c) = OutOfFuel.
Proof.
  intros Hring. pose proof Hring as (Hne & _ & Hchain).
  destruct cells as [|[b u] rest]; [done|].
  apply chain_cons in Hchain as [-> _].
  unfold CSLL.delete_beg. run_step.
  rewrite (delete_beg_loop_diverges h c (Some b) ((b, u) :: rest));
    [done|done|].
  unfold addrs. rewrite fmap_cons. apply list_elem_of_here.
Qed.

End DeleteFront.

(** C5, evaluated where the code breaks it.  The walk of [delete_beg] in
    [csll.c] tests [ptr->link] against [NULL], which no node of a ring
    holds ([delete_end] of the same file tests against [start]): on the
    one-node ring and on the two-node ring it runs out of every fuel, so it
    does not terminate.  On the node [create_csll] leaves, whose [link] is
    [NULL], it returns, with the node still there and [start] unchanged:
    nothing is removed. *)
Theorem csll_delete_beg_never_returns (fuel : nat) :
  is_ring (heap ring_of_1) (Some 1) [(1, 5%Z)] ∧
  CSLL.delete_beg fuel (Some 1) ring_of_1 = OutOfFuel ∧
  is_ring (heap ring_of_2) (Some 1) [(1, 1%Z); (2, 2%Z)] ∧
  CSLL.delete_beg fuel (Some 1) ring_of_2 = OutOfFuel ∧
  CSLL.delete_beg (S fuel) (Some 1) created_csll
  = Done (Some 1, World (heap created_csll)
                    [Printf "deleted item is %d" [5%Z]]).
Proof.
  assert (H1 : is_ring (heap ring_of_1) (Some 1) [(1, 5%Z)]).
  { split; [done|]. split; [apply NoDup_singleton|by vm_compute]. }
  assert (H2 : is_ring (heap ring_of_2) (Some 1) [(1, 1%Z); (2, 2%Z)]).
  { split; [done|]. split; [|by vm_compute].
    apply NoDup_cons. split; [|apply NoDup_singleton].
    rewrite list_elem_of_singleton. discriminate. }
  split; [done|]. split; [by eapply (delete_beg_diverges _ [])|].
  split; [done|]. split; [by eapply (delete_beg_diverges _ [])|].
  vm_compute. reflexivity.
Qed.

(** ** menu_DLL.c: insertion at a location *)

Section InsertAtLocation.
Implicit Types (h : gmap nat dnode) (c : list event).

(** The loop of [insert_LOC] reads [start->next] at most [loc - i] times
    and changes nothing. *)
Lemma insert_LOC_loop_returns h c a n loc fuel i ptr :
  h !! a = Some n → Z.to_nat (loc - i) < fuel →
  ∃ ptr',
    DLL.insert_LOC_loop fuel loc (Some a) i ptr (World h c)
    = Done (ptr', World h c).
Proof.
  intros Ha. revert i ptr.
  induction fuel as [|fuel IH]; intros i ptr Hfuel; [lia|].
  simpl. destruct (bool_decide (i < loc)%Z) eqn:Hlt; simpl.
  - destruct (negb (ptr_eqb ptr NULL)); [|by eexists].
    run_using Ha. apply IH.
    apply bool_decide_eq_true in Hlt. lia.
  - by eexists.
Qed.

(** On a non-empty list [insert_LOC] links the new node in front of
    [start], for every location and whatever [ptr] held. *)
Lemma insert_LOC_spec h c a n b junk item loc fuel :
  h !! a = Some n → b ≠ a → Z.to_nat (loc - 1) < fuel →
  DLL.insert_LOC fuel junk (Some b) item loc (Some a) (World h c)
  = Done (Some b,
          World (<[a := DNode (dinfo n) (Some b) (next n)]>
                   (<[b := DNode item NULL (Some a)]> h))
            (c ++ [Printf "enter item and loc to be inserted..." []])).
Proof.
  intros Ha Hne Hfuel. unfold DLL.insert_LOC. run_fresh.
  assert (Ha' : <[b := DNode item NULL NULL]> h !! a = Some n)
    by by rewrite lookup_insert_ne.
  destruct (insert_LOC_loop_returns _
              (c ++ [Printf "enter item and loc to be inserted..." []])
              a n loc fuel 1 junk Ha' Hfuel) as (ptr' & ->).
  run_heap. rewrite Ha. by run_step.
Qed.

End InsertAtLocation.

(** The list [10, 20, 30] is what [create_dll] and two calls of
    [insert_end] build. *)
Example dll_of_3_reached :
  (start <- DLL.create_dll (Some 1) 10 NULL ;;
   start <- DLL.insert_end 3 (Some 2) 20 start ;;
   DLL.insert_end 3 (Some 3) 30 start) (World ∅ [])
  = Done (Some 1,
          World (heap dll_of_3)
            [Printf "enter item:" []; Printf "enter item to be insert:" [];
             Printf "enter item to be insert:" []]).
Proof. by vm_compute. Qed.

(** C6, evaluated where the code breaks it.  The loop of [insert_LOC] in
    [menu_DLL.c] advances [ptr] and never [ptr1], which stays at [start]; so
    whatever the unassigned [ptr] held, the branch taken after the loop is
    the one for the first position.  On the list [10, 20, 30], location 2
    does not splice [7] between the first and the second node but makes it
    the new head; and location 5, which is past the end, prints no
    [location not found] and makes [7] the new head as well. *)
Theorem insert_LOC_always_at_head (junk : pointer) (fuel : nat) :
  let prompt := Printf "enter item and loc to be inserted..." [] in
  let at_head : list (nat * Z) :=
    [(9, 7%Z); (1, 10%Z); (2, 20%Z); (3, 30%Z)] in
  is_dlist (heap dll_of_3) (Some 1) [(1, 10%Z); (2, 20%Z); (3, 30%Z)] ∧
  (∃ w,
     DLL.insert_LOC (2 + fuel) junk (Some 9) 7 2 (Some 1) dll_of_3
     = Done (Some 9, w) ∧
     is_dlist (heap w) (Some 9) at_head ∧
     ¬ is_dlist (heap w) (Some 1)
         [(1, 10%Z); (9, 7%Z); (2, 20%Z); (3, 30%Z)] ∧
     console w = [prompt]) ∧
  (∃ w,
     DLL.insert_LOC (5 + fuel) junk (Some 9) 7 5 (Some 1) dll_of_3
     = Done (Some 9, w) ∧
     is_dlist (heap w) (Some 9) at_head ∧
     heap w ≠ heap dll_of_3 ∧
     console w = [prompt]).
Proof.
  intros prompt at_head.
  split; [vm_compute; tauto|].
  split.
  - destruct junk as [j|]; eexists;
      (split; [vm_compute; reflexivity|]);
      (split; [vm_compute; tauto|]);
      (split; [|reflexivity]);
      intros H; vm_compute in H; destruct H as (_ & _ & H & _);
      discriminate.
  - destruct junk as [j|]; eexists;
      (split; [vm_compute; reflexivity|]);
      (split; [vm_compute; tauto|]);
      (split; [|reflexivity]);
      intros H; apply (f_equal (λ m, m !! 9)) in H; vm_compute in H;
      discriminate.
Qed.


(** * Further properties of the programs *)

Local Open Scope list_scope.

(** Run the monad through the heap: blocks just written, other blocks, and
    blocks whose contents a hypothesis gives. *)
Ltac run_mem :=
  repeat (progress
    (unfold LinkedInsert.get_data, LinkedInsert.set_data,
       LinkedInsert.get_next, LinkedInsert.set_next;
     run_step;
     repeat first
       [ rewrite lookup_insert_eq
       | rewrite lookup_insert_ne by congruence
       | rewrite lookup_delete_ne by congruence
       | rewrite insert_insert_eq
       | match goal with
         | H : ?h !! ?a = Some _ |- context [?h !! ?a] => rewrite H
         end ])).

(** ** menu_linked.c: insertion and deletion *)

Section SLLFacts.
Implicit Types (h : gmap nat snode) (c : list event) (p q : pointer)
  (cells : list (nat * Z)).

Lemma addrs_cons a v cells : addrs ((a, v) :: cells) = a :: addrs cells.
Proof. done. Qed.

Lemma addrs_app (l1 l2 : list (nat * Z)) :
  addrs (l1 ++ l2) = (addrs l1 ++ addrs l2)%list.
Proof. unfold addrs. apply fmap_app. Qed.

Lemma values_cons a v cells : values ((a, v) :: cells) = v :: values cells.
Proof. done. Qed.

Lemma values_app (l1 l2 : list (nat * Z)) :
  values (l1 ++ l2) = (values l1 ++ values l2)%list.
Proof. unfold values. apply fmap_app. Qed.

Lemma addrs_snoc_inv cells pre b :
  addrs cells = pre ++ [b] →
  ∃ front vb, cells = front ++ [(b, vb)] ∧ addrs front = pre.
Proof.
  destruct cells as [|[b' vb] front _] using rev_ind.
  - intros H. by destruct pre.
  - rewrite addrs_app. intros [Hpre Hb]%app_inj_tail. simpl in Hb. subst b'.
    by exists front, vb.
Qed.

(** A block that is not allocated is on no chain. *)
Lemma chain_fresh h p cells q a :
  chain h p cells q → h !! a = None → a ∉ addrs cells.
Proof.
  intros Hc Ha Hin. destruct (chain_allocated _ _ _ _ _ Hc Hin). congruence.
Qed.

Lemma chain_insert_fresh h p cells q a x :
  chain h p cells q → a ∉ addrs cells → chain (<[a := x]> h) p cells q.
Proof.
  intros Hc Ha. eapply chain_frame; [|exact Hc].
  intros b Hb. apply lookup_insert_ne. by intros ->.
Qed.

Lemma chain_delete_fresh h p cells q a :
  chain h p cells q → a ∉ addrs cells → chain (delete a h) p cells q.
Proof.
  intros Hc Ha. eapply chain_frame; [|exact Hc].
  intros b Hb. apply lookup_delete_ne. by intros ->.
Qed.

(** The walk [while(ptr->link!=NULL) ptr=ptr->link] stops at the last
    node. *)
Lemma last_loop_spec front h c p r vr fuel :
  is_list h p (front ++ [(r, vr)]) → length front < fuel →
  SLL.last_loop fuel p (World h c) = Done (Some r, World h c).
Proof.
  revert p fuel. induction front as [|[a v] front IH]; intros p fuel Hl Hf;
    (destruct fuel as [|fuel]; [simpl in Hf; lia|]).
  - apply chain_cons in Hl as [-> (nx & Ha & Hl)]. simpl in Hl. subst nx.
    simpl. by run_mem.
  - rewrite <- app_comm_cons in Hl.
    apply chain_cons in Hl as [-> (nx & Ha & Hl)].
    assert (∃ b, nx = Some b) as [b ->].
    { destruct front as [|[b u] front]; simpl in Hl;
        destruct Hl as [-> _]; by eexists. }
    simpl. run_mem. apply IH; [done|simpl in Hf; lia].
Qed.

(** The walk of [delete_end] stops at the last node, with [prev] the node
    before it. *)
Lemma end_loop_spec front h c a v b r vr fuel prev :
  is_list h (Some a) ((a, v) :: front ++ [(r, vr)]) →
  last (addrs ((a, v) :: front)) = Some b →
  length front < fuel →
  SLL.end_loop (S fuel) (Some a) prev (World h c)
  = Done ((Some r, Some b), World h c).
Proof.
  revert a v prev fuel. induction front as [|[a' v'] front IH];
    intros a v prev fuel Hl Hlast Hf.
  - simpl in Hlast. injection Hlast as <-.
    apply chain_cons in Hl as [_ (nx & Ha & Hl)].
    apply chain_cons in Hl as [-> (nx' & Hr & Hl)]. simpl in Hl. subst nx'.
    destruct fuel as [|fuel]; [lia|]. simpl. by run_mem.
  - apply chain_cons in Hl as [_ (nx & Ha & Hl)].
    rewrite <- app_comm_cons in Hl. pose proof Hl as Hl'.
    apply chain_cons in Hl' as [-> _].
    destruct fuel as [|fuel]; [simpl in Hf; lia|].
    rewrite !addrs_cons, last_cons_cons in Hlast.
    simpl SLL.end_loop. run_mem.
    apply (IH a' v' (Some a) fuel Hl Hlast). simpl in Hf. lia.
Qed.

End SLLFacts.

(** X1.  [insert_beg] of [menu_linked.c] puts the new node in front: on a
    list and a block the allocator had free it returns the new node, which
    holds [item] and links to the old [start]; the result is the list with
    the new cell first, and nothing else in the heap changes. *)
Theorem sll_insert_beg_conses (h : gmap nat snode) (c : list event)
  (start : pointer) (cells : list (nat * Z)) (a : nat) (item : Z) :
  is_list h start cells →
  h !! a = None →
  SLL.insert_beg (Some a) item start (World h c)
  = Done (Some a,
          World (<[a := SNode item start]> h)
            (c ++ [Printf "\nEnter Item:\n" []])) ∧
  is_list (<[a := SNode item start]> h) (Some a) ((a, item) :: cells).
Proof.
  intros Hl Ha. split.
  - unfold SLL.insert_beg. run_mem.
    destruct start as [s|]; [|done]. by run_mem.
  - apply chain_cons. split; [done|]. exists start.
    split; [apply lookup_insert_eq|].
    apply chain_insert_fresh; [done|]. by eapply chain_fresh.
Qed.

Lemma sll_insert_beg_conses_witness :
  SLL.insert_beg (Some 3) 5 (Some 1) two_nodes
  = Done (Some 3,
          World (<[3 := SNode 5 (Some 1)]> (heap two_nodes))
            (console two_nodes ++ [Printf "\nEnter Item:\n" []])) ∧
  is_list (<[3 := SNode 5 (Some 1)]> (heap two_nodes)) (Some 3)
    ((3, 5%Z) :: [(1, 10%Z); (2, 20%Z)]).
Proof.
  apply (sll_insert_beg_conses (heap two_nodes) (console two_nodes)
           (Some 1) [(1, 10%Z); (2, 20%Z)] 3 5).
  - vm_compute. tauto.
  - reflexivity.
Defined.

(** X2.  [insert_end] of [menu_linked.c] appends: on a list shorter than
    the fuel and a free block it finishes, the result is the list with the
    new cell last, and [start] moves only when the list was empty. *)
Theorem sll_insert_end_appends (h : gmap nat snode) (c : list event)
  (start : pointer) (cells : list (nat * Z)) (a : nat) (item : Z)
  (fuel : nat) :
  is_list h start cells →
  h !! a = None →
  length cells ≤ fuel →
  ∃ h',
    SLL.insert_end fuel (Some a) item start (World h c)
    = Done (if decide (cells = []) then Some a else start,
            World h' (c ++ [Printf "\nEnter Item:\n" []])) ∧
    is_list h' (if decide (cells = []) then Some a else start)
      (cells ++ [(a, item)]).
Proof.
  intros Hl Ha Hf.
  destruct cells as [|x front _] using rev_ind.
  - unfold is_list in Hl. simpl in Hl. subst start.
    exists (<[a := SNode item NULL]> h). split.
    + unfold SLL.insert_end. by run_mem.
    + apply chain_cons. split; [done|]. exists NULL.
      split; [apply lookup_insert_eq|done].
  - destruct x as [r vr].
    destruct (decide (front ++ [(r, vr)] = [])) as [E|_];
      [by destruct front|].
    pose proof (is_list_NoDup _ _ _ Hl) as Hnd.
    rewrite addrs_app in Hnd. apply NoDup_app in Hnd as (_ & Hr & _).
    pose proof (chain_fresh _ _ _ _ _ Hl Ha) as Hfresh.
    assert (Hl1 : is_list (<[a := SNode item NULL]> h) start
                    (front ++ [(r, vr)]))
      by by apply chain_insert_fresh.
    assert (Hra : r ≠ a).
    { intros ->. apply Hfresh. rewrite addrs_app.
      apply elem_of_app. right. apply list_elem_of_here. }
    assert (Hstart : start ≠ NULL).
    { destruct front as [|[b u] front]; simpl in Hl; by destruct Hl as [-> _]. }
    apply chain_app in Hl as (m & Hfront & Hlast).
    apply chain_cons in Hlast as [-> (nx & Hlk & ->)].
    exists (<[r := SNode vr (Some a)]> (<[a := SNode item NULL]> h)). split.
    + unfold SLL.insert_end. run_mem.
      rewrite (ptr_eqb_ne start NULL) by done. run_mem.
      rewrite (last_loop_spec front _ _ _ r vr fuel Hl1)
        by (rewrite length_app in Hf; simpl in Hf; lia).
      by run_mem.
    + unfold is_list. rewrite <- app_assoc. simpl.
      apply chain_app. exists (Some r). split.
      * apply chain_insert_fresh.
        -- apply chain_insert_fresh; [done|]. intros Hin. apply Hfresh.
           rewrite addrs_app. apply elem_of_app. by left.
        -- intros Hin. by apply (Hr r), list_elem_of_here.
      * apply chain_cons. split; [done|]. exists (Some a).
        split; [apply lookup_insert_eq|].
        apply chain_cons. split; [done|]. exists NULL. split; [|done].
        rewrite lookup_insert_ne by done. apply lookup_insert_eq.
Qed.

Lemma sll_insert_end_appends_witness :
  ∃ h',
    SLL.insert_end 2 (Some 3) 5 (Some 1) two_nodes
    = Done (if decide ([(1, 10%Z); (2, 20%Z)] = []) then Some 3 else Some 1,
            World h' (console two_nodes ++ [Printf "\nEnter Item:\n" []])) ∧
    is_list h'
      (if decide ([(1, 10%Z); (2, 20%Z)] = []) then Some 3 else Some 1)
      ([(1, 10%Z); (2, 20%Z)] ++ [(3, 5%Z)]).
Proof.
  apply (sll_insert_end_appends (heap two_nodes) (console two_nodes)
           (Some 1) [(1, 10%Z); (2, 20%Z)] 3 5 2).
  - vm_compute. tauto.
  - reflexivity.
  - simpl. lia.
Defined.

(** X3.  [delete_beg] of [menu_linked.c] removes the first node of a
    non-empty list: it prints the payload of the first cell, frees its
    block, and returns the reference to the rest, which is the list of the
    remaining cells ([NULL] for a one-node list). *)
Theorem sll_delete_beg_removes_first (h : gmap nat snode) (c : list event)
  (start : pointer) (a : nat) (v : Z) (rest : list (nat * Z)) :
  is_list h start ((a, v) :: rest) →
  ∃ start',
    SLL.delete_beg start (World h c)
    = Done (start',
            World (delete a h) (c ++ [Printf "\nItem Deleted=%d\n" [v]])) ∧
    is_list (delete a h) start' rest ∧
    (rest = [] → start' = NULL).
Proof.
  intros Hl. pose proof (is_list_NoDup _ _ _ Hl) as Hnd.
  rewrite addrs_cons in Hnd. apply NoDup_cons in Hnd as [Ha _].
  apply chain_cons in Hl as [-> (nx & Hlk & Hl)].
  exists nx. split; [|split].
  - unfold SLL.delete_beg. by run_mem.
  - by apply chain_delete_fresh.
  - intros ->. by simpl in Hl.
Qed.

Lemma sll_delete_beg_removes_first_witness :
  ∃ start',
    SLL.delete_beg (Some 1) two_nodes
    = Done (start',
            World (delete 1 (heap two_nodes))
              (console two_nodes ++ [Printf "\nItem Deleted=%d\n" [10%Z]])) ∧
    is_list (delete 1 (heap two_nodes)) start' [(2, 20%Z)] ∧
    ([(2, 20%Z)] = [] → start' = NULL).
Proof.
  apply (sll_delete_beg_removes_first (heap two_nodes) (console two_nodes)
           (Some 1) 1 10 [(2, 20%Z)]).
  vm_compute. tauto.
Defined.

(** X4.  [delete_end] of [menu_linked.c] removes the last node of a list of
    two or more nodes: with fuel for the walk it prints the payload of the
    last cell, frees its block, and leaves [start] at the list of the cells
    before it. *)
Theorem sll_delete_end_removes_last (h : gmap nat snode) (c : list event)
  (start : pointer) (front : list (nat * Z)) (r : nat) (vr : Z)
  (fuel : nat) :
  front ≠ [] →
  is_list h start (front ++ [(r, vr)]) →
  length front < fuel →
  ∃ h',
    SLL.delete_end fuel start (World h c)
    = Done (start, World h' (c ++ [Printf "\nItem Deleted=%d\n" [vr]])) ∧
    is_list h' start front ∧
    h' !! r = None.
Proof.
  intros Hne Hl Hf. pose proof (is_list_NoDup _ _ _ Hl) as Hnd.
  rewrite addrs_app in Hnd. apply NoDup_app in Hnd as (Hndf & Hr & _).
  destruct front as [|[a v] front]; [done|]. clear Hne.
  destruct (last (addrs ((a, v) :: front))) as [b|] eqn:Hlast;
    [|by apply last_None in Hlast].
  pose proof Hl as Hl0. rewrite <- app_comm_cons in Hl0.
  apply chain_cons in Hl0 as [-> _].
  destruct fuel as [|fuel]; [simpl in Hf; lia|].
  (* the node before the last one *)
  apply last_Some in Hlast as [pre Hpre].
  assert (∃ front' vb, (a, v) :: front = front' ++ [(b, vb)]) as
    (front' & vb & Hsplit).
  { destruct (addrs_snoc_inv _ _ _ Hpre) as (front' & vb & -> & _).
    by exists front', vb. }
  pose proof Hl as Hl1. rewrite Hsplit in Hl1.
  rewrite <- app_assoc in Hl1. simpl in Hl1.
  apply chain_app in Hl1 as (m & Hfront' & Hl1).
  apply chain_cons in Hl1 as [-> (nxb & Hb & Hl1)].
  apply chain_cons in Hl1 as [-> (nxr & Hrr & Hl1)]. simpl in Hl1. subst nxr.
  assert (Hbr : b ≠ r).
  { intros ->. apply (Hr r); [|apply list_elem_of_here].
    rewrite Hsplit, addrs_app. apply elem_of_app. right.
    apply list_elem_of_here. }
  exists (delete r (<[b := SNode vb NULL]> h)). split; [|split].
  - unfold SLL.delete_end. run_mem.
    rewrite (end_loop_spec front h c a v b r vr fuel (Some a)); first last.
    + simpl in Hf. lia.
    + rewrite Hsplit, addrs_app. simpl. apply last_snoc.
    + done.
    + by run_mem.
  - rewrite Hsplit. rewrite Hsplit in Hndf, Hr.
    rewrite addrs_app in Hndf. apply NoDup_app in Hndf as (_ & Hb' & _).
    unfold is_list. apply chain_app. exists (Some b). split.
    + apply chain_delete_fresh.
      * apply chain_insert_fresh; [done|]. intros Hin.
        by apply (Hb' b), list_elem_of_here.
      * intros Hin. apply (Hr r); [|apply list_elem_of_here].
        rewrite addrs_app. apply elem_of_app. by left.
    + apply chain_cons. split; [done|]. exists NULL. split; [|done].
      rewrite lookup_delete_ne by done. apply lookup_insert_eq.
  - apply lookup_delete_eq.
Qed.

Lemma sll_delete_end_removes_last_witness :
  ∃ h',
    SLL.delete_end 2 (Some 1) two_nodes
    = Done (Some 1,
            World h' (console two_nodes
                        ++ [Printf "\nItem Deleted=%d\n" [20%Z]])) ∧
    is_list h' (Some 1) [(1, 10%Z)] ∧
    h' !! 2 = None.
Proof.
  apply (sll_delete_end_removes_last (heap two_nodes) (console two_nodes)
           (Some 1) [(1, 10%Z)] 2 20 2).
  - discriminate.
  - vm_compute. tauto.
  - simpl. lia.
Defined.

(** X5.  [delete_end] of [menu_linked.c] on a list of one node frees the
    node and still returns its address: [start] is never set to [NULL], so
    it dangles, and the [traversal] that [main] runs next reads the freed
    block. *)
Theorem sll_delete_end_only_node_dangles (h : gmap nat snode)
  (c : list event) (a : nat) (v : Z) (fuel fuel' : nat) :
  h !! a = Some (SNode v NULL) →
  let c' := c ++ [Printf "\nItem Deleted=%d\n" [v]] in
  SLL.delete_end (S fuel) (Some a) (World h c)
  = Done (Some a, World (delete a h) c') ∧
  delete a h !! a = None ∧
  SLL.traversal (S fuel') (Some a) (World (delete a h) c')
  = Crash BadDeref.
Proof.
  intros Ha c'. split; [|split].
  - unfold SLL.delete_end. run_mem. simpl SLL.end_loop. run_mem.
    by rewrite delete_insert_eq.
  - apply lookup_delete_eq.
  - unfold SLL.traversal. run_mem. simpl SLL.traversal_loop. run_mem.
    by rewrite lookup_delete_eq.
Qed.

Lemma sll_delete_end_only_node_dangles_witness :
  let c' := console one_node ++ [Printf "\nItem Deleted=%d\n" [5%Z]] in
  SLL.delete_end 1 (Some 1) one_node
  = Done (Some 1, World (delete 1 (heap one_node)) c') ∧
  delete 1 (heap one_node) !! 1 = None ∧
  SLL.traversal 1 (Some 1) (World (delete 1 (heap one_node)) c')
  = Crash BadDeref.
Proof.
  apply (sll_delete_end_only_node_dangles (heap one_node)
           (console one_node) 1 5 0 0).
  reflexivity.
Defined.

(** ** menu_linked.c: searching *)

Section Searching.
Implicit Types (h : gmap nat snode) (c : list event)
  (cells : list (nat * Z)).

(** The walk of [searching_sll] stops at the first node holding [item],
    having counted the nodes before it, or at [NULL]. *)
Lemma searching_loop_spec cells h c ptr item loc fuel :
  is_list h ptr cells → length cells < fuel →
  ((item ∉ values cells) ∧
   SLL.searching_loop fuel item ptr loc (World h c)
   = Done ((NULL, (loc + Z.of_nat (length cells))%Z), World h c)) ∨
  (∃ k a,
     cells !! k = Some (a, item) ∧
     (∀ j, j < k → values cells !! j ≠ Some item) ∧
     SLL.searching_loop fuel item ptr loc (World h c)
     = Done ((Some a, (loc + Z.of_nat k)%Z), World h c)).
Proof.
  revert ptr loc fuel.
  induction cells as [|[a v] rest IH]; intros ptr loc fuel Hl Hf;
    (destruct fuel as [|fuel]; [simpl in Hf; lia|]).
  - unfold is_list in Hl. simpl in Hl. subst ptr. left.
    split; [apply not_elem_of_nil|]. simpl. by rewrite Z.add_0_r.
  - apply chain_cons in Hl as [-> (nx & Ha & Hl)].
    destruct (decide (v = item)) as [->|Hv].
    + right. exists 0, a. split; [done|]. split; [intros j; lia|].
      simpl. run_mem. rewrite bool_decide_eq_true_2 by done.
      by rewrite Z.add_0_r.
    + assert (Hrun : SLL.searching_loop (S fuel) item (Some a) loc (World h c)
                     = SLL.searching_loop fuel item nx (loc + 1)%Z (World h c)).
      { simpl. run_mem. rewrite bool_decide_eq_false_2 by done. by run_mem. }
      rewrite Hrun.
      destruct (IH nx (loc + 1)%Z fuel Hl) as [[Hnot ->]|(k & b & Hk & Hfirst & ->)];
        [simpl in Hf; lia| |].
      * left. split.
        -- rewrite values_cons, not_elem_of_cons. done.
        -- do 3 f_equal. simpl length. lia.
      * right. exists (S k), b. split; [done|]. split.
        -- intros [|j] Hj; simpl; [congruence|]. apply Hfirst. lia.
        -- do 3 f_equal. lia.
Qed.

End Searching.

(** X6.  [searching_sll] of [menu_linked.c] reports the first occurrence,
    counted from 1: on a list shorter than the fuel it finishes without
    changing the heap, and either [item] is the payload of no node and it
    prints the unsuccessful-search line, or it prints [item] and the
    position [k + 1] of the first node holding it.  On the empty list it
    prints the unsuccessful-search line. *)
Theorem searching_sll_reports_first (h : gmap nat snode) (c : list event)
  (start : pointer) (cells : list (nat * Z)) (item : Z) (fuel : nat) :
  is_list h start cells →
  length cells < fuel →
  ((item ∉ values cells) ∧
   SLL.searching_sll fuel start item (World h c)
   = Done (tt, World h (c ++ [Printf "\nUnsuccsful Search.\n" []]))) ∨
  (∃ k,
     values cells !! k = Some item ∧
     (∀ j, j < k → values cells !! j ≠ Some item) ∧
     SLL.searching_sll fuel start item (World h c)
     = Done (tt, World h (c ++ [Printf "\n%d found at %d Node.\n"
                                  [item; Z.of_nat (S k)]]))).
Proof.
  intros Hl Hf. unfold SLL.searching_sll.
  destruct (searching_loop_spec cells h c start item 1 fuel Hl Hf)
    as [[Hnot Hrun]|(k & a & Hk & Hfirst & Hrun)].
  - left. split; [done|]. unfold bind. by rewrite Hrun.
  - right. exists k. split; [|split; [done|]].
    + unfold values. by rewrite list_lookup_fmap, Hk.
    + unfold bind. rewrite Hrun. simpl.
      replace (1 + Z.of_nat k)%Z with (Z.of_nat (S k)) by lia. done.
Qed.

Lemma searching_sll_reports_first_witness :
  ((20%Z ∉ values [(1, 10%Z); (2, 20%Z)]) ∧
   SLL.searching_sll 3 (Some 1) 20 (World (heap two_nodes) [])
   = Done (tt, World (heap two_nodes)
                 ([] ++ [Printf "\nUnsuccsful Search.\n" []]))) ∨
  (∃ k,
     values [(1, 10%Z); (2, 20%Z)] !! k = Some 20%Z ∧
     (∀ j, j < k → values [(1, 10%Z); (2, 20%Z)] !! j ≠ Some 20%Z) ∧
     SLL.searching_sll 3 (Some 1) 20 (World (heap two_nodes) [])
     = Done (tt, World (heap two_nodes)
                   ([] ++ [Printf "\n%d found at %d Node.\n"
                             [20%Z; Z.of_nat (S k)]]))).
Proof.
  apply (searching_sll_reports_first (heap two_nodes) [] (Some 1)
           [(1, 10%Z); (2, 20%Z)] 20 3).
  - vm_compute. tauto.
  - simpl. lia.
Defined.

(** ** menu_linked.c: sorting *)

Section Sorting.
Implicit Types (h : gmap nat snode) (c : list event) (ys vs : list Z)
  (ns : list nat).

Lemma least_le_member (m x : Z) ys :
  x ∈ m :: ys → Forall (Z.le m) ys → (m ≤ x)%Z.
Proof.
  intros Hin Hle. apply elem_of_cons in Hin as [->|Hin]; [lia|].
  by apply (proj1 (Forall_forall _ _) Hle).
Qed.

(** A pass leaves the least payload at [ptr1] and permutes the rest. *)
Lemma sift_spec ys x :
  (sift x ys).1 :: (sift x ys).2 ≡ₚ x :: ys ∧
  Forall (Z.le (sift x ys).1) (sift x ys).2 ∧
  length (sift x ys).2 = length ys.
Proof.
  revert x. induction ys as [|y ys IH]; intros x; [done|].
  simpl. case_bool_decide as Hxy.
  - destruct (IH y) as (Hp & Hle & Hlen). destruct (sift y ys) as [m ys'].
    simpl in *. split; [|split].
    + etrans; [apply perm_swap|]. by apply perm_skip.
    + constructor; [|done].
      assert (m ≤ y)%Z; [|lia].
      apply (least_le_member m y ys'); [|done].
      rewrite Hp. apply list_elem_of_here.
    + by rewrite Hlen.
  - destruct (IH x) as (Hp & Hle & Hlen). destruct (sift x ys) as [m ys'].
    simpl in *. split; [|split].
    + etrans; [apply perm_swap|]. etrans; [|apply perm_swap].
      by apply perm_skip.
    + constructor; [|done].
      assert (m ≤ x)%Z; [|lia].
      apply (least_le_member m x ys'); [|done].
      rewrite Hp. apply list_elem_of_here.
    + by rewrite Hlen.
Qed.

(** The cells at the addresses [ns] with the payloads [vs]. *)
Lemma addrs_zip ns vs : length ns = length vs → addrs (zip ns vs) = ns.
Proof. intros. unfold addrs. by apply fst_zip, Nat.eq_le_incl. Qed.

Lemma values_zip ns vs : length ns = length vs → values (zip ns vs) = vs.
Proof. intros H. unfold values. apply snd_zip. lia. Qed.

Lemma zip_addrs_values (cells : list (nat * Z)) :
  zip (addrs cells) (values cells) = cells.
Proof. unfold addrs, values. apply zip_fst_snd. Qed.

(** The inner loop: the payloads from [ptr2] on and the one at [ptr1] are
    sifted; links and all other blocks stay. *)
Lemma sorting_inner_spec ns : ∀ ys h c a1 x l1 ptr2 fuel,
  length ns = length ys →
  h !! a1 = Some (SNode x l1) →
  a1 ∉ ns →
  is_list h ptr2 (zip ns ys) →
  length ns < fuel →
  ∃ h',
    SLL.sorting_inner fuel (Some a1) ptr2 (World h c) = Done (tt, World h' c) ∧
    h' !! a1 = Some (SNode (sift x ys).1 l1) ∧
    is_list h' ptr2 (zip ns (sift x ys).2) ∧
    (∀ b, b ≠ a1 → b ∉ ns → h' !! b = h !! b).
Proof.
  induction ns as [|a2 ns IH]; intros ys h c a1 x l1 ptr2 fuel Hlen Ha1 Hnot Hl Hf;
    (destruct fuel as [|fuel]; [simpl in Hf; lia|]).
  - destruct ys; [|done]. unfold is_list in Hl. simpl in Hl. subst ptr2.
    exists h. by repeat split.
  - destruct ys as [|y ys]; [done|]. simpl in Hlen.
    pose proof (is_list_NoDup _ _ _ Hl) as Hnd.
    rewrite addrs_zip in Hnd by done.
    apply NoDup_cons in Hnd as [Ha2 Hnd].
    apply not_elem_of_cons in Hnot as [Hne Hnot].
    simpl in Hl. apply chain_cons in Hl as [-> (nx & Hy & Hl)].
    destruct (decide (x > y)%Z) as [Hxy|Hxy].
    + set (h2 := <[a2 := SNode x nx]> (<[a1 := SNode y l1]> h)).
      destruct (IH ys h2 c a1 y l1 nx fuel) as (h' & Hrun & H1 & Hl' & Hfr);
        [lia| | | |simpl in Hf; lia|].
      { unfold h2. rewrite lookup_insert_ne by done. apply lookup_insert_eq. }
      { done. }
      { unfold h2. apply chain_insert_fresh; [|by rewrite addrs_zip by lia].
        apply chain_insert_fresh; [done|]. by rewrite addrs_zip by lia. }
      exists h'. simpl sift. rewrite bool_decide_eq_true_2 by done.
      destruct (sift y ys) as [m ys'] eqn:Es. simpl in *.
      split; [|split; [done|split]].
      * run_mem. rewrite bool_decide_eq_true_2 by done. run_mem.
        fold h2. exact Hrun.
      * apply chain_cons. split; [done|]. exists nx. split; [|done].
        rewrite Hfr by done. apply lookup_insert_eq.
      * intros b Hb1 Hb2. apply not_elem_of_cons in Hb2 as [Hb2 Hb3].
        rewrite Hfr by done. unfold h2. by rewrite !lookup_insert_ne.
    + destruct (IH ys h c a1 x l1 nx fuel) as (h' & Hrun & H1 & Hl' & Hfr);
        [lia|done|done|done|simpl in Hf; lia|].
      exists h'. simpl sift. rewrite bool_decide_eq_false_2 by done.
      destruct (sift x ys) as [m ys'] eqn:Es. simpl in *.
      split; [|split; [done|split]].
      * run_mem. rewrite bool_decide_eq_false_2 by done. run_mem.
        exact Hrun.
      * apply chain_cons. split; [done|]. exists nx. split; [|done].
        by rewrite Hfr.
      * intros b Hb1 Hb2. apply not_elem_of_cons in Hb2 as [Hb2 Hb3].
        by apply Hfr.
Qed.

(** The outer loop sorts the payloads in place. *)
Lemma sorting_outer_spec ns : ∀ ys h c a1 fuel,
  length ns = length ys →
  is_list h (Some a1) (zip ns ys) →
  length ns < fuel →
  ∃ h' vs,
    SLL.sorting_outer fuel (Some a1) (World h c) = Done (tt, World h' c) ∧
    is_list h' (Some a1) (zip ns vs) ∧
    length vs = length ys ∧
    StronglySorted Z.le vs ∧
    vs ≡ₚ ys ∧
    (∀ b, b ∉ ns → h' !! b = h !! b).
Proof.
  induction ns as [|a ns IH]; intros ys h c a1 fuel Hlen Hl Hf;
    (destruct fuel as [|fuel]; [simpl in Hf; lia|]).
  - destruct ys; [|done]. by unfold is_list in Hl.
  - destruct ys as [|x ys]; [done|]. simpl in Hlen.
    pose proof (is_list_NoDup _ _ _ Hl) as Hnd.
    rewrite addrs_zip in Hnd by done.
    apply NoDup_cons in Hnd as [Ha Hnd].
    simpl in Hl. apply chain_cons in Hl as [[= <-] (nx & Hx & Hl)].
    destruct ns as [|a2 ns].
    + destruct ys; [|done]. simpl in Hl. subst nx.
      exists h, [x]. split; [simpl; by run_mem|].
      split; [apply chain_cons; split; [done|]; exists NULL; by split|].
      split; [done|]. split; [by repeat constructor|]. by split.
    + destruct ys as [|y ys]; [done|].
      pose proof Hl as Hl2. simpl in Hl2. apply chain_cons in Hl2 as [-> _].
      destruct (sorting_inner_spec (a2 :: ns) (y :: ys) h c a1 x (Some a2)
                  (Some a2) fuel) as (h1 & Hrun1 & H1 & Hl1 & Hfr1);
        [simpl in *; lia|done|done|done|simpl in *; lia|].
      pose proof (sift_spec (y :: ys) x) as (Hp & Hle & Hlen1).
      destruct (IH (sift x (y :: ys)).2 h1 c a2 fuel)
        as (h' & vs & Hrun & Hl' & Hlen' & Hs & Hp' & Hfr);
        [rewrite Hlen1; simpl in *; lia|done|simpl in *; lia|].
      exists h', ((sift x (y :: ys)).1 :: vs).
      split; [|split; [|split; [|split; [|split]]]].
      * simpl SLL.sorting_outer. run_mem. rewrite Hrun1. run_mem.
        exact Hrun.
      * simpl. apply chain_cons. split; [done|]. exists (Some a2).
        split; [|done]. by rewrite Hfr.
      * simpl. rewrite Hlen'. by rewrite Hlen1.
      * constructor; [done|]. by rewrite Hp'.
      * by rewrite Hp'.
      * intros b Hb. apply not_elem_of_cons in Hb as [Hb1 Hb2].
        rewrite Hfr by done. by apply Hfr1.
Qed.

End Sorting.

(** X7.  [sorting_sll] of [menu_linked.c] sorts a non-empty list in place:
    with fuel above the length it finishes and prints nothing; the nodes
    and their links are the same, and their payloads, read from [start],
    are in ascending order and a permutation of the payloads before.  On
    the empty list it dereferences [NULL]: the loop test reads
    [start->link] first. *)
Theorem sorting_sll_sorts (h : gmap nat snode) (c : list event)
  (start : pointer) (cells : list (nat * Z)) (fuel : nat) :
  cells ≠ [] →
  is_list h start cells →
  length cells < fuel →
  (∃ h' vs,
     SLL.sorting_sll fuel start (World h c) = Done (tt, World h' c) ∧
     is_list h' start (zip (addrs cells) vs) ∧
     length vs = length cells ∧
     StronglySorted Z.le vs ∧
     vs ≡ₚ values cells) ∧
  SLL.sorting_sll fuel NULL (World h c) = Crash NullDeref.
Proof.
  intros Hne Hl Hf. split.
  - destruct cells as [|[a v] rest]; [done|].
    pose proof Hl as Hl0. apply chain_cons in Hl0 as [-> _].
    rewrite <- (zip_addrs_values ((a, v) :: rest)) in Hl.
    destruct (sorting_outer_spec (addrs ((a, v) :: rest))
                (values ((a, v) :: rest)) h c a fuel)
      as (h' & vs & Hrun & Hl' & Hlen & Hs & Hp & _).
    + unfold addrs, values. by rewrite !length_fmap.
    + done.
    + unfold addrs. by rewrite length_fmap.
    + exists h', vs. split; [done|]. split; [done|].
      split; [|done]. unfold values in Hlen. by rewrite length_fmap in Hlen.
  - destruct fuel as [|fuel]; [lia|]. done.
Qed.

Lemma sorting_sll_sorts_witness :
  (∃ h' vs,
     SLL.sorting_sll 3 (Some 1) (World (heap two_nodes) [])
     = Done (tt, World h' []) ∧
     is_list h' (Some 1) (zip (addrs [(1, 10%Z); (2, 20%Z)]) vs) ∧
     length vs = length [(1, 10%Z); (2, 20%Z)] ∧
     StronglySorted Z.le vs ∧
     vs ≡ₚ values [(1, 10%Z); (2, 20%Z)]) ∧
  SLL.sorting_sll 3 NULL (World (heap two_nodes) []) = Crash NullDeref.
Proof.
  apply (sorting_sll_sorts (heap two_nodes) [] (Some 1)
           [(1, 10%Z); (2, 20%Z)] 3).
  - discriminate.
  - vm_compute. tauto.
  - simpl. lia.
Defined.

(** ** linked_delete.c: the other deletions *)

Section LinkedDeleteFacts.
Implicit Types (h : gmap nat snode) (c : list event)
  (cells front rest : list (nat * Z)).

(** The walk of [deleteAtEnd] stops with [q] at the last node and [p] at
    the node before it. *)
Lemma deleteAtEnd_loop_spec front h c a v b r vr q fuel :
  h !! a = Some (SNode v q) →
  is_list h q (front ++ [(r, vr)]) →
  last (a :: addrs front) = Some b →
  length front < fuel →
  LinkedDelete.deleteAtEnd_loop fuel (Some a) q (World h c)
  = Done ((Some b, Some r), World h c).
Proof.
  revert a v q fuel. induction front as [|[a' v'] front IH];
    intros a v q fuel Ha Hl Hlast Hf;
    (destruct fuel as [|fuel]; [simpl in Hf; lia|]).
  - simpl in Hlast. injection Hlast as <-.
    apply chain_cons in Hl as [-> (nx & Hr & Hl)]. simpl in Hl. subst nx.
    simpl. by run_mem.
  - rewrite <- app_comm_cons in Hl.
    apply chain_cons in Hl as [-> (nx & Ha' & Hl)].
    assert (∃ x, nx = Some x) as [x ->].
    { destruct front as [|[x u] front]; simpl in Hl;
        destruct Hl as [-> _]; by eexists. }
    rewrite addrs_cons, last_cons_cons in Hlast.
    simpl. run_mem.
    apply (IH a' v' (Some x) fuel Ha' Hl Hlast). simpl in Hf. lia.
Qed.

(** With [index] other than 1 the walk of [deleteAtIndex] leaves its loop
    only by running [q] off the end of the list. *)
Lemma deleteAtIndex_loop_runs_off rest h c a v q index fuel :
  index ≠ 1%Z →
  h !! a = Some (SNode v q) →
  is_list h q rest →
  LinkedDelete.deleteAtIndex_loop fuel index 0 (Some a) q (World h c)
  = if decide (fuel ≤ length rest) then OutOfFuel else Crash NullDeref.
Proof.
  intros Hidx. revert a v q fuel.
  induction rest as [|[a' v'] rest IH]; intros a v q fuel Ha Hl;
    (destruct fuel as [|fuel]; [done|]).
  - unfold is_list in Hl. simpl in Hl. subst q. simpl.
    rewrite bool_decide_eq_true_2 by lia. by run_mem.
  - apply chain_cons in Hl as [-> (nx & Ha' & Hl)]. simpl.
    rewrite bool_decide_eq_true_2 by lia. run_mem.
    rewrite (IH a' v' nx fuel Ha' Hl).
    repeat case_decide; done || lia.
Qed.

End LinkedDeleteFacts.

(** X8.  The delete functions of [linked_delete.c] do not test for a list
    that is too short.  On [NULL], [deleteAtFirst], [deleteAtEnd],
    [deleteAtIndex] and [deleteAtvalue] dereference [NULL] at once; on a
    list of one node, [deleteAtEnd], [deleteAtIndex] and [deleteAtvalue]
    set [q] to [head->next], which is [NULL], and dereference it. *)
Theorem linked_delete_short_list_crashes (h : gmap nat snode)
  (c : list event) (a : nat) (v value index : Z) (fuel : nat) :
  h !! a = Some (SNode v NULL) →
  LinkedDelete.deleteAtFirst NULL (World h c) = Crash NullDeref ∧
  LinkedDelete.deleteAtEnd fuel NULL (World h c) = Crash NullDeref ∧
  LinkedDelete.deleteAtIndex fuel NULL index (World h c) = Crash NullDeref ∧
  LinkedDelete.deleteAtvalue fuel NULL value (World h c) = Crash NullDeref ∧
  LinkedDelete.deleteAtEnd (S fuel) (Some a) (World h c) = Crash NullDeref ∧
  LinkedDelete.deleteAtIndex (S fuel) (Some a) index (World h c)
  = Crash NullDeref ∧
  LinkedDelete.deleteAtvalue (S fuel) (Some a) value (World h c)
  = Crash NullDeref.
Proof.
  intros Ha. repeat split; try done.
  - unfold LinkedDelete.deleteAtEnd. run_mem.
    simpl LinkedDelete.deleteAtEnd_loop. by run_mem.
  - unfold LinkedDelete.deleteAtIndex. run_mem.
    simpl LinkedDelete.deleteAtIndex_loop.
    case_bool_decide; by run_mem.
  - unfold LinkedDelete.deleteAtvalue. run_mem.
    simpl LinkedDelete.deleteAtvalue_loop. by run_mem.
Qed.

Lemma linked_delete_short_list_crashes_witness :
  LinkedDelete.deleteAtFirst NULL one_node = Crash NullDeref ∧
  LinkedDelete.deleteAtEnd 1 NULL one_node = Crash NullDeref ∧
  LinkedDelete.deleteAtIndex 1 NULL 1 one_node = Crash NullDeref ∧
  LinkedDelete.deleteAtvalue 1 NULL 5 one_node = Crash NullDeref ∧
  LinkedDelete.deleteAtEnd 2 (Some 1) one_node = Crash NullDeref ∧
  LinkedDelete.deleteAtIndex 2 (Some 1) 1 one_node = Crash NullDeref ∧
  LinkedDelete.deleteAtvalue 2 (Some 1) 5 one_node = Crash NullDeref.
Proof.
  apply (linked_delete_short_list_crashes (heap one_node) (console one_node)
           1 5 5 1 1).
  reflexivity.
Defined.

(** X9.  [deleteAtFirst] of [linked_delete.c] on a non-empty list frees
    the first node and returns the reference to the rest, which is the list
    of the remaining cells.  Nothing is printed. *)
Theorem deleteAtFirst_removes_first (h : gmap nat snode) (c : list event)
  (head : pointer) (a : nat) (v : Z) (rest : list (nat * Z)) :
  is_list h head ((a, v) :: rest) →
  ∃ head',
    LinkedDelete.deleteAtFirst head (World h c)
    = Done (head', World (delete a h) c) ∧
    is_list (delete a h) head' rest.
Proof.
  intros Hl. pose proof (is_list_NoDup _ _ _ Hl) as Hnd.
  rewrite addrs_cons in Hnd. apply NoDup_cons in Hnd as [Ha _].
  apply chain_cons in Hl as [-> (nx & Hlk & Hl)].
  exists nx. split.
  - unfold LinkedDelete.deleteAtFirst. by run_mem.
  - by apply chain_delete_fresh.
Qed.

Lemma deleteAtFirst_removes_first_witness :
  ∃ head',
    LinkedDelete.deleteAtFirst (Some 1) two_nodes
    = Done (head', World (delete 1 (heap two_nodes)) (console two_nodes)) ∧
    is_list (delete 1 (heap two_nodes)) head' [(2, 20%Z)].
Proof.
  apply (deleteAtFirst_removes_first (heap two_nodes) (console two_nodes)
           (Some 1) 1 10 [(2, 20%Z)]).
  vm_compute. tauto.
Defined.

(** X10.  [deleteAtEnd] of [linked_delete.c] on a list of two or more
    nodes, with fuel for the walk, frees the last node and leaves [head] at
    the list of the cells before it. *)
Theorem deleteAtEnd_removes_last (h : gmap nat snode) (c : list event)
  (head : pointer) (front : list (nat * Z)) (r : nat) (vr : Z)
  (fuel : nat) :
  front ≠ [] →
  is_list h head (front ++ [(r, vr)]) →
  length front ≤ fuel →
  ∃ h',
    LinkedDelete.deleteAtEnd fuel head (World h c)
    = Done (head, World h' c) ∧
    is_list h' head front ∧
    h' !! r = None.
Proof.
  intros Hne Hl Hf. pose proof (is_list_NoDup _ _ _ Hl) as Hnd.
  rewrite addrs_app in Hnd. apply NoDup_app in Hnd as (Hndf & Hr & _).
  destruct front as [|[a v] front]; [done|]. clear Hne.
  destruct (last (addrs ((a, v) :: front))) as [b|] eqn:Hlast;
    [|by apply last_None in Hlast].
  pose proof Hlast as Hlast0.
  apply last_Some in Hlast as [pre Hpre].
  destruct (addrs_snoc_inv _ _ _ Hpre) as (front' & vb & Hsplit & _).
  pose proof Hl as Hl1. rewrite Hsplit in Hl1.
  rewrite <- app_assoc in Hl1. simpl in Hl1.
  apply chain_app in Hl1 as (m & Hfront' & Hl1).
  apply chain_cons in Hl1 as [-> (nxb & Hb & Hl1)].
  apply chain_cons in Hl1 as [-> (nxr & Hrr & Hl1)]. simpl in Hl1. subst nxr.
  assert (Hbr : b ≠ r).
  { intros ->. apply (Hr r); [|apply list_elem_of_here].
    rewrite Hsplit, addrs_app. apply elem_of_app. right.
    apply list_elem_of_here. }
  rewrite <- app_comm_cons in Hl.
  apply chain_cons in Hl as [-> (q & Ha & Hl)].
  exists (delete r (<[b := SNode vb NULL]> h)). split; [|split].
  - unfold LinkedDelete.deleteAtEnd. run_mem.
    rewrite (deleteAtEnd_loop_spec front h c a v b r vr q fuel);
      [by run_mem|done|done|done|simpl in Hf; lia].
  - rewrite Hsplit. rewrite Hsplit in Hndf, Hr.
    rewrite addrs_app in Hndf. apply NoDup_app in Hndf as (_ & Hb' & _).
    unfold is_list. apply chain_app. exists (Some b). split.
    + apply chain_delete_fresh.
      * apply chain_insert_fresh; [done|]. intros Hin.
        by apply (Hb' b), list_elem_of_here.
      * intros Hin. apply (Hr r); [|apply list_elem_of_here].
        rewrite addrs_app. apply elem_of_app. by left.
    + apply chain_cons. split; [done|]. exists NULL. split; [|done].
      rewrite lookup_delete_ne by done. apply lookup_insert_eq.
  - apply lookup_delete_eq.
Qed.

Lemma deleteAtEnd_removes_last_witness :
  ∃ h',
    LinkedDelete.deleteAtEnd 1 (Some 1) two_nodes
    = Done (Some 1, World h' (console two_nodes)) ∧
    is_list h' (Some 1) [(1, 10%Z)] ∧
    h' !! 2 = None.
Proof.
  apply (deleteAtEnd_removes_last (heap two_nodes) (console two_nodes)
           (Some 1) [(1, 10%Z)] 2 20 1).
  - discriminate.
  - vm_compute. tauto.
  - simpl. lia.
Defined.

(** X11.  [deleteAtIndex] of [linked_delete.c] returns for index 1 only.
    Its loop changes neither [i] nor [index]: with index 1 the loop is
    skipped and, on a list of two or more nodes, the second node is freed
    and unlinked; with any other index the walk goes on until [q] has run
    off the list and then dereferences [NULL], so for no fuel does the call
    return. *)
Theorem deleteAtIndex_only_index_one (h : gmap nat snode) (c : list event)
  (a0 : nat) (v0 : Z) (a1 : nat) (v1 : Z) (rest : list (nat * Z))
  (index : Z) (fuel : nat) :
  is_list h (Some a0) ((a0, v0) :: (a1, v1) :: rest) →
  (∃ h',
     LinkedDelete.deleteAtIndex (S fuel) (Some a0) 1 (World h c)
     = Done (Some a0, World h' c) ∧
     is_list h' (Some a0) ((a0, v0) :: rest) ∧
     h' !! a1 = None) ∧
  (index ≠ 1%Z →
   ∀ fuel',
     LinkedDelete.deleteAtIndex fuel' (Some a0) index (World h c)
     = if decide (fuel' ≤ S (length rest)) then OutOfFuel
       else Crash NullDeref).
Proof.
  intros Hl. pose proof (is_list_NoDup _ _ _ Hl) as Hnd.
  rewrite !addrs_cons in Hnd.
  apply NoDup_cons in Hnd as [Ha0 Hnd]. apply NoDup_cons in Hnd as [Ha1 _].
  apply not_elem_of_cons in Ha0 as [Hne Ha0].
  apply chain_cons in Hl as [_ (q & H0 & Hl)].
  pose proof Hl as Hl'. apply chain_cons in Hl' as [-> (nx & H1 & Hrest)].
  split.
  - exists (delete a1 (<[a0 := SNode v0 nx]> h)). split; [|split].
    + unfold LinkedDelete.deleteAtIndex. run_mem.
      simpl LinkedDelete.deleteAtIndex_loop. by run_mem.
    + apply chain_cons. split; [done|]. exists nx. split.
      * rewrite lookup_delete_ne by done. apply lookup_insert_eq.
      * apply chain_delete_fresh; [|done]. by apply chain_insert_fresh.
    + apply lookup_delete_eq.
  - intros Hidx fuel'. unfold LinkedDelete.deleteAtIndex. run_mem.
    rewrite (deleteAtIndex_loop_runs_off ((a1, v1) :: rest) h c a0 v0
               (Some a1) index fuel' Hidx H0 Hl).
    simpl length. by case_decide.
Qed.

Lemma deleteAtIndex_only_index_one_witness :
  (∃ h',
     LinkedDelete.deleteAtIndex 1 (Some 1) 1 two_nodes
     = Done (Some 1, World h' (console two_nodes)) ∧
     is_list h' (Some 1) [(1, 10%Z)] ∧
     h' !! 2 = None) ∧
  (2%Z ≠ 1%Z →
   ∀ fuel',
     LinkedDelete.deleteAtIndex fuel' (Some 1) 2 two_nodes
     = if decide (fuel' ≤ S (length (@nil (nat * Z)))) then OutOfFuel
       else Crash NullDeref).
Proof.
  apply (deleteAtIndex_only_index_one (heap two_nodes) (console two_nodes)
           1 10 2 20 [] 2 0).
  vm_compute. tauto.
Defined.

(** ** linked_insert.c *)

Section LinkedInsertFacts.
Implicit Types (h : gmap nat snode) (c : list event)
  (cells front rest : list (nat * Z)).

(** The walk of [insertAtIndex] stops at the node [index - 1] links
    away. *)
Lemma insertAtIndex_loop_spec n : ∀ cells h c p b vb index i fuel,
  is_list h p cells →
  cells !! n = Some (b, vb) →
  (i + Z.of_nat n = index - 1)%Z →
  n < fuel →
  LinkedInsert.insertAtIndex_loop fuel index i p (World h c)
  = Done (Some b, World h c).
Proof.
  induction n as [|n IH]; intros cells h c p b vb index i fuel Hl Hn Hi Hf;
    (destruct fuel as [|fuel]; [lia|]);
    destruct cells as [|[a v] rest]; try done.
  - simpl in Hn. injection Hn as -> ->.
    apply chain_cons in Hl as [-> _]. simpl.
    by rewrite bool_decide_eq_false_2 by lia.
  - apply chain_cons in Hl as [-> (nx & Ha & Hl)]. simpl.
    rewrite bool_decide_eq_true_2 by lia. run_mem.
    apply (IH rest h c nx b vb); [done|done|lia|lia].
Qed.

(** With an index that is not between 1 and the length, the walk ends in a
    [NULL] dereference or with [p] at [NULL]. *)
Lemma insertAtIndex_loop_runs_off cells : ∀ h c p index i fuel,
  is_list h p cells →
  (index - 1 < i ∨ i + Z.of_nat (length cells) ≤ index - 1)%Z →
  length cells < fuel →
  match LinkedInsert.insertAtIndex_loop fuel index i p (World h c) with
  | Done (p', w') => p' = NULL
  | Crash f => f = NullDeref
  | OutOfFuel => False
  end.
Proof.
  induction cells as [|[a v] rest IH]; intros h c p index i fuel Hl Hi Hf;
    (destruct fuel as [|fuel]; [simpl in Hf; lia|]).
  - unfold is_list in Hl. simpl in Hl. subst p. simpl.
    case_bool_decide; by run_mem.
  - apply chain_cons in Hl as [-> (nx & Ha & Hl)]. simpl.
    rewrite bool_decide_eq_true_2 by (simpl length in Hi; lia). run_mem.
    apply IH; [done|simpl length in Hi; lia|simpl in Hf; lia].
Qed.

End LinkedInsertFacts.

(** X12.  [insertAtFirst] of [linked_insert.c] puts the new node in front
    of the list and returns it, changing no other block and printing
    nothing; it does not test the result of [malloc], and dereferences
    [NULL] when the allocation failed. *)
Theorem insertAtFirst_conses (h : gmap nat snode) (c : list event)
  (head : pointer) (cells : list (nat * Z)) (a : nat) (data : Z) :
  is_list h head cells →
  h !! a = None →
  LinkedInsert.insertAtFirst (Some a) head data (World h c)
  = Done (Some a, World (<[a := SNode data head]> h) c) ∧
  is_list (<[a := SNode data head]> h) (Some a) ((a, data) :: cells) ∧
  LinkedInsert.insertAtFirst NULL head data (World h c) = Crash NullDeref.
Proof.
  intros Hl Ha. split; [|split].
  - unfold LinkedInsert.insertAtFirst. by run_mem.
  - apply chain_cons. split; [done|]. exists head.
    split; [apply lookup_insert_eq|].
    apply chain_insert_fresh; [done|]. by eapply chain_fresh.
  - done.
Qed.

Lemma insertAtFirst_conses_witness :
  LinkedInsert.insertAtFirst (Some 3) (Some 1) 5 two_nodes
  = Done (Some 3,
          World (<[3 := SNode 5 (Some 1)]> (heap two_nodes))
            (console two_nodes)) ∧
  is_list (<[3 := SNode 5 (Some 1)]> (heap two_nodes)) (Some 3)
    ((3, 5%Z) :: [(1, 10%Z); (2, 20%Z)]) ∧
  LinkedInsert.insertAtFirst NULL (Some 1) 5 two_nodes = Crash NullDeref.
Proof.
  apply (insertAtFirst_conses (heap two_nodes) (console two_nodes)
           (Some 1) [(1, 10%Z); (2, 20%Z)] 3 5).
  - vm_compute. tauto.
  - reflexivity.
Defined.

(** With an index from 1 to the length, the new node is linked in after
    the first [index] nodes. *)
Lemma insertAtIndex_inserts_after (h : gmap nat snode) (c : list event)
  (head : pointer) (cells : list (nat * Z)) (a : nat) (data index : Z)
  (fuel : nat) :
  is_list h head cells →
  h !! a = None →
  (1 ≤ index ≤ Z.of_nat (length cells))%Z →
  Z.to_nat index ≤ fuel →
  ∃ h',
    LinkedInsert.insertAtIndex fuel (Some a) head data index (World h c)
    = Done (head, World h' c) ∧
    is_list h' head
      (take (Z.to_nat index) cells ++ (a, data)
         :: drop (Z.to_nat index) cells).
Proof.
  intros Hl Ha Hidx Hf.
  destruct (Z.to_nat index) as [|n] eqn:Ek; [lia|].
  destruct (lookup_lt_is_Some_2 cells n) as [[b vb] Hn]; [lia|].
  pose proof (is_list_NoDup _ _ _ Hl) as Hnd.
  pose proof (chain_fresh _ _ _ _ _ Hl Ha) as Hfresh.
  assert (Hl1 : is_list (<[a := SNode data NULL]> h) head cells)
    by by apply chain_insert_fresh.
  rewrite <- (take_drop_middle cells n (b, vb) Hn) in Hl, Hnd, Hfresh.
  rewrite addrs_app, addrs_cons in Hnd, Hfresh.
  apply NoDup_app in Hnd as (_ & Hpre & Hnd).
  apply NoDup_cons in Hnd as [Hb _].
  apply chain_app in Hl as (m & Hfront & Hl).
  apply chain_cons in Hl as [-> (nx & Hlk & Hrest)].
  assert (Hba : b ≠ a).
  { intros ->. apply Hfresh, elem_of_app. right. apply list_elem_of_here. }
  exists (<[b := SNode vb (Some a)]> (<[a := SNode data nx]> h)). split.
  - unfold LinkedInsert.insertAtIndex. run_mem.
    rewrite (insertAtIndex_loop_spec n cells _ _ head b vb index 0 fuel Hl1 Hn)
      by lia.
    by run_mem.
  - rewrite (take_S_r cells n (b, vb) Hn), <- app_assoc. simpl.
    unfold is_list. apply chain_app. exists (Some b). split.
    + apply chain_insert_fresh.
      * apply chain_insert_fresh; [done|]. intros Hin.
        apply Hfresh, elem_of_app. by left.
      * intros Hin. by apply (Hpre b), list_elem_of_here.
    + apply chain_cons. split; [done|]. exists (Some a).
      split; [apply lookup_insert_eq|].
      apply chain_cons. split; [done|]. exists nx. split.
      * rewrite lookup_insert_ne by done. apply lookup_insert_eq.
      * apply chain_insert_fresh; [|done].
        apply chain_insert_fresh; [done|]. intros Hin.
        apply Hfresh, elem_of_app. right. by apply list_elem_of_further.
Qed.

(** With any other index the call dereferences [NULL]. *)
Lemma insertAtIndex_out_of_range_crashes (h : gmap nat snode)
  (c : list event) (head : pointer) (cells : list (nat * Z)) (a : nat)
  (data index : Z) (fuel : nat) :
  is_list h head cells →
  h !! a = None →
  (index ≤ 0 ∨ Z.of_nat (length cells) < index)%Z →
  length cells < fuel →
  LinkedInsert.insertAtIndex fuel (Some a) head data index (World h c)
  = Crash NullDeref.
Proof.
  intros Hl Ha Hidx Hf.
  assert (Hl1 : is_list (<[a := SNode data NULL]> h) head cells).
  { apply chain_insert_fresh; [done|]. by eapply chain_fresh. }
  pose proof (insertAtIndex_loop_runs_off cells _ c head index 0 fuel Hl1
                ltac:(lia) Hf) as Hrun.
  unfold LinkedInsert.insertAtIndex. run_mem.
  destruct (LinkedInsert.insertAtIndex_loop fuel index 0 head _)
    as [[p' w']|f|]; [subst p'|by subst f|done].
  done.
Qed.

(** X13.  [insertAtIndex] of [linked_insert.c] works for an index from 1
    to the length of the list and for no other.  With fuel above the
    length: for such an index the new node is linked in after the first
    [index] nodes, so it is the node at position [index] counted from 0,
    and [head] is returned unchanged; for an index of 0 or less, or greater
    than the length, there is no bounds check and the walk, or the
    assignment after it, dereferences [NULL]. *)
Theorem insertAtIndex_in_range_only (h : gmap nat snode) (c : list event)
  (head : pointer) (cells : list (nat * Z)) (a : nat) (data index : Z)
  (fuel : nat) :
  is_list h head cells →
  h !! a = None →
  length cells < fuel →
  ((1 ≤ index ≤ Z.of_nat (length cells))%Z →
   ∃ h',
     LinkedInsert.insertAtIndex fuel (Some a) head data index (World h c)
     = Done (head, World h' c) ∧
     is_list h' head
       (take (Z.to_nat index) cells ++ (a, data)
          :: drop (Z.to_nat index) cells)) ∧
  ((index ≤ 0 ∨ Z.of_nat (length cells) < index)%Z →
   LinkedInsert.insertAtIndex fuel (Some a) head data index (World h c)
   = Crash NullDeref).
Proof.
  intros Hl Ha Hf. split.
  - intros Hidx. apply insertAtIndex_inserts_after; [done|done|done|lia].
  - intros Hidx. by apply (insertAtIndex_out_of_range_crashes _ _ _ cells).
Qed.

Lemma insertAtIndex_in_range_only_witness :
  ((1 ≤ 1 ≤ Z.of_nat (length [(1, 10%Z); (2, 20%Z)]))%Z →
   ∃ h',
     LinkedInsert.insertAtIndex 3 (Some 3) (Some 1) 5 1 two_nodes
     = Done (Some 1, World h' (console two_nodes)) ∧
     is_list h' (Some 1)
       (take (Z.to_nat 1) [(1, 10%Z); (2, 20%Z)] ++ (3, 5%Z)
          :: drop (Z.to_nat 1) [(1, 10%Z); (2, 20%Z)])) ∧
  ((1 ≤ 0 ∨ Z.of_nat (length [(1, 10%Z); (2, 20%Z)]) < 1)%Z →
   LinkedInsert.insertAtIndex 3 (Some 3) (Some 1) 5 1 two_nodes
   = Crash NullDeref).
Proof.
  apply (insertAtIndex_in_range_only (heap two_nodes) (console two_nodes)
           (Some 1) [(1, 10%Z); (2, 20%Z)] 3 5 1 3).
  - vm_compute. tauto.
  - reflexivity.
  - simpl. lia.
Defined.

(** X14.  [insertAtEnd] of [linked_insert.c] appends to a non-empty list:
    with fuel for the walk the new node becomes the last one and [head] is
    returned unchanged.  There is no test for the empty list: on [NULL] the
    walk dereferences [NULL]. *)
Theorem insertAtEnd_appends (h : gmap nat snode) (c : list event)
  (head : pointer) (front : list (nat * Z)) (r : nat) (vr : Z) (a : nat)
  (data : Z) (fuel : nat) :
  is_list h head (front ++ [(r, vr)]) →
  h !! a = None →
  length front < fuel →
  (∃ h',
     LinkedInsert.insertAtEnd fuel (Some a) head data (World h c)
     = Done (head, World h' c) ∧
     is_list h' head (front ++ [(r, vr); (a, data)])) ∧
  LinkedInsert.insertAtEnd fuel (Some a) NULL data (World h c)
  = Crash NullDeref.
Proof.
  intros Hl Ha Hf. split.
  - pose proof (is_list_NoDup _ _ _ Hl) as Hnd.
    rewrite addrs_app in Hnd. apply NoDup_app in Hnd as (_ & Hr & _).
    pose proof (chain_fresh _ _ _ _ _ Hl Ha) as Hfresh.
    assert (Hl1 : is_list (<[a := SNode data NULL]> h) head
                    (front ++ [(r, vr)]))
      by by apply chain_insert_fresh.
    assert (Hra : r ≠ a).
    { intros ->. apply Hfresh. rewrite addrs_app.
      apply elem_of_app. right. apply list_elem_of_here. }
    apply chain_app in Hl as (m & Hfront & Hlast).
    apply chain_cons in Hlast as [-> (nx & Hlk & ->)].
    exists (<[a := SNode data NULL]>
              (<[r := SNode vr (Some a)]> (<[a := SNode data NULL]> h))).
    split.
    + unfold LinkedInsert.insertAtEnd. run_mem.
      assert (Hloop : LinkedInsert.insertAtEnd_loop fuel head
                        (World (<[a := SNode data NULL]> h) c)
                      = Done (Some r, World (<[a := SNode data NULL]> h) c)).
      { apply (last_loop_spec front _ _ _ r vr fuel Hl1 Hf). }
      change (link sblank) with NULL. rewrite Hloop. by run_mem.
    + unfold is_list. apply chain_app. exists (Some r). split.
      * apply chain_insert_fresh; [apply chain_insert_fresh|].
        -- apply chain_insert_fresh; [done|]. intros Hin. apply Hfresh.
           rewrite addrs_app. apply elem_of_app. by left.
        -- intros Hin. by apply (Hr r), list_elem_of_here.
        -- intros Hin. apply Hfresh.
           rewrite addrs_app. apply elem_of_app. by left.
      * apply chain_cons. split; [done|]. exists (Some a). split.
        -- rewrite lookup_insert_ne by done. apply lookup_insert_eq.
        -- apply chain_cons. split; [done|]. exists NULL.
           split; [apply lookup_insert_eq|done].
  - destruct fuel as [|fuel]; [lia|].
    unfold LinkedInsert.insertAtEnd. run_mem.
    simpl LinkedInsert.insertAtEnd_loop. by run_mem.
Qed.

Lemma insertAtEnd_appends_witness :
  (∃ h',
     LinkedInsert.insertAtEnd 2 (Some 3) (Some 1) 5 two_nodes
     = Done (Some 1, World h' (console two_nodes)) ∧
     is_list h' (Some 1) ([(1, 10%Z)] ++ [(2, 20%Z); (3, 5%Z)])) ∧
  LinkedInsert.insertAtEnd 2 (Some 3) NULL 5 two_nodes = Crash NullDeref.
Proof.
  apply (insertAtEnd_appends (heap two_nodes) (console two_nodes)
           (Some 1) [(1, 10%Z)] 2 20 3 5 2).
  - vm_compute. tauto.
  - reflexivity.
  - simpl. lia.
Defined.

(** ** linked_stack_menu.c and linked_queue_menu.c: display and
    composition *)

Section Display.
Implicit Types (h : gmap nat snode) (c : list event)
  (cells : list (nat * Z)).

Lemma peep_loop_spec cells h c ptr fuel :
  is_list h ptr cells → length cells < fuel →
  Stack.peep_loop fuel ptr (World h c)
  = Done (tt, World h (c ++ printed (values cells))).
Proof.
  revert c ptr fuel.
  induction cells as [|[a v] rest IH]; intros c ptr fuel Hl Hf;
    (destruct fuel as [|fuel]; [simpl in Hf; lia|]).
  - unfold is_list in Hl. simpl in Hl. subst ptr. simpl.
    by rewrite app_nil_r.
  - apply chain_cons in Hl as [-> (nx & Hlk & Hl)].
    simpl. run_mem.
    rewrite (IH _ _ _ Hl) by (simpl in Hf; lia).
    by rewrite <- app_assoc.
Qed.

Lemma queue_traverse_loop_spec cells h c ptr fuel :
  is_list h ptr cells → length cells < fuel →
  Queue.traverse_loop fuel ptr (World h c)
  = Done (tt, World h (c ++ printed (values cells))).
Proof.
  revert c ptr fuel.
  induction cells as [|[a v] rest IH]; intros c ptr fuel Hl Hf;
    (destruct fuel as [|fuel]; [simpl in Hf; lia|]).
  - unfold is_list in Hl. simpl in Hl. subst ptr. simpl.
    by rewrite app_nil_r.
  - apply chain_cons in Hl as [-> (nx & Hlk & Hl)].
    simpl. run_mem.
    rewrite (IH _ _ _ Hl) by (simpl in Hf; lia).
    by rewrite <- app_assoc.
Qed.

End Display.

(** X15.  In [linked_stack_menu.c] a [pop] undoes a [push]: from any [top]
    and any heap, pushing [item] into a free block and popping gives back
    the same [top] and the same heap, and prints [item] as the deleted
    item. *)
Theorem stack_push_pop_round_trip (h : gmap nat snode) (c : list event)
  (top : pointer) (a : nat) (item : Z) :
  h !! a = None →
  (top <- Stack.push (Some a) item top ;; Stack.pop top) (World h c)
  = Done (top,
          World h (c ++ [Printf "enter item to be inserted" [];
                         Printf "deleted item is:%d\n" [item]])).
Proof.
  intros Ha.
  rewrite (bind_Done _ _ _ _ _ (push_spec _ _ _ _ _)).
  erewrite pop_spec by apply lookup_insert_eq.
  by rewrite delete_insert_id, <- app_assoc.
Qed.

Lemma stack_push_pop_round_trip_witness :
  (top <- Stack.push (Some 3) 7 (Some 1) ;; Stack.pop top)
    (World (heap two_nodes) [])
  = Done (Some 1,
          World (heap two_nodes)
            ([] ++ [Printf "enter item to be inserted" [];
                    Printf "deleted item is:%d\n" [7%Z]])).
Proof.
  apply (stack_push_pop_round_trip (heap two_nodes) [] (Some 1) 3 7).
  reflexivity.
Defined.

(** X16.  [peep] of [linked_stack_menu.c] shows the stack top first.  After
    a [push] of [item] onto a stack holding [cells], [peep] with fuel above
    the new height prints the header, [item], then the payloads of [cells]
    from the old top down, then the newline, and leaves the stack as
    [push] made it; on the empty stack [peep] prints [stack is empty]. *)
Theorem stack_peep_after_push (h : gmap nat snode) (c : list event)
  (top : pointer) (cells : list (nat * Z)) (a : nat) (item : Z)
  (fuel : nat) :
  is_list h top cells →
  h !! a = None →
  S (length cells) < fuel →
  (top <- Stack.push (Some a) item top ;;
   Stack.peep fuel top ;;; ret top) (World h c)
  = Done (Some a,
          World (<[a := SNode item top]> h)
            (c ++ [Printf "enter item to be inserted" [];
                   Printf "list of the stack are:" []]
               ++ printed (item :: values cells) ++ [Printf "\n" []])) ∧
  is_list (<[a := SNode item top]> h) (Some a) ((a, item) :: cells) ∧
  Stack.peep fuel NULL (World h c)
  = Done (tt, World h (c ++ [Printf "stack is empty" []])).
Proof.
  intros Hl Ha Hf.
  assert (Hl' : is_list (<[a := SNode item top]> h) (Some a)
                  ((a, item) :: cells)).
  { apply chain_cons. split; [done|]. exists top.
    split; [apply lookup_insert_eq|].
    apply chain_insert_fresh; [done|]. by eapply chain_fresh. }
  split; [|split; [done|done]].
  rewrite (bind_Done _ _ _ _ _ (push_spec _ _ _ _ _)).
  unfold Stack.peep. run_step.
  rewrite (peep_loop_spec _ _ _ _ _ Hl') by (simpl; lia).
  run_step. by rewrite <- !app_assoc.
Qed.

Lemma stack_peep_after_push_witness :
  (top <- Stack.push (Some 3) 7 (Some 1) ;;
   Stack.peep 4 top ;;; ret top) (World (heap two_nodes) [])
  = Done (Some 3,
          World (<[3 := SNode 7 (Some 1)]> (heap two_nodes))
            ([] ++ [Printf "enter item to be inserted" [];
                    Printf "list of the stack are:" []]
               ++ printed (7%Z :: values [(1, 10%Z); (2, 20%Z)])
               ++ [Printf "\n" []])) ∧
  is_list (<[3 := SNode 7 (Some 1)]> (heap two_nodes)) (Some 3)
    ((3, 7%Z) :: [(1, 10%Z); (2, 20%Z)]) ∧
  Stack.peep 4 NULL (World (heap two_nodes) [])
  = Done (tt, World (heap two_nodes) ([] ++ [Printf "stack is empty" []])).
Proof.
  apply (stack_peep_after_push (heap two_nodes) [] (Some 1)
           [(1, 10%Z); (2, 20%Z)] 3 7 4).
  - vm_compute. tauto.
  - reflexivity.
  - simpl. lia.
Defined.

(** X17.  The queue of [linked_queue_menu.c] shows the new element last.
    After [enqueue] of [item] into a queue holding [cells], [traverse] with
    fuel above the new length prints the header, the payloads of [cells]
    from the front on, then [item], then the newline. *)
Theorem queue_traverse_after_enqueue (h : gmap nat snode) (c : list event)
  (fr : pointer * pointer) (cells : list (nat * Z)) (a : nat) (item : Z)
  (fuel : nat) :
  is_queue h fr cells →
  h !! a = None →
  S (length cells) < fuel →
  ∃ fr' h',
    (fr' <- Queue.enqueue (Some a) item fr ;;
     Queue.traverse fuel fr'.1 ;;; ret fr') (World h c)
    = Done (fr',
            World h'
              (c ++ [Printf "enter item to be inserted" [];
                     Printf "elements in the queue are:" []]
                 ++ printed (values cells ++ [item]) ++ [Printf "\n" []])) ∧
    is_queue h' fr' (cells ++ [(a, item)]).
Proof.
  intros Hq Ha Hf.
  destruct (enqueue_spec h c fr cells a item Hq Ha) as (h' & Hrun & Hq').
  eexists _, h'. split; [|exact Hq'].
  rewrite (bind_Done _ _ _ _ _ Hrun).
  destruct Hq' as [Hl' _]. unfold Queue.traverse. run_step.
  rewrite (queue_traverse_loop_spec _ _ _ _ _ Hl')
    by (rewrite length_app; simpl; lia).
  run_step. rewrite values_app. simpl. by rewrite <- !app_assoc.
Qed.

Lemma queue_traverse_after_enqueue_witness :
  ∃ fr' h',
    (fr' <- Queue.enqueue (Some 2) 6 (Some 1, Some 1) ;;
     Queue.traverse 3 fr'.1 ;;; ret fr') (World (heap one_in_queue) [])
    = Done (fr',
            World h'
              ([] ++ [Printf "enter item to be inserted" [];
                      Printf "elements in the queue are:" []]
                 ++ printed (values [(1, 5%Z)] ++ [6%Z])
                 ++ [Printf "\n" []])) ∧
    is_queue h' fr' ([(1, 5%Z)] ++ [(2, 6%Z)]).
Proof.
  apply (queue_traverse_after_enqueue (heap one_in_queue) []
           (Some 1, Some 1) [(1, 5%Z)] 2 6 3).
  - vm_compute. tauto.
  - reflexivity.
  - simpl. lia.
Defined.

(** X18.  [dequeue] of [linked_queue_menu.c] frees the front node only
    when another node follows it: from a queue of two or more the block of
    the first cell is gone from the heap, while taking out the only element
    sets [front] and [rear] to [NULL] and leaves its block allocated.
    Neither case prints anything. *)
Theorem dequeue_frees_unless_last (h : gmap nat snode) (c : list event)
  (fr : pointer * pointer) (a : nat) (v : Z) (rest : list (nat * Z)) :
  is_queue h fr ((a, v) :: rest) →
  ∃ fr',
    Queue.dequeue fr (World h c)
    = Done (fr', World (if decide (rest = []) then h else delete a h) c) ∧
    is_queue (if decide (rest = []) then h else delete a h) fr' rest ∧
    (rest = [] → fr' = (NULL, NULL) ∧ h !! a = Some (SNode v NULL)).
Proof.
  destruct fr as [front rear]. intros [Hl Hrear]. simpl in *.
  pose proof (is_list_NoDup _ _ _ Hl) as Hnd.
  rewrite addrs_cons in Hnd. apply NoDup_cons in Hnd as [Hnotin _].
  apply chain_cons in Hl as [-> (nx & Ha & Hl)].
  destruct rest as [|[b u] rest].
  - simpl in Hl, Hrear. subst. rewrite decide_True by done.
    exists (NULL, NULL). split; [|done].
    unfold Queue.dequeue. by run_step.
  - rewrite decide_False by done.
    pose proof Hl as Hl1. apply chain_cons in Hl1 as [-> _].
    rewrite !addrs_cons, last_cons_cons in Hrear.
    destruct (last (b :: addrs rest)) as [x|] eqn:E;
      [|by apply last_None in E].
    assert (Hxa : x ≠ a).
    { intros ->. by apply Hnotin, last_Some_elem_of. }
    subst rear. exists (Some b, Some x). split; [|split; [|done]].
    + unfold Queue.dequeue. run_step.
      rewrite (ptr_eqb_ne (Some a) (Some x)) by congruence.
      by run_mem.
    + split; [by apply chain_delete_fresh|].
      by rewrite addrs_cons, E.
Qed.

Lemma dequeue_frees_unless_last_witness :
  ∃ fr',
    Queue.dequeue (Some 1, Some 1) (World (heap one_in_queue) [])
    = Done (fr',
            World (if decide (@nil (nat * Z) = []) then heap one_in_queue
                   else delete 1 (heap one_in_queue)) []) ∧
    is_queue (if decide (@nil (nat * Z) = []) then heap one_in_queue
              else delete 1 (heap one_in_queue)) fr' [] ∧
    (@nil (nat * Z) = [] →
     fr' = (NULL, NULL) ∧ heap one_in_queue !! 1 = Some (SNode 5 NULL)).
Proof.
  apply (dequeue_frees_unless_last (heap one_in_queue) [] (Some 1, Some 1)
           1 5 []).
  vm_compute. tauto.
Defined.

(** ** Doubly linked segments *)

Section Segments.
Implicit Types (h : gmap nat dnode) (c : list event) (p q before : pointer)
  (cells front rest : list (nat * Z)).

Lemma dseg_cons h before p a v rest q :
  dseg h before p ((a, v) :: rest) q ↔
  p = Some a ∧
  ∃ nx, h !! a = Some (DNode v before nx) ∧ dseg h (Some a) nx rest q.
Proof.
  simpl. split.
  - intros [-> H]. split; [done|].
    destruct (h !! a) as [[i pv nx]|]; [|done].
    destruct H as (<- & <- & H). by exists nx.
  - intros [-> (nx & -> & H)]. done.
Qed.

Lemma dchain_dseg h before p cells :
  dchain h before p cells ↔ dseg h before p cells NULL.
Proof.
  revert before p. induction cells as [|[a v] rest IH]; intros before p;
    [done|].
  simpl. destruct (h !! a); [|done]. by rewrite IH.
Qed.

Lemma dseg_app h before p l1 l2 q :
  dseg h before p (l1 ++ l2) q ↔
  ∃ m, dseg h before p l1 m ∧ dseg h (end_ptr before l1) m l2 q.
Proof.
  revert before p. induction l1 as [|[a v] l1 IH]; intros before p.
  - simpl. split; [intros H; by exists p|by intros (m & -> & H)].
  - rewrite <- app_comm_cons, dseg_cons, end_ptr_cons. split.
    + intros [-> (nx & Ha & H)]. apply IH in H as (m & H1 & H2).
      exists m. rewrite dseg_cons. eauto.
    + intros (m & H1 & H2). apply dseg_cons in H1 as [-> (nx & Ha & H1)].
      split; [done|]. exists nx. split; [done|]. apply IH. eauto.
Qed.

Lemma dseg_frame h h' before p cells q :
  (∀ a, a ∈ addrs cells → h' !! a = h !! a) →
  dseg h before p cells q → dseg h' before p cells q.
Proof.
  revert before p. induction cells as [|[a v] rest IH];
    intros before p Hsame; [done|].
  rewrite !dseg_cons. intros [-> (nx & Ha & H)]. split; [done|].
  exists nx. split.
  - rewrite Hsame; [done|]. rewrite addrs_cons. apply list_elem_of_here.
  - apply IH; [|done]. intros b Hb. apply Hsame.
    rewrite addrs_cons. by apply list_elem_of_further.
Qed.

Lemma dseg_insert_fresh h before p cells q a x :
  dseg h before p cells q → a ∉ addrs cells →
  dseg (<[a := x]> h) before p cells q.
Proof.
  intros Hc Ha. eapply dseg_frame; [|exact Hc].
  intros b Hb. apply lookup_insert_ne. by intros ->.
Qed.

Lemma dseg_delete_fresh h before p cells q a :
  dseg h before p cells q → a ∉ addrs cells →
  dseg (delete a h) before p cells q.
Proof.
  intros Hc Ha. eapply dseg_frame; [|exact Hc].
  intros b Hb. apply lookup_delete_ne. by intros ->.
Qed.

Lemma dseg_allocated h before p cells q a :
  dseg h before p cells q → a ∈ addrs cells → is_Some (h !! a).
Proof.
  revert before p. induction cells as [|[b v] rest IH]; intros before p.
  - intros _ H. by apply elem_of_nil in H.
  - rewrite dseg_cons. intros [-> (nx & Hb & H)].
    rewrite addrs_cons, elem_of_cons.
    intros [->|Hin]; [by eexists|]. by eapply IH.
Qed.

Lemma dseg_fresh h before p cells q a :
  dseg h before p cells q → h !! a = None → a ∉ addrs cells.
Proof.
  intros Hc Ha Hin. destruct (dseg_allocated _ _ _ _ _ _ Hc Hin). congruence.
Qed.

(** The [next] links of a segment form a chain of the singly linked
    kind. *)
Lemma dseg_chain h before p cells q :
  dseg h before p cells q →
  chain ((λ n, SNode (dinfo n) (next n)) <$> h) p cells q.
Proof.
  revert before p. induction cells as [|[a v] rest IH]; intros before p;
    [done|].
  rewrite dseg_cons, chain_cons. intros [-> (nx & Ha & H)].
  split; [done|]. exists nx. split; [|by eapply IH].
  by rewrite lookup_fmap, Ha.
Qed.

Lemma is_dlist_NoDup h start cells :
  is_dlist h start cells → NoDup (addrs cells).
Proof.
  intros H. apply dchain_dseg, dseg_chain in H.
  by eapply is_list_NoDup.
Qed.

(** Where a segment starts. *)
Lemma dseg_start h before p cells q :
  dseg h before p cells q → p = match cells with
                                | [] => q
                                | (a, _) :: _ => Some a
                                end.
Proof. destruct cells as [|[a v] rest]; simpl; [done|]. by intros [-> _]. Qed.

End Segments.

(** ** menu_DLL.c: insertion, deletion and display *)

Section DLLFacts.
Implicit Types (h : gmap nat dnode) (c : list event) (p q before : pointer)
  (cells front rest : list (nat * Z)).

Lemma dll_last_loop_spec front h c before p r vr fuel :
  dseg h before p (front ++ [(r, vr)]) NULL → length front < fuel →
  DLL.last_loop fuel p (World h c) = Done (Some r, World h c).
Proof.
  revert before p fuel.
  induction front as [|[a v] front IH]; intros before p fuel Hl Hf;
    (destruct fuel as [|fuel]; [simpl in Hf; lia|]).
  - apply dseg_cons in Hl as [-> (nx & Ha & Hl)]. simpl in Hl. subst nx.
    simpl. by run_mem.
  - rewrite <- app_comm_cons in Hl.
    apply dseg_cons in Hl as [-> (nx & Ha & Hl)].
    assert (∃ b, nx = Some b) as [b ->].
    { destruct front as [|[b u] front]; simpl in Hl;
        destruct Hl as [-> _]; by eexists. }
    simpl. run_mem. eapply IH; [done|simpl in Hf; lia].
Qed.

Lemma dll_end_loop_spec front h c before a v b r vr fuel prev0 :
  dseg h before (Some a) ((a, v) :: front ++ [(r, vr)]) NULL →
  last (a :: addrs front) = Some b →
  length front < fuel →
  DLL.end_loop (S fuel) (Some a) prev0 (World h c)
  = Done ((Some r, Some b), World h c).
Proof.
  revert before a v prev0 fuel. induction front as [|[a' v'] front IH];
    intros before a v prev0 fuel Hl Hlast Hf.
  - simpl in Hlast. injection Hlast as <-.
    apply dseg_cons in Hl as [_ (nx & Ha & Hl)].
    apply dseg_cons in Hl as [-> (nx' & Hr & Hl)]. simpl in Hl. subst nx'.
    destruct fuel as [|fuel]; [lia|]. simpl. by run_mem.
  - apply dseg_cons in Hl as [_ (nx & Ha & Hl)].
    rewrite <- app_comm_cons in Hl. pose proof Hl as Hl'.
    apply dseg_cons in Hl' as [-> _].
    destruct fuel as [|fuel]; [simpl in Hf; lia|].
    rewrite addrs_cons, last_cons_cons in Hlast.
    simpl DLL.end_loop. run_mem.
    apply (IH (Some a) a' v' (Some a) fuel Hl Hlast). simpl in Hf. lia.
Qed.


End DLLFacts.

(** X19.  [insert_beg] of [menu_DLL.c] keeps the list doubly linked: on a
    list and a free block it returns the new node, whose [prev] is [NULL]
    and whose [next] is the old first node, the old first node now has the
    new node as [prev], and the result is the list with the new cell
    first. *)
Theorem dll_insert_beg_conses (h : gmap nat dnode) (c : list event)
  (start : pointer) (cells : list (nat * Z)) (a : nat) (item : Z) :
  is_dlist h start cells →
  h !! a = None →
  ∃ h',
    DLL.insert_beg (Some a) item start (World h c)
    = Done (Some a, World h' (c ++ [Printf "enter item to be inserted:" []])) ∧
    is_dlist h' (Some a) ((a, item) :: cells).
Proof.
  intros Hl Ha. pose proof (is_dlist_NoDup _ _ _ Hl) as Hnd.
  apply dchain_dseg in Hl. pose proof (dseg_fresh _ _ _ _ _ _ Hl Ha) as Hfr.
  destruct cells as [|[s vs] rest].
  - simpl in Hl. subst start.
    exists (<[a := DNode item NULL NULL]> h). split.
    + unfold DLL.insert_beg. by run_mem.
    + apply dchain_dseg, dseg_cons. split; [done|]. exists NULL.
      split; [apply lookup_insert_eq|done].
  - apply dseg_cons in Hl as [-> (nx & Hs & Hl)].
    rewrite addrs_cons in Hnd, Hfr. apply NoDup_cons in Hnd as [Hs' _].
    apply not_elem_of_cons in Hfr as [Hne Hfr].
    exists (<[s := DNode vs (Some a) nx]> (<[a := DNode item NULL (Some s)]> h)).
    split.
    + unfold DLL.insert_beg. by run_mem.
    + apply dchain_dseg, dseg_cons. split; [done|]. exists (Some s). split.
      * rewrite lookup_insert_ne by done. apply lookup_insert_eq.
      * apply dseg_cons. split; [done|]. exists nx.
        split; [apply lookup_insert_eq|].
        by apply dseg_insert_fresh; [apply dseg_insert_fresh|].
Qed.

Lemma dll_insert_beg_conses_witness :
  ∃ h',
    DLL.insert_beg (Some 9) 7 (Some 1) dll_of_3
    = Done (Some 9,
            World h' (console dll_of_3
                        ++ [Printf "enter item to be inserted:" []])) ∧
    is_dlist h' (Some 9) ((9, 7%Z) :: [(1, 10%Z); (2, 20%Z); (3, 30%Z)]).
Proof.
  apply (dll_insert_beg_conses (heap dll_of_3) (console dll_of_3) (Some 1)
           [(1, 10%Z); (2, 20%Z); (3, 30%Z)] 9 7).
  - vm_compute. tauto.
  - reflexivity.
Defined.

(** X20.  [insert_end] of [menu_DLL.c] appends and keeps the list doubly
    linked: with fuel for the walk the new node comes last, its [prev] is
    the old last node, and [start] moves only when the list was empty. *)
Theorem dll_insert_end_appends (h : gmap nat dnode) (c : list event)
  (start : pointer) (cells : list (nat * Z)) (a : nat) (item : Z)
  (fuel : nat) :
  is_dlist h start cells →
  h !! a = None →
  length cells ≤ fuel →
  ∃ h',
    DLL.insert_end fuel (Some a) item start (World h c)
    = Done (if decide (cells = []) then Some a else start,
            World h' (c ++ [Printf "enter item to be insert:" []])) ∧
    is_dlist h' (if decide (cells = []) then Some a else start)
      (cells ++ [(a, item)]).
Proof.
  intros Hl Ha Hf. pose proof (is_dlist_NoDup _ _ _ Hl) as Hnd.
  apply dchain_dseg in Hl. pose proof (dseg_fresh _ _ _ _ _ _ Hl Ha) as Hfr.
  destruct cells as [|x front _] using rev_ind.
  - simpl in Hl. subst start.
    exists (<[a := DNode item NULL NULL]> h). split.
    + unfold DLL.insert_end. by run_mem.
    + apply dchain_dseg, dseg_cons. split; [done|]. exists NULL.
      split; [apply lookup_insert_eq|done].
  - destruct x as [r vr].
    destruct (decide (front ++ [(r, vr)] = [])) as [E|_];
      [by destruct front|].
    rewrite addrs_app in Hnd, Hfr. apply NoDup_app in Hnd as (_ & Hr & _).
    assert (Hl1 : dseg (<[a := DNode item NULL NULL]> h) NULL start
                    (front ++ [(r, vr)]) NULL).
    { apply dseg_insert_fresh; [done|]. by rewrite addrs_app. }
    assert (Hra : r ≠ a).
    { intros ->. apply Hfr, elem_of_app. right. apply list_elem_of_here. }
    assert (Hstart : start ≠ NULL).
    { apply dseg_start in Hl. destruct front as [|[b u] front]; by subst. }
    apply dseg_app in Hl as (m & Hfront & Hlast).
    apply dseg_cons in Hlast as [-> (nx & Hlk & ->)].
    exists (<[a := DNode item (Some r) NULL]>
              (<[r := DNode vr (end_ptr NULL front) (Some a)]>
                 (<[a := DNode item NULL NULL]> h))).
    split.
    + unfold DLL.insert_end. run_mem.
      rewrite (ptr_eqb_ne start NULL) by done. run_mem.
      rewrite (dll_last_loop_spec front _ _ NULL start r vr fuel Hl1)
        by (rewrite length_app in Hf; simpl in Hf; lia).
      by run_mem.
    + apply dchain_dseg. rewrite <- app_assoc. simpl.
      apply dseg_app. exists (Some r). split.
      * apply dseg_insert_fresh; [apply dseg_insert_fresh|].
        -- apply dseg_insert_fresh; [done|]. intros Hin.
           apply Hfr, elem_of_app. by left.
        -- intros Hin. by apply (Hr r), list_elem_of_here.
        -- intros Hin. apply Hfr, elem_of_app. by left.
      * apply dseg_cons. split; [done|]. exists (Some a). split.
        -- rewrite lookup_insert_ne by done. apply lookup_insert_eq.
        -- apply dseg_cons. split; [done|]. exists NULL.
           split; [apply lookup_insert_eq|done].
Qed.

Lemma dll_insert_end_appends_witness :
  ∃ h',
    DLL.insert_end 3 (Some 9) 7 (Some 1) dll_of_3
    = Done (if decide ([(1, 10%Z); (2, 20%Z); (3, 30%Z)] = []) then Some 9
            else Some 1,
            World h' (console dll_of_3
                        ++ [Printf "enter item to be insert:" []])) ∧
    is_dlist h'
      (if decide ([(1, 10%Z); (2, 20%Z); (3, 30%Z)] = []) then Some 9
       else Some 1)
      ([(1, 10%Z); (2, 20%Z); (3, 30%Z)] ++ [(9, 7%Z)]).
Proof.
  apply (dll_insert_end_appends (heap dll_of_3) (console dll_of_3) (Some 1)
           [(1, 10%Z); (2, 20%Z); (3, 30%Z)] 9 7 3).
  - vm_compute. tauto.
  - reflexivity.
  - simpl. lia.
Defined.

(** X21.  [delete_beg] of [menu_DLL.c] on a list of two or more nodes
    prints the first payload, frees the first node, and returns the second
    node with its [prev] set to [NULL]: the result is the doubly linked
    list of the remaining cells. *)
Theorem dll_delete_beg_removes_first (h : gmap nat dnode) (c : list event)
  (start : pointer) (a : nat) (v : Z) (b : nat) (u : Z)
  (rest : list (nat * Z)) :
  is_dlist h start ((a, v) :: (b, u) :: rest) →
  ∃ h',
    DLL.delete_beg start (World h c)
    = Done (Some b, World h' (c ++ [Printf "Deleted item is %d" [v]])) ∧
    is_dlist h' (Some b) ((b, u) :: rest) ∧
    h' !! a = None.
Proof.
  intros Hl. pose proof (is_dlist_NoDup _ _ _ Hl) as Hnd.
  rewrite !addrs_cons in Hnd.
  apply NoDup_cons in Hnd as [Ha Hnd]. apply NoDup_cons in Hnd as [Hb _].
  apply not_elem_of_cons in Ha as [Hab Ha].
  apply dchain_dseg in Hl.
  apply dseg_cons in Hl as [-> (nx & Hlk & Hl)].
  apply dseg_cons in Hl as [-> (nxb & Hlkb & Hl)].
  exists (delete a (<[b := DNode u NULL nxb]> h)). split; [|split].
  - unfold DLL.delete_beg. by run_mem.
  - apply dchain_dseg, dseg_cons. split; [done|]. exists nxb. split.
    + rewrite lookup_delete_ne by done. apply lookup_insert_eq.
    + apply dseg_delete_fresh; [|done]. by apply dseg_insert_fresh.
  - apply lookup_delete_eq.
Qed.

Lemma dll_delete_beg_removes_first_witness :
  ∃ h',
    DLL.delete_beg (Some 1) dll_of_3
    = Done (Some 2,
            World h' (console dll_of_3
                        ++ [Printf "Deleted item is %d" [10%Z]])) ∧
    is_dlist h' (Some 2) ((2, 20%Z) :: [(3, 30%Z)]) ∧
    h' !! 1 = None.
Proof.
  apply (dll_delete_beg_removes_first (heap dll_of_3) (console dll_of_3)
           (Some 1) 1 10 2 20 [(3, 30%Z)]).
  vm_compute. tauto.
Defined.

(** X22.  [delete_end] of [menu_DLL.c] on a list of two or more nodes, with
    fuel for the walk and whatever the unassigned [prev] held, prints the
    last payload, frees the last node and sets [next] of the node before it
    to [NULL]: [start] is unchanged and the result is the doubly linked
    list of the cells before the last. *)
Theorem dll_delete_end_removes_last (h : gmap nat dnode) (c : list event)
  (start junk : pointer) (front : list (nat * Z)) (r : nat) (vr : Z)
  (fuel : nat) :
  front ≠ [] →
  is_dlist h start (front ++ [(r, vr)]) →
  length front < fuel →
  ∃ h',
    DLL.delete_end fuel junk start (World h c)
    = Done (start, World h' (c ++ [Printf "deleted item is %d" [vr]])) ∧
    is_dlist h' start front ∧
    h' !! r = None.
Proof.
  intros Hne Hl Hf. pose proof (is_dlist_NoDup _ _ _ Hl) as Hnd.
  apply dchain_dseg in Hl.
  rewrite addrs_app in Hnd. apply NoDup_app in Hnd as (Hndf & Hr & _).
  destruct front as [|[a v] front]; [done|]. clear Hne.
  destruct (last (addrs ((a, v) :: front))) as [b|] eqn:Hlast;
    [|by apply last_None in Hlast].
  pose proof Hl as Hl0. rewrite <- app_comm_cons in Hl0.
  apply dseg_cons in Hl0 as [-> _].
  destruct fuel as [|fuel]; [simpl in Hf; lia|].
  pose proof Hlast as Hlast0.
  apply last_Some in Hlast as [pre Hpre].
  destruct (addrs_snoc_inv _ _ _ Hpre) as (front' & vb & Hsplit & _).
  pose proof Hl as Hl1. rewrite Hsplit in Hl1.
  rewrite <- app_assoc in Hl1. simpl in Hl1.
  apply dseg_app in Hl1 as (m & Hfront' & Hl1).
  apply dseg_cons in Hl1 as [-> (nxb & Hb & Hl1)].
  apply dseg_cons in Hl1 as [-> (nxr & Hrr & Hl1)]. simpl in Hl1. subst nxr.
  assert (Hbr : b ≠ r).
  { intros ->. apply (Hr r); [|apply list_elem_of_here].
    rewrite Hsplit, addrs_app. apply elem_of_app. right.
    apply list_elem_of_here. }
  exists (delete r (<[b := DNode vb (end_ptr NULL front') NULL]> h)).
  split; [|split].
  - unfold DLL.delete_end. run_mem.
    rewrite (dll_end_loop_spec front h c NULL a v b r vr fuel junk);
      [by run_mem|done|done|simpl in Hf; lia].
  - rewrite Hsplit. rewrite Hsplit in Hndf, Hr.
    rewrite addrs_app in Hndf. apply NoDup_app in Hndf as (_ & Hb' & _).
    apply dchain_dseg, dseg_app. exists (Some b). split.
    + apply dseg_delete_fresh.
      * apply dseg_insert_fresh; [done|]. intros Hin.
        by apply (Hb' b), list_elem_of_here.
      * intros Hin. apply (Hr r); [|apply list_elem_of_here].
        rewrite addrs_app. apply elem_of_app. by left.
    + apply dseg_cons. split; [done|]. exists NULL. split; [|done].
      rewrite lookup_delete_ne by done. apply lookup_insert_eq.
  - apply lookup_delete_eq.
Qed.

Lemma dll_delete_end_removes_last_witness :
  ∃ h',
    DLL.delete_end 3 NULL (Some 1) dll_of_3
    = Done (Some 1,
            World h' (console dll_of_3
                        ++ [Printf "deleted item is %d" [30%Z]])) ∧
    is_dlist h' (Some 1) [(1, 10%Z); (2, 20%Z)] ∧
    h' !! 3 = None.
Proof.
  apply (dll_delete_end_removes_last (heap dll_of_3) (console dll_of_3)
           (Some 1) NULL [(1, 10%Z); (2, 20%Z)] 3 30 3).
  - discriminate.
  - vm_compute. tauto.
  - simpl. lia.
Defined.

(** X23.  [delete_end] of [menu_DLL.c] on a list of one node never gives
    the empty list.  Its loop body does not run, so [prev] keeps the value
    it was declared with: when that is [NULL] the assignment to
    [prev->next] dereferences [NULL]; and whenever the call returns, it
    returns the address of the node it has just freed. *)
Theorem dll_delete_end_only_node (h : gmap nat dnode) (c : list event)
  (a : nat) (v : Z) (junk : pointer) (fuel : nat) :
  h !! a = Some (DNode v NULL NULL) →
  DLL.delete_end (S fuel) NULL (Some a) (World h c) = Crash NullDeref ∧
  ∀ s w',
    DLL.delete_end (S fuel) junk (Some a) (World h c) = Done (s, w') →
    s = Some a ∧ heap w' !! a = None.
Proof.
  intros Ha. split.
  - unfold DLL.delete_end. run_mem. simpl DLL.end_loop. by run_mem.
  - intros s w'. unfold DLL.delete_end. run_mem. simpl DLL.end_loop.
    run_mem. destruct junk as [j|]; [|done].
    destruct (h !! j) as [n|] eqn:Hj; [|done]. run_step.
    destruct (decide (j = a)) as [->|Hne].
    + rewrite lookup_insert_eq. run_step. intros [= <- <-]. simpl.
      split; [done|]. apply lookup_delete_eq.
    + rewrite lookup_insert_ne by done. rewrite Ha. run_step.
      intros [= <- <-]. simpl. split; [done|]. apply lookup_delete_eq.
Qed.

Lemma dll_delete_end_only_node_witness :
  DLL.delete_end 1 NULL (Some 1)
    (World (<[1 := DNode 5 NULL NULL]> ∅) []) = Crash NullDeref ∧
  ∀ s w',
    DLL.delete_end 1 (Some 1) (Some 1)
      (World (<[1 := DNode 5 NULL NULL]> ∅) []) = Done (s, w') →
    s = Some 1 ∧ heap w' !! 1 = None.
Proof.
  apply (dll_delete_end_only_node (<[1 := DNode 5 NULL NULL]> ∅) [] 1 5
           (Some 1) 0).
  reflexivity.
Defined.



(** ** CDLL.c: the ring under insertion and deletion *)

(** Two results that differ only in the order of the writes to the heap. *)
Ltac same_heap :=
  f_equal; f_equal; f_equal; apply map_eq; intros ?;
  rewrite ?lookup_delete, ?lookup_insert;
  repeat (rewrite ?lookup_delete, ?lookup_insert; case_decide);
  congruence.

Section CDLLFacts.
Implicit Types (h : gmap nat dnode) (c : list event) (p q before : pointer)
  (cells mid rest : list (nat * Z)).

Lemma last_cons_snoc {A} (x : A) l y : last (x :: l ++ [y]) = Some y.
Proof. by rewrite app_comm_cons, last_snoc. Qed.

(** A ring of one node. *)
Lemma is_dring_one h start s vs :
  is_dring h start [(s, vs)] ↔
  start = Some s ∧ h !! s = Some (DNode vs (Some s) (Some s)).
Proof.
  unfold is_dring. split.
  - intros (_ & _ & H). apply dseg_cons in H as [-> (nx & Hs & H)].
    simpl in H. by subst nx.
  - intros [-> Hs]. split; [done|]. split; [apply NoDup_singleton|].
    apply dseg_cons. split; [done|]. by exists (Some s).
Qed.

(** A ring of two or more nodes, seen from its first and its last node. *)
Lemma is_dring_more h start s vs mid l vl :
  is_dring h start ((s, vs) :: mid ++ [(l, vl)]) ↔
  start = Some s ∧ NoDup (s :: addrs mid ++ [l]) ∧
  ∃ nx,
    h !! s = Some (DNode vs (Some l) nx) ∧
    dseg h (Some s) nx mid (Some l) ∧
    h !! l = Some (DNode vl (end_ptr (Some s) mid) (Some s)).
Proof.
  unfold is_dring. rewrite addrs_cons, addrs_app.
  change (addrs [(l, vl)]) with [l]. rewrite last_cons_snoc.
  split.
  - intros (_ & Hnd & H). apply dseg_cons in H as [-> (nx & Hs & H)].
    apply dseg_app in H as (m & Hmid & Hl).
    apply dseg_cons in Hl as [-> (nx' & Hl & Hend)]. simpl in Hend.
    subst nx'. split; [done|]. split; [done|]. by exists nx.
  - intros (-> & Hnd & nx & Hs & Hmid & Hl).
    split; [done|]. split; [done|].
    apply dseg_cons. split; [done|]. exists nx. split; [done|].
    apply dseg_app. exists (Some l). split; [done|].
    apply dseg_cons. split; [done|]. by exists (Some s).
Qed.

Lemma cdll_traverse_loop_spec rest h c before s ptr fuel :
  dseg h before ptr rest (Some s) → s ∉ addrs rest → length rest < fuel →
  CDLL.traverse_loop fuel (Some s) ptr (World h c)
  = Done (tt, World h (c ++ printed (values rest))).
Proof.
  revert c before ptr fuel.
  induction rest as [|[a v] rest IH]; intros c before ptr fuel Hl Hs Hf;
    (destruct fuel as [|fuel]; [simpl in Hf; lia|]).
  - simpl in Hl. subst ptr. simpl. run_step. by rewrite app_nil_r.
  - apply dseg_cons in Hl as [-> (nx & Hlk & Hl)].
    rewrite addrs_cons in Hs. apply not_elem_of_cons in Hs as [Hne Hs].
    simpl. rewrite (ptr_eqb_ne (Some a) (Some s)) by congruence. run_mem.
    rewrite (IH _ _ _ _ Hl Hs) by (simpl in Hf; lia).
    by rewrite <- app_assoc.
Qed.

(** [traverse] goes once round the ring. *)
Lemma cdll_traverse_spec cells h c start fuel :
  is_dring h start cells → length cells ≤ fuel →
  CDLL.traverse fuel start (World h c)
  = Done (tt, World h (c ++ Printf "CDLL contains ..." []
                         :: printed (values cells))).
Proof.
  intros (Hne & Hnd & Hl) Hf. destruct cells as [|[s vs] rest]; [done|].
  apply dseg_cons in Hl as [-> (nx & Hs & Hl)].
  rewrite addrs_cons in Hnd. apply NoDup_cons in Hnd as [Hs' _].
  unfold CDLL.traverse. run_mem.
  rewrite (cdll_traverse_loop_spec rest _ _ _ s nx fuel Hl Hs')
    by (simpl in Hf; lia).
  by rewrite <- !app_assoc.
Qed.

End CDLLFacts.

(** X25.  [insert_beg] of [CDLL.c] keeps a ring a ring: on a well-formed
    ring and a free block it returns the new node, and the result is the
    ring with the new cell first, linked both ways; the [traverse] that
    [main] runs next prints [item] and then the old payloads. *)
Theorem cdll_insert_beg_keeps_ring (h : gmap nat dnode) (c : list event)
  (start : pointer) (cells : list (nat * Z)) (a : nat) (item : Z)
  (fuel : nat) :
  is_dring h start cells →
  h !! a = None →
  S (length cells) ≤ fuel →
  ∃ h',
    (start <- CDLL.insert_beg (Some a) item start ;;
     CDLL.traverse fuel start ;;; ret start) (World h c)
    = Done (Some a,
            World h' (c ++ [Printf "enter item to be inserted" [];
                            Printf "CDLL contains ..." []]
                        ++ printed (item :: values cells))) ∧
    is_dring h' (Some a) ((a, item) :: cells).
Proof.
  intros Hring Ha Hf. pose proof Hring as (Hne & Hnd & Hseg).
  pose proof (dseg_fresh _ _ _ _ _ _ Hseg Ha) as Hfr.
  destruct cells as [|[s vs] rest]; [done|].
  assert (∃ h',
            CDLL.insert_beg (Some a) item start (World h c)
            = Done (Some a,
                    World h' (c ++ [Printf "enter item to be inserted" []])) ∧
            is_dring h' (Some a) ((a, item) :: (s, vs) :: rest))
    as (h' & Hrun & Hring').
  { destruct rest as [|[l vl] mid _] using rev_ind.
    - apply is_dring_one in Hring as [-> Hs].
      rewrite addrs_cons in Hfr. apply not_elem_of_cons in Hfr as [Has _].
      exists (<[s := DNode vs (Some a) (Some a)]>
                (<[a := DNode item (Some s) (Some s)]> h)).
      split; [unfold CDLL.insert_beg; run_mem; same_heap|].
      apply (is_dring_more _ _ a item [] s vs). split; [done|]. split.
      { simpl. apply NoDup_cons. split; [|apply NoDup_singleton].
        rewrite list_elem_of_singleton. done. }
      exists (Some s). split; [|split; [done|]].
      + rewrite lookup_insert_ne by done. apply lookup_insert_eq.
      + apply lookup_insert_eq.
    - apply is_dring_more in Hring as (-> & Hnd' & nx & Hs & Hmid & Hl).
      rewrite addrs_cons, addrs_app in Hfr.
      apply not_elem_of_cons in Hfr as [Has Hfr].
      apply not_elem_of_app in Hfr as [Hamid Hal].
      simpl in Hal. apply not_elem_of_cons in Hal as [Hal _].
      apply NoDup_cons in Hnd' as [Hs' Hnd'].
      apply not_elem_of_app in Hs' as [Hsmid Hsl].
      apply not_elem_of_cons in Hsl as [Hsl _].
      apply NoDup_app in Hnd' as (Hndmid & Hmidl & _).
      assert (Hlmid : l ∉ addrs mid).
      { intros Hin. by apply (Hmidl l), list_elem_of_here. }
      exists (<[s := DNode vs (Some a) nx]>
                (<[a := DNode item (Some l) (Some s)]>
                   (<[l := DNode vl (end_ptr (Some s) mid) (Some a)]> h))).
      split.
      + unfold CDLL.insert_beg. run_mem. same_heap.
      + rewrite (app_comm_cons mid [(l, vl)] (s, vs)).
        apply is_dring_more. split; [done|]. split.
        { rewrite addrs_cons. simpl. apply NoDup_cons. split.
          - rewrite elem_of_cons, elem_of_app, list_elem_of_singleton.
            intros [?|[?|?]]; done.
          - apply NoDup_cons. split.
            + rewrite elem_of_app, list_elem_of_singleton.
              intros [?|?]; done.
            + apply NoDup_app. by split; [|split; [|apply NoDup_singleton]]. }
        exists (Some s). split; [|split].
        * rewrite lookup_insert_ne by done. apply lookup_insert_eq.
        * apply dseg_cons. split; [done|]. exists nx.
          split; [apply lookup_insert_eq|].
          by repeat apply dseg_insert_fresh.
        * rewrite end_ptr_cons.
          rewrite !lookup_insert_ne by done. apply lookup_insert_eq. }
  exists h'. split; [|done].
  rewrite (bind_Done _ _ _ _ _ Hrun). unfold bind.
  rewrite (cdll_traverse_spec _ _ _ _ fuel Hring') by (simpl in *; lia).
  unfold ret. by rewrite <- !app_assoc.
Qed.

(** A ring or list over a concrete heap, by evaluation. *)
Ltac shape_by_evaluation :=
  repeat split;
  first [ discriminate
        | apply (bool_decide_unpack _); vm_compute; exact I
        | vm_compute; tauto ].

Lemma cdll_insert_beg_keeps_ring_witness :
  ∃ h',
    (start <- CDLL.insert_beg (Some 9) 7 (Some 1) ;;
     CDLL.traverse 3 start ;;; ret start) (World (heap cdll_of_2) [])
    = Done (Some 9,
            World h' ([] ++ [Printf "enter item to be inserted" [];
                             Printf "CDLL contains ..." []]
                         ++ printed (7%Z :: values [(1, 10%Z); (2, 20%Z)]))) ∧
    is_dring h' (Some 9) ((9, 7%Z) :: [(1, 10%Z); (2, 20%Z)]).
Proof.
  apply (cdll_insert_beg_keeps_ring (heap cdll_of_2) [] (Some 1)
           [(1, 10%Z); (2, 20%Z)] 9 7 3).
  - shape_by_evaluation.
  - reflexivity.
  - simpl. lia.
Defined.

(** X26.  [insert_end] of [CDLL.c] keeps a ring a ring: on a well-formed
    ring and a free block it returns [start] unchanged, and the result is
    the ring with the new cell last, linked both ways; in particular
    [start->prev] is the new node. *)
Theorem cdll_insert_end_keeps_ring (h : gmap nat dnode) (c : list event)
  (start : pointer) (cells : list (nat * Z)) (a : nat) (item : Z) :
  is_dring h start cells →
  h !! a = None →
  ∃ h',
    CDLL.insert_end (Some a) item start (World h c)
    = Done (start, World h' (c ++ [Printf "enter item to be inserted" []])) ∧
    is_dring h' start (cells ++ [(a, item)]) ∧
    get_prev start (World h' c) = Done (Some a, World h' c).
Proof.
  intros Hring Ha. pose proof Hring as (Hne & Hnd & Hseg).
  pose proof (dseg_fresh _ _ _ _ _ _ Hseg Ha) as Hfr.
  destruct cells as [|[s vs] rest]; [done|].
  destruct rest as [|[l vl] mid _] using rev_ind.
  - apply is_dring_one in Hring as [-> Hs].
    rewrite addrs_cons in Hfr. apply not_elem_of_cons in Hfr as [Has _].
    exists (<[s := DNode vs (Some a) (Some a)]>
              (<[a := DNode item (Some s) (Some s)]> h)).
    split; [unfold CDLL.insert_end; run_mem; same_heap|].
    split; [|by run_mem].
    apply (is_dring_more _ _ s vs [] a item). split; [done|]. split.
    { simpl. apply NoDup_cons. split; [|apply NoDup_singleton].
      rewrite list_elem_of_singleton. done. }
    exists (Some a). split; [apply lookup_insert_eq|]. split; [done|].
    rewrite lookup_insert_ne by done. apply lookup_insert_eq.
  - apply is_dring_more in Hring as (-> & Hnd' & nx & Hs & Hmid & Hl).
    rewrite addrs_cons, addrs_app in Hfr.
    apply not_elem_of_cons in Hfr as [Has Hfr].
    apply not_elem_of_app in Hfr as [Hamid Hal].
    simpl in Hal. apply not_elem_of_cons in Hal as [Hal _].
    pose proof Hnd' as Hnd0.
    apply NoDup_cons in Hnd' as [Hs' Hnd'].
    apply not_elem_of_app in Hs' as [Hsmid Hsl].
    apply not_elem_of_cons in Hsl as [Hsl _].
    apply NoDup_app in Hnd' as (Hndmid & Hmidl & _).
    assert (Hlmid : l ∉ addrs mid).
    { intros Hin. by apply (Hmidl l), list_elem_of_here. }
    exists (<[s := DNode vs (Some a) nx]>
              (<[a := DNode item (Some l) (Some s)]>
                 (<[l := DNode vl (end_ptr (Some s) mid) (Some a)]> h))).
    split; [unfold CDLL.insert_end; run_mem; same_heap|].
    split; [|by run_mem].
    rewrite <- app_comm_cons.
    apply (is_dring_more _ _ s vs (mid ++ [(l, vl)]) a item).
    split; [done|]. split.
    { rewrite addrs_app. change (addrs [(l, vl)]) with [l].
      rewrite app_comm_cons. apply NoDup_app. split; [done|].
      split; [|apply NoDup_singleton].
      intros x Hx Hxa. apply list_elem_of_singleton in Hxa as ->.
      apply elem_of_cons in Hx as [?|Hx]; [done|].
      apply elem_of_app in Hx as [?|Hx]; [done|].
      by apply list_elem_of_singleton in Hx. }
    exists nx. split; [apply lookup_insert_eq|]. split.
    + apply dseg_app. exists (Some l). split.
      * by repeat apply dseg_insert_fresh.
      * apply dseg_cons. split; [done|]. exists (Some a). split; [|done].
        rewrite !lookup_insert_ne by done. apply lookup_insert_eq.
    + rewrite end_ptr_snoc.
      rewrite lookup_insert_ne by done. apply lookup_insert_eq.
Qed.

Lemma cdll_insert_end_keeps_ring_witness :
  ∃ h',
    CDLL.insert_end (Some 9) 7 (Some 1) (World (heap cdll_of_2) [])
    = Done (Some 1,
            World h' ([] ++ [Printf "enter item to be inserted" []])) ∧
    is_dring h' (Some 1) ([(1, 10%Z); (2, 20%Z)] ++ [(9, 7%Z)]) ∧
    get_prev (Some 1) (World h' []) = Done (Some 9, World h' []).
Proof.
  apply (cdll_insert_end_keeps_ring (heap cdll_of_2) [] (Some 1)
           [(1, 10%Z); (2, 20%Z)] 9 7).
  - shape_by_evaluation.
  - reflexivity.
Defined.

(** X27.  [delete_beg] of [CDLL.c] on a ring of two or more nodes prints
    the first payload, frees the first node and returns the second: the
    result is the ring of the remaining cells, the last node linking on to
    the new first node and the new first node back to the last. *)
Theorem cdll_delete_beg_keeps_ring (h : gmap nat dnode) (c : list event)
  (start : pointer) (a : nat) (v : Z) (b : nat) (u : Z)
  (rest : list (nat * Z)) :
  is_dring h start ((a, v) :: (b, u) :: rest) →
  ∃ h',
    CDLL.delete_beg start (World h c)
    = Done (Some b, World h' (c ++ [Printf "deleted item is: %d" [v]])) ∧
    is_dring h' (Some b) ((b, u) :: rest) ∧
    h' !! a = None.
Proof.
  intros Hring.
  destruct rest as [|[l vl] mid _] using rev_ind.
  - apply (is_dring_more _ _ a v [] b u) in Hring
      as (-> & Hnd & nx & Ha & Hmid & Hb).
    simpl in Hmid. subst nx. simpl in Hnd, Hb.
    apply NoDup_cons in Hnd as [Hab _].
    assert (Hab' : a ≠ b) by (intros ->; apply Hab, list_elem_of_here).
    exists (delete a (<[b := DNode u (Some b) (Some b)]> h)).
    split; [unfold CDLL.delete_beg; run_mem; same_heap|].
    split; [|apply lookup_delete_eq].
    apply is_dring_one. split; [done|].
    rewrite lookup_delete_ne by done. apply lookup_insert_eq.
  - rewrite !app_comm_cons in Hring.
    apply (is_dring_more _ _ a v ((b, u) :: mid) l vl) in Hring
      as (-> & Hnd & nx & Ha & Hmid & Hl).
    apply dseg_cons in Hmid as [-> (nxb & Hb & Hmid)].
    rewrite end_ptr_cons in Hl.
    rewrite addrs_cons in Hnd. simpl in Hnd.
    apply NoDup_cons in Hnd as [Ha' Hnd].
    apply not_elem_of_cons in Ha' as [Hab Ha'].
    apply not_elem_of_app in Ha' as [Hamid Hal].
    apply not_elem_of_cons in Hal as [Hal _].
    pose proof Hnd as Hnd0.
    apply NoDup_cons in Hnd as [Hb' Hnd].
    apply not_elem_of_app in Hb' as [Hbmid Hbl].
    apply not_elem_of_cons in Hbl as [Hbl _].
    apply NoDup_app in Hnd as (Hndmid & Hmidl & _).
    assert (Hlmid : l ∉ addrs mid).
    { intros Hin. by apply (Hmidl l), list_elem_of_here. }
    exists (delete a (<[b := DNode u (Some l) nxb]>
                        (<[l := DNode vl (end_ptr (Some b) mid) (Some b)]> h))).
    split; [unfold CDLL.delete_beg; by run_mem|].
    split; [|apply lookup_delete_eq].
    apply is_dring_more. split; [done|]. split; [done|].
    exists nxb. split; [|split].
    + rewrite lookup_delete_ne by done. apply lookup_insert_eq.
    + apply dseg_delete_fresh; [|done]. by repeat apply dseg_insert_fresh.
    + rewrite lookup_delete_ne, lookup_insert_ne by done.
      apply lookup_insert_eq.
Qed.

Lemma cdll_delete_beg_keeps_ring_witness :
  ∃ h',
    CDLL.delete_beg (Some 1) (World (heap cdll_of_2) [])
    = Done (Some 2, World h' ([] ++ [Printf "deleted item is: %d" [10%Z]])) ∧
    is_dring h' (Some 2) [(2, 20%Z)] ∧
    h' !! 1 = None.
Proof.
  apply (cdll_delete_beg_keeps_ring (heap cdll_of_2) [] (Some 1)
           1 10 2 20 []).
  shape_by_evaluation.
Defined.

(** X28.  [delete_end] of [CDLL.c] on a ring of two or more nodes prints
    the last payload, frees the last node, found through [start->prev],
    and leaves [start] at the ring of the cells before it: the node before
    the last now links on to [start] and [start] back to it. *)
Theorem cdll_delete_end_keeps_ring (h : gmap nat dnode) (c : list event)
  (start : pointer) (front : list (nat * Z)) (r : nat) (vr : Z) :
  front ≠ [] →
  is_dring h start (front ++ [(r, vr)]) →
  ∃ h',
    CDLL.delete_end start (World h c)
    = Done (start, World h' (c ++ [Printf "deleted item is:%d" [vr]])) ∧
    is_dring h' start front ∧
    h' !! r = None.
Proof.
  intros Hne Hring. destruct front as [|[s vs] mid]; [done|]. clear Hne.
  rewrite <- app_comm_cons in Hring.
  apply is_dring_more in Hring as (-> & Hnd & nx & Hs & Hmid & Hr).
  apply NoDup_cons in Hnd as [Hs' Hnd].
  apply not_elem_of_app in Hs' as [Hsmid Hsr].
  apply not_elem_of_cons in Hsr as [Hsr _].
  apply NoDup_app in Hnd as (Hndmid & Hmidr & _).
  assert (Hrmid : r ∉ addrs mid).
  { intros Hin. by apply (Hmidr r), list_elem_of_here. }
  destruct mid as [|[p vp] mid' _] using rev_ind.
  - simpl in Hmid. subst nx.
    change (end_ptr (Some s) []) with (Some s) in Hr.
    exists (delete r (<[s := DNode vs (Some s) (Some s)]> h)).
    split; [unfold CDLL.delete_end; run_mem; same_heap|].
    split; [|apply lookup_delete_eq].
    apply is_dring_one. split; [done|].
    rewrite lookup_delete_ne by done. apply lookup_insert_eq.
  - rewrite end_ptr_snoc in Hr.
    apply dseg_app in Hmid as (m & Hmid' & Hp).
    apply dseg_cons in Hp as [-> (nxp & Hp & Hend)]. simpl in Hend.
    subst nxp.
    rewrite addrs_app in Hsmid, Hrmid, Hndmid.
    apply not_elem_of_app in Hsmid as [Hsmid Hsp].
    apply not_elem_of_cons in Hsp as [Hsp _].
    apply not_elem_of_app in Hrmid as [Hrmid Hrp].
    apply not_elem_of_cons in Hrp as [Hrp _].
    cbn [fst] in Hsp, Hrp.
    apply NoDup_app in Hndmid as (Hndmid' & Hmidp & _).
    assert (Hpmid : p ∉ addrs mid').
    { intros Hin. by apply (Hmidp p), list_elem_of_here. }
    exists (delete r (<[s := DNode vs (Some p) nx]>
                        (<[p := DNode vp (end_ptr (Some s) mid') (Some s)]> h))).
    split; [unfold CDLL.delete_end; by run_mem|].
    split; [|apply lookup_delete_eq].
    apply is_dring_more. split; [done|]. split.
    { rewrite app_comm_cons. apply NoDup_app.
      split; [|split; [|apply NoDup_singleton]].
      - by apply NoDup_cons.
      - intros x Hx Hxp. apply list_elem_of_singleton in Hxp as ->.
        by apply elem_of_cons in Hx as [?|?]. }
    exists nx. split; [|split].
    + rewrite lookup_delete_ne by done. apply lookup_insert_eq.
    + apply dseg_delete_fresh; [|done]. by repeat apply dseg_insert_fresh.
    + rewrite lookup_delete_ne, lookup_insert_ne by done.
      apply lookup_insert_eq.
Qed.

Lemma cdll_delete_end_keeps_ring_witness :
  ∃ h',
    CDLL.delete_end (Some 1) (World (heap cdll_of_2) [])
    = Done (Some 1, World h' ([] ++ [Printf "deleted item is:%d" [20%Z]])) ∧
    is_dring h' (Some 1) [(1, 10%Z)] ∧
    h' !! 2 = None.
Proof.
  apply (cdll_delete_end_keeps_ring (heap cdll_of_2) [] (Some 1)
           [(1, 10%Z)] 2 20).
  - discriminate.
  - shape_by_evaluation.
Defined.

(** ** csll.c: deletion at the end, insertion at the end, display *)

Section CSLLFacts.
Implicit Types (h : gmap nat snode) (c : list event)
  (cells mid rest front : list (nat * Z)).

Lemma csll_traverse_loop_spec rest h c s ptr fuel :
  chain h ptr rest (Some s) → s ∉ addrs rest → length rest < fuel →
  CSLL.traverse_loop fuel (Some s) ptr (World h c)
  = Done (tt, World h (c ++ printed (values rest))).
Proof.
  revert c ptr fuel.
  induction rest as [|[a v] rest IH]; intros c ptr fuel Hl Hs Hf;
    (destruct fuel as [|fuel]; [simpl in Hf; lia|]).
  - simpl in Hl. subst ptr. simpl. run_step. by rewrite app_nil_r.
  - apply chain_cons in Hl as [-> (nx & Hlk & Hl)].
    rewrite addrs_cons in Hs. apply not_elem_of_cons in Hs as [Hne Hs].
    simpl. rewrite (ptr_eqb_ne (Some a) (Some s)) by congruence. run_mem.
    rewrite (IH _ _ _ Hl Hs) by (simpl in Hf; lia).
    by rewrite <- app_assoc.
Qed.

(** [traverse] goes once round the ring. *)
Lemma csll_traverse_spec cells h c start fuel :
  is_ring h start cells → length cells ≤ fuel →
  CSLL.traverse fuel start (World h c)
  = Done (tt, World h (c ++ Printf "\nContent of CSLL:\n" []
                         :: printed (values cells))).
Proof.
  intros (Hne & Hnd & Hl) Hf. destruct cells as [|[s vs] rest]; [done|].
  apply chain_cons in Hl as [-> (nx & Hs & Hl)].
  rewrite addrs_cons in Hnd. apply NoDup_cons in Hnd as [Hs' _].
  unfold CSLL.traverse. run_mem.
  rewrite (csll_traverse_loop_spec rest _ _ s nx fuel Hl Hs')
    by (simpl in Hf; lia).
  by rewrite <- !app_assoc.
Qed.

(** The walk [while(ptr->link!=start)], from any node of the ring, stops
    at the last node. *)
Lemma csll_insert_end_loop_spec rest : ∀ h c s j vj r fuel,
  chain h (Some j) ((j, vj) :: rest) (Some s) →
  s ∉ addrs rest →
  last (j :: addrs rest) = Some r →
  length rest < fuel →
  CSLL.insert_end_loop fuel (Some s) (Some j) (World h c)
  = Done (Some r, World h c).
Proof.
  induction rest as [|[a v] rest IH]; intros h c s j vj r fuel Hl Hs Hlast Hf;
    (destruct fuel as [|fuel]; [simpl in Hf; lia|]);
    apply chain_cons in Hl as [_ (nx & Hj & Hl)].
  - simpl in Hl. subst nx. simpl in Hlast. injection Hlast as <-.
    simpl. by run_mem.
  - pose proof Hl as Hl'. apply chain_cons in Hl' as [-> _].
    rewrite addrs_cons in Hs, Hlast.
    apply not_elem_of_cons in Hs as [Hne Hs].
    rewrite last_cons_cons in Hlast.
    simpl. run_mem. rewrite (ptr_eqb_ne (Some a) (Some s)) by congruence.
    apply (IH h c s a v r fuel Hl Hs Hlast). simpl in Hf. lia.
Qed.

(** The walk of [delete_end] stops at the last node, with [prev] the node
    before it. *)
Lemma csll_delete_end_loop_spec mid : ∀ h c s a v b r vr fuel prev0,
  chain h (Some a) ((a, v) :: mid ++ [(r, vr)]) (Some s) →
  s ∉ addrs (mid ++ [(r, vr)]) →
  last (a :: addrs mid) = Some b →
  length mid < fuel →
  CSLL.delete_end_loop (S fuel) (Some s) (Some a) prev0 (World h c)
  = Done ((Some r, Some b), World h c).
Proof.
  induction mid as [|[a' v'] mid IH];
    intros h c s a v b r vr fuel prev0 Hl Hs Hlast Hf;
    (destruct fuel as [|fuel]; [simpl in Hf; lia|]);
    apply chain_cons in Hl as [_ (nx & Ha & Hl)].
  - simpl in Hlast. injection Hlast as <-.
    apply chain_cons in Hl as [-> (nx' & Hr & Hl)]. simpl in Hl. subst nx'.
    simpl in Hs. apply not_elem_of_cons in Hs as [Hne _].
    simpl. run_mem. rewrite (ptr_eqb_ne (Some r) (Some s)) by congruence.
    by run_mem.
  - rewrite <- app_comm_cons in Hl, Hs. pose proof Hl as Hl'.
    apply chain_cons in Hl' as [-> _].
    rewrite addrs_cons in Hs, Hlast.
    apply not_elem_of_cons in Hs as [Hne Hs].
    rewrite last_cons_cons in Hlast.
    simpl CSLL.delete_end_loop. run_mem.
    rewrite (ptr_eqb_ne (Some a') (Some s)) by congruence.
    apply (IH h c s a' v' b r vr fuel (Some a) Hl Hs Hlast).
    simpl in Hf. lia.
Qed.

End CSLLFacts.

(** X29.  [delete_end] of [csll.c] on a ring of two or more nodes, with
    fuel for the walk and whatever the unassigned [prev] held, prints the
    last payload, frees the last node and links the node before it to
    [start]: the result is the ring of the cells before the last, and the
    [traverse] that [main] runs next prints their payloads once round. *)
Theorem csll_delete_end_keeps_ring (h : gmap nat snode) (c : list event)
  (start junk : pointer) (front : list (nat * Z)) (r : nat) (vr : Z)
  (fuel : nat) :
  front ≠ [] →
  is_ring h start (front ++ [(r, vr)]) →
  length front < fuel →
  ∃ h',
    (start <- CSLL.delete_end fuel junk start ;;
     CSLL.traverse fuel start ;;; ret start) (World h c)
    = Done (start,
            World h' (c ++ [Printf "deleted items are %d" [vr];
                            Printf "\nContent of CSLL:\n" []]
                        ++ printed (values front))) ∧
    is_ring h' start front ∧
    h' !! r = None.
Proof.
  intros Hne (_ & Hnd & Hl) Hf.
  destruct front as [|[s vs] mid]; [done|]. clear Hne.
  rewrite <- app_comm_cons in Hl. pose proof Hl as Hl0.
  apply chain_cons in Hl0 as [-> _].
  pose proof Hnd as Hnd0.
  rewrite addrs_app in Hnd. apply NoDup_app in Hnd as (Hndf & Hfr & _).
  rewrite <- app_comm_cons, addrs_cons in Hnd0.
  apply NoDup_cons in Hnd0 as [Hs' _].
  destruct (last (addrs ((s, vs) :: mid))) as [b|] eqn:Hlast;
    [|by apply last_None in Hlast].
  pose proof Hlast as Hlast0.
  apply last_Some in Hlast as [pre Hpre].
  destruct (addrs_snoc_inv _ _ _ Hpre) as (front' & vb & Hsplit & _).
  pose proof Hl as Hl1. rewrite app_comm_cons, Hsplit in Hl1.
  rewrite <- app_assoc in Hl1. simpl in Hl1.
  apply chain_app in Hl1 as (m & Hfront' & Hl1).
  apply chain_cons in Hl1 as [-> (nxb & Hb & Hl1)].
  apply chain_cons in Hl1 as [-> (nxr & Hr & Hl1)]. simpl in Hl1. subst nxr.
  assert (Hbr : b ≠ r).
  { intros ->. apply (Hfr r); [|apply list_elem_of_here].
    rewrite Hsplit, addrs_app. apply elem_of_app. right.
    apply list_elem_of_here. }
  destruct fuel as [|fuel]; [simpl in Hf; lia|].
  set (h' := delete r (<[b := SNode vb (Some s)]> h)).
  assert (Hring' : is_ring h' (Some s) ((s, vs) :: mid)).
  { split; [done|]. split; [done|].
    rewrite Hsplit. rewrite Hsplit in Hndf, Hfr.
    rewrite addrs_app in Hndf. apply NoDup_app in Hndf as (_ & Hb' & _).
    apply chain_app. exists (Some b). split.
    - apply chain_delete_fresh.
      + apply chain_insert_fresh; [done|]. intros Hin.
        by apply (Hb' b), list_elem_of_here.
      + intros Hin. apply (Hfr r); [|apply list_elem_of_here].
        rewrite addrs_app. apply elem_of_app. by left.
    - apply chain_cons. split; [done|]. exists (Some s). split; [|done].
      unfold h'. rewrite lookup_delete_ne by done. apply lookup_insert_eq. }
  exists h'. split; [|split; [done|apply lookup_delete_eq]].
  assert (Hrun : CSLL.delete_end (S fuel) junk (Some s) (World h c)
                 = Done (Some s,
                         World h' (c ++ [Printf "deleted items are %d" [vr]]))).
  { unfold CSLL.delete_end. run_mem.
    rewrite (csll_delete_end_loop_spec mid h c s s vs b r vr fuel junk);
      [by run_mem|done|done|done|simpl in Hf; lia]. }
  rewrite (bind_Done _ _ _ _ _ Hrun). unfold bind.
  rewrite (csll_traverse_spec _ _ _ _ (S fuel) Hring') by (simpl in *; lia).
  unfold ret. by rewrite <- !app_assoc.
Qed.

Lemma csll_delete_end_keeps_ring_witness :
  ∃ h',
    (start <- CSLL.delete_end 2 NULL (Some 1) ;;
     CSLL.traverse 2 start ;;; ret start) (World (heap ring_of_2) [])
    = Done (Some 1,
            World h' ([] ++ [Printf "deleted items are %d" [2%Z];
                             Printf "\nContent of CSLL:\n" []]
                         ++ printed (values [(1, 1%Z)]))) ∧
    is_ring h' (Some 1) [(1, 1%Z)] ∧
    h' !! 2 = None.
Proof.
  apply (csll_delete_end_keeps_ring (heap ring_of_2) [] (Some 1) NULL
           [(1, 1%Z)] 2 2 2).
  - discriminate.
  - shape_by_evaluation.
  - simpl. lia.
Defined.

(** X30.  [insert_end] of [csll.c] is sound on the empty list only.  There
    it builds the one-node ring.  On a non-empty ring its walk starts from
    [ptr], which has not been assigned: when [ptr] holds [NULL] the first
    loop test dereferences [NULL]; when it holds the address of a node of
    the ring, the walk reaches the last node and the new node is appended,
    [start] unchanged. *)
Theorem csll_insert_end_needs_ptr (h : gmap nat snode) (c : list event)
  (start junk : pointer) (cells : list (nat * Z)) (a : nat) (item : Z)
  (fuel : nat) :
  is_ring h start cells →
  h !! a = None →
  length cells ≤ fuel →
  let prompt := Printf "enter item to be inserted" [] in
  CSLL.insert_end fuel junk (Some a) item NULL (World h c)
  = Done (Some a, World (<[a := SNode item (Some a)]> h) (c ++ [prompt])) ∧
  is_ring (<[a := SNode item (Some a)]> h) (Some a) [(a, item)] ∧
  CSLL.insert_end fuel NULL (Some a) item start (World h c)
  = Crash NullDeref ∧
  ∀ j, j ∈ addrs cells →
    ∃ h',
      CSLL.insert_end fuel (Some j) (Some a) item start (World h c)
      = Done (start, World h' (c ++ [prompt])) ∧
      is_ring h' start (cells ++ [(a, item)]).
Proof.
  intros (Hne & Hnd & Hl) Ha Hf prompt.
  pose proof (chain_fresh _ _ _ _ _ Hl Ha) as Hfresh.
  destruct cells as [|[s vs] rest0]; [done|]. clear Hne.
  pose proof Hl as Hl0. apply chain_cons in Hl0 as [-> _].
  destruct fuel as [|fuel]; [simpl in Hf; lia|].
  split; [unfold CSLL.insert_end; by run_mem|].
  split.
  { split; [done|]. split; [apply NoDup_singleton|].
    apply chain_cons. split; [done|]. exists (Some a).
    split; [apply lookup_insert_eq|done]. }
  split.
  { unfold CSLL.insert_end. run_mem. simpl CSLL.insert_end_loop.
    by run_mem. }
  intros j Hj.
  (* the ring seen from its last node, and from [j] *)
  destruct (last (addrs ((s, vs) :: rest0))) as [r|] eqn:Hlast;
    [|by apply last_None in Hlast].
  pose proof Hlast as Hlast0. apply last_Some in Hlast as [pre Hpre].
  destruct (addrs_snoc_inv _ _ _ Hpre) as (front & vr & Hsplit & _).
  apply list_elem_of_fmap in Hj as ([j' vj] & Hjeq & Hj). simpl in Hjeq.
  subst j'. apply list_elem_of_split in Hj as (before & after & Hcut).
  assert (Hl1 : is_ring (<[a := SNode item NULL]> h) (Some s)
                  ((s, vs) :: rest0)).
  { split; [done|]. split; [done|]. by apply chain_insert_fresh. }
  destruct Hl1 as (_ & _ & Hl1).
  assert (Hloop : CSLL.insert_end_loop (S fuel) (Some s) (Some j)
                    (World (<[a := SNode item NULL]> h) (c ++ [prompt]))
                  = Done (Some r,
                          World (<[a := SNode item NULL]> h) (c ++ [prompt]))).
  { rewrite Hcut in Hl1, Hnd, Hlast0, Hf.
    apply chain_app in Hl1 as (m & Hbefore & Hfrom).
    pose proof Hfrom as Hfrom'. apply chain_cons in Hfrom' as [-> _].
    apply (csll_insert_end_loop_spec after _ _ s j vj r (S fuel) Hfrom).
    - rewrite addrs_app, addrs_cons in Hnd.
      destruct before as [|[s' vs'] before].
      + simpl in Hcut. injection Hcut as -> -> ->.
        by apply NoDup_cons in Hnd as [? _].
      + simpl in Hcut. injection Hcut as -> -> ->.
        rewrite addrs_cons in Hnd. simpl in Hnd.
        apply NoDup_cons in Hnd as [Hs _].
        intros Hin. apply Hs, elem_of_app. right.
        by apply list_elem_of_further.
    - rewrite addrs_app, addrs_cons in Hlast0.
      rewrite last_app in Hlast0.
      by destruct (last (j :: addrs after)) eqn:E;
        [|apply last_None in E].
    - rewrite length_app in Hf. simpl in Hf. lia. }
  rewrite Hsplit in Hl, Hnd, Hfresh.
  rewrite addrs_app in Hnd, Hfresh.
  apply chain_app in Hl as (m & Hfront & Hr).
  apply chain_cons in Hr as [-> (nx & Hr & Hend)]. simpl in Hend. subst nx.
  apply not_elem_of_app in Hfresh as [Hafront Har].
  apply not_elem_of_cons in Har as [Har _]. cbn [fst] in Har.
  pose proof Hnd as Hnd0. apply NoDup_app in Hnd as (_ & Hfr & _).
  exists (<[a := SNode item (Some s)]>
            (<[r := SNode vr (Some a)]> (<[a := SNode item NULL]> h))).
  split.
  - unfold CSLL.insert_end. run_mem.
    change (link sblank) with NULL. fold prompt. rewrite Hloop. by run_mem.
  - rewrite Hsplit. split; [by destruct front|]. split.
    + rewrite !addrs_app. rewrite <- app_assoc. simpl.
      apply NoDup_app in Hnd0 as (Hndfront & _ & _).
      apply NoDup_app. split; [done|]. split.
      * intros x Hx Hin. apply elem_of_cons in Hin as [->|Hin].
        -- by apply (Hfr r), list_elem_of_here.
        -- apply list_elem_of_singleton in Hin as ->. done.
      * apply NoDup_cons. split; [|apply NoDup_singleton].
        rewrite list_elem_of_singleton. congruence.
    + rewrite <- app_assoc. simpl. apply chain_app. exists (Some r). split.
      * apply chain_insert_fresh; [apply chain_insert_fresh|]; [|idtac|done].
        -- by apply chain_insert_fresh.
        -- intros Hin. by apply (Hfr r), list_elem_of_here.
      * apply chain_cons. split; [done|]. exists (Some a). split.
        -- rewrite lookup_insert_ne by congruence. apply lookup_insert_eq.
        -- apply chain_cons. split; [done|]. exists (Some s).
           split; [apply lookup_insert_eq|done].
Qed.

Lemma csll_insert_end_needs_ptr_witness :
  let prompt := Printf "enter item to be inserted" [] in
  CSLL.insert_end 2 NULL (Some 9) 7 NULL (World (heap ring_of_2) [])
  = Done (Some 9,
          World (<[9 := SNode 7 (Some 9)]> (heap ring_of_2))
            ([] ++ [prompt])) ∧
  is_ring (<[9 := SNode 7 (Some 9)]> (heap ring_of_2)) (Some 9) [(9, 7%Z)] ∧
  CSLL.insert_end 2 NULL (Some 9) 7 (Some 1) (World (heap ring_of_2) [])
  = Crash NullDeref ∧
  ∀ j, j ∈ addrs [(1, 1%Z); (2, 2%Z)] →
    ∃ h',
      CSLL.insert_end 2 (Some j) (Some 9) 7 (Some 1)
        (World (heap ring_of_2) [])
      = Done (Some 1, World h' ([] ++ [prompt])) ∧
      is_ring h' (Some 1) ([(1, 1%Z); (2, 2%Z)] ++ [(9, 7%Z)]).
Proof.
  apply (csll_insert_end_needs_ptr (heap ring_of_2) [] (Some 1) NULL
           [(1, 1%Z); (2, 2%Z)] 9 7 2).
  - shape_by_evaluation.
  - reflexivity.
  - simpl. lia.
Defined.
